(** * react-internals: the keyed fetch pages, the latest-callback hooks and
      the debounce / throttle schedulers

    A shallow embedding of the stateful logic of three source files:
    - [src/components/chapter-14/index.tsx] (optimised part): [simulateFetch],
      [PageWithRefComparison], [PageWithCleanup], [PageWithAbort], [DemoApp];
      (first part): [Page] with the race condition and [RaceConditionApp];
    - [src/components/chapter-10/optimised.tsx]: [useEventCallback],
      [HeavyComponent], [FormWithHook], [FormWithRefEscape], and the demos
      [StaleCallbackDemo], [StaleRefDemo], [StaleMemoDemo];
    - [src/unnamed/part_012] (optimised part): [debounce], [throttle],
      [useDebounce], [useThrottle]; (first part): [NaiveDebounceDemo],
      [MemoWithStateDepsDemo], [NaiveRefDemo]; (last parts): [ChapterFive],
      [ChapterFiveOptimised].

    Each page, hook and scheduler is a state record with one function per
    callback of the source; what the code calls on its collaborators
    ([setData], [simulateFetch], [console.error], ...) is returned as a list
    of calls, and what a user callback does is a function on a [World].

    React itself, promises and the browser timers are not part of the
    repository.  They are modelled by what the code relies on:
    - a component instance is a record of its hook cells; a render with
      unchanged dependencies keeps a memoised value and skips the effect,
      a changed dependency runs the previous cleanup and then the effect;
      an effect without dependencies runs after every render; a state
      update of an unmounted component is dropped;
    - a function object is known by the order of its creation, so that two
      functions are the same object exactly when these numbers are equal;
    - a state setter given a function calls it on the state
      ([basicStateReducer]); if the function throws, the render throws and
      React takes the component down;
    - a promise settles once, and its [then] / [catch] callbacks run when it
      settles;
    - a timer fires at its due time, timers fire in order of due time, and a
      cleared timer never fires; the due time is the time of the call plus
      the delay the host keeps, which is the delay asked for when that is
      from 1 to 2^31 - 1 ms ([Timers.delay_kept]).

    And of JavaScript: a property read on an object literal finds the
    properties of [Object.prototype] too ([Chapter14.issuesData_at]). *)

From stdpp Require Import base strings gmap list pretty.
From Stdlib Require Import Ascii ZArith Lia.

Open Scope string_scope.
Open Scope list_scope.

(** ** Chapter 14: one fetch per key, and which result reaches the state *)
Module Chapter14.

Record Issue := {
  issue_id : string;
  title : string;
  description : string
}.

#[global] Instance Issue_eq_dec : EqDecision Issue.
Proof. solve_decision. Defined.

Definition issuesData : gmap string Issue :=
  <["1" := {| issue_id := "ISSUE-1"; title := "Login Bug";
              description := "Users cannot login with special characters" |}]>
  (<["2" := {| issue_id := "ISSUE-2"; title := "Dashboard Crash";
               description := "Dashboard crashes on mobile devices" |}]>
  (<["3" := {| issue_id := "ISSUE-3"; title := "Payment Failed";
               description := "Payment processing times out randomly" |}]> ∅)).

(** [issuesData] is an object literal, so what it does not hold itself it
    inherits from [Object.prototype]: these are the names of the properties
    of [Object.prototype]. *)
Definition Object_prototype : list string :=
  ["constructor"; "__defineGetter__"; "__defineSetter__"; "hasOwnProperty";
   "__lookupGetter__"; "__lookupSetter__"; "isPrototypeOf";
   "propertyIsEnumerable"; "toString"; "valueOf"; "__proto__"; "toLocaleString"].

(** What [data] and a fetch result can hold.  [useState(null)] starts at
    [null]; [issuesData[id]] is an issue for a key of the table, the
    inherited property for a name of [Object.prototype], and [undefined] for
    any other id.  The other values are what the inherited functions return
    when React calls them on the state (see [basicStateReducer]). *)
Inductive value :=
  | Null
  | Undefined
  | Obj (i : Issue)
  | Inherited (name : string)    (* [Object.prototype[name]] *)
  | Empty_object                 (* a new [{}] *)
  | Str (s : string)
  | Bool (b : bool)
  | String_object (s : string)   (* [Object(s)] *)
  | Boolean_object (b : bool).   (* [Object(b)] *)

#[global] Instance value_eq_dec : EqDecision value.
Proof. solve_decision. Defined.

Definition issuesData_at (id : string) : value :=
  match issuesData !! id with
  | Some i => Obj i
  | None => if decide (id ∈ Object_prototype) then Inherited id else Undefined
  end.

(** [typeof v === "function"]: every property of [Object.prototype] is a
    function, except [__proto__], whose getter returns [Object.prototype]
    itself. *)
Definition is_function (v : value) : bool :=
  match v with
  | Inherited name => bool_decide (name ≠ "__proto__")
  | _ => false
  end.

(** The value is an object, not a primitive. *)
Definition is_object (v : value) : bool :=
  match v with
  | Obj _ | Inherited _ | Empty_object | String_object _ | Boolean_object _ => true
  | Null | Undefined | Str _ | Bool _ => false
  end.

(** [f(prev)] for the function [f = Object.prototype[name]], called with
    [this] undefined; [None] when the call throws.  [constructor] is
    [Object], which returns a new object for [null] and [undefined], an
    object as it is, and a primitive in its wrapper; [toString] on an
    undefined [this] returns a string; [isPrototypeOf] returns false for a
    primitive argument before it looks at [this]; every other one of these
    functions converts [this] to an object, which throws a TypeError for
    [undefined]. *)
Definition call_inherited (name : string) (prev : value) : option value :=
  if decide (name = "constructor") then
    Some (match prev with
          | Null | Undefined => Empty_object
          | Str s => String_object s
          | Bool b => Boolean_object b
          | _ => prev
          end)
  else if decide (name = "toString") then Some (Str "[object Undefined]")
  else if decide (name = "isPrototypeOf") then
    if is_object prev then None else Some (Bool false)
  else None.

(** How React computes the state after [setState(action)]:
    [typeof action === "function" ? action(state) : action]; [None] when
    the call throws. *)
Definition basicStateReducer (state action : value) : option value :=
  match action with
  | Inherited name =>
      if is_function action then call_inherited name state else Some action
  | _ => Some action
  end.

(** [s.split(sep)] for a one-character separator. *)
Fixpoint split (sep : Ascii.ascii) (s : string) : list string :=
  match s with
  | EmptyString => [EmptyString]
  | String c s' =>
      if decide (c = sep) then EmptyString :: split sep s'
      else match split sep s' with
           | [] => [String c EmptyString]
           | w :: ws => String c w :: ws
           end
  end.

(** *** simulateFetch *)

Inductive promise :=
  | Pending
  | Fulfilled (v : value)
  | Rejected (name : string).

#[global] Instance promise_eq_dec : EqDecision promise.
Proof. solve_decision. Defined.

(** One call of [simulateFetch(id, signal)]: the id it was called with,
    whether a signal was passed (so that an abort listener exists), whether
    its [setTimeout] is still set, and the promise it returned.  The random
    delay is not modelled: the timers of different calls may fire in any
    order. *)
Record Fetch := {
  fetch_id : string;
  has_signal : bool;
  timeout : bool;
  state : promise
}.

Definition simulateFetch (id : string) (signal : bool) : Fetch :=
  {| fetch_id := id; has_signal := signal; timeout := true; state := Pending |}.

(** [resolve] and [reject] act on a pending promise only. *)
Definition settle (st : promise) (f : Fetch) : Fetch :=
  {| fetch_id := fetch_id f; has_signal := has_signal f; timeout := false;
     state := match state f with Pending => st | old => old end |}.

(** The timer callback: [resolve(issuesData[id])]. *)
Definition on_timeout (f : Fetch) : Fetch :=
  if timeout f then settle (Fulfilled (issuesData_at (fetch_id f))) f else f.

(** The abort listener: [clearTimeout(timeout); reject(AbortError)]. *)
Definition on_abort (f : Fetch) : Fetch :=
  if has_signal f then settle (Rejected "AbortError") f else f.

(** *** The three pages *)

(** One run of the effect: the fetch it issued and, for [PageWithCleanup],
    the [isActive] variable of that run (the other two pages declare no such
    variable and never read the field). *)
Record Request := {
  fetch : Fetch;
  isActive : bool
}.

Record Page := {
  props_id : string;          (* the id prop of the last render *)
  data : value;               (* useState(null) *)
  loading : bool;             (* useState(true) *)
  currentIdRef : string;      (* useRef(id), PageWithRefComparison only *)
  requests : list Request;    (* effect runs so far, oldest first *)
  mounted : bool
}.

(** Calls the page makes to its collaborators, in order. *)
Inductive call :=
  | simulateFetch_call (id : string)
  | setData_call (v : value)
  | setLoading_call (b : bool)
  | abort_call (n : nat)
  | console_error (name : string).

#[global] Instance call_eq_dec : EqDecision call.
Proof. solve_decision. Defined.

Definition with_props_id (id : string) (p : Page) : Page :=
  {| props_id := id; data := data p; loading := loading p;
     currentIdRef := currentIdRef p; requests := requests p;
     mounted := mounted p |}.

Definition with_currentIdRef (id : string) (p : Page) : Page :=
  {| props_id := props_id p; data := data p; loading := loading p;
     currentIdRef := id; requests := requests p; mounted := mounted p |}.

Definition with_requests (rs : list Request) (p : Page) : Page :=
  {| props_id := props_id p; data := data p; loading := loading p;
     currentIdRef := currentIdRef p; requests := rs; mounted := mounted p |}.

Definition with_mounted (b : bool) (p : Page) : Page :=
  {| props_id := props_id p; data := data p; loading := loading p;
     currentIdRef := currentIdRef p; requests := requests p; mounted := b |}.

(** React drops a state update of an unmounted component.  An update whose
    function throws leaves no state behind: see [render_throws]. *)
Definition setData (v : value) (p : Page) : Page :=
  if mounted p then
    match basicStateReducer (data p) v with
    | Some d =>
        {| props_id := props_id p; data := d; loading := loading p;
           currentIdRef := currentIdRef p; requests := requests p;
           mounted := mounted p |}
    | None => p
    end
  else p.

Definition setLoading (b : bool) (p : Page) : Page :=
  if mounted p then
    {| props_id := props_id p; data := data p; loading := b;
       currentIdRef := currentIdRef p; requests := requests p;
       mounted := mounted p |}
  else p.

Definition issue (f : Fetch) (p : Page) : Page :=
  with_requests (requests p ++ [{| fetch := f; isActive := true |}]) p.

Definition with_fetch (f : Fetch) (r : Request) : Request :=
  {| fetch := f; isActive := isActive r |}.

Definition deactivate (r : Request) : Request :=
  {| fetch := fetch r; isActive := false |}.

(** The index of the latest effect run. *)
Definition latest (p : Page) : nat := length (requests p) - 1.

(** **** PageWithRefComparison *)

Definition PageWithRefComparison_effect (id : string) (p : Page) : Page * list call :=
  let p := with_currentIdRef id p in
  let p := setLoading true p in
  (issue (simulateFetch id false) p, [setLoading_call true; simulateFetch_call id]).

(** The [then] callback.  On [undefined], [result.id] throws inside the
    callback: nothing is set, and nothing handles the rejection. *)
Definition PageWithRefComparison_then (result : value) (p : Page) : Page * list call :=
  match result with
  | Obj r =>
      if decide (split "-"%char (issue_id r) !! 1%nat = Some (currentIdRef p)) then
        (setLoading false (setData result p),
         [setData_call result; setLoading_call false])
      else (p, [])
  | _ => (p, [])
  end.

(** **** PageWithCleanup *)

Definition PageWithCleanup_effect (id : string) (p : Page) : Page * list call :=
  let p := setLoading true p in
  (issue (simulateFetch id false) p, [setLoading_call true; simulateFetch_call id]).

(** The [then] callback of effect run [n] reads that run's [isActive]. *)
Definition PageWithCleanup_then (n : nat) (result : value) (p : Page) : Page * list call :=
  match isActive <$> requests p !! n with
  | Some true =>
      (setLoading false (setData result p),
       [setData_call result; setLoading_call false])
  | _ => (p, [])
  end.

(** The cleanup returned by the latest effect run: [isActive = false]. *)
Definition PageWithCleanup_cleanup (p : Page) : Page * list call :=
  (with_requests (alter deactivate (latest p) (requests p)) p, []).

(** **** PageWithAbort *)

Definition PageWithAbort_effect (id : string) (p : Page) : Page * list call :=
  let p := setLoading true p in
  (issue (simulateFetch id true) p, [setLoading_call true; simulateFetch_call id]).

Definition PageWithAbort_then (result : value) (p : Page) : Page * list call :=
  (setLoading false (setData result p),
   [setData_call result; setLoading_call false]).

(** The [catch] callback; an error is known by its [name]. *)
Definition PageWithAbort_catch (name : string) (p : Page) : Page * list call :=
  if decide (name ≠ "AbortError") then (p, [console_error name]) else (p, []).

(** The cleanup returned by the latest effect run: [controller.abort()].
    The abort listener settles the fetch; if that rejects a pending promise
    the [catch] callback runs. *)
Definition PageWithAbort_cleanup (p : Page) : Page * list call :=
  match requests p !! latest p with
  | Some r =>
      let f' := on_abort (fetch r) in
      let p' := with_requests (<[latest p := with_fetch f' r]> (requests p)) p in
      match state (fetch r), state f' with
      | Pending, Rejected name =>
          let '(p'', cs) := PageWithAbort_catch name p' in
          (p'', abort_call (latest p) :: cs)
      | _, _ => (p', [abort_call (latest p)])
      end
  | None => (p, [])
  end.

(** **** DemoApp: the page behind [solution] *)

Inductive Solution := ref | cleanup | abort.

Definition effect (sol : Solution) : string → Page → Page * list call :=
  match sol with
  | ref => PageWithRefComparison_effect
  | cleanup => PageWithCleanup_effect
  | abort => PageWithAbort_effect
  end.

Definition run_cleanup (sol : Solution) (p : Page) : Page * list call :=
  match sol with
  | ref => (p, [])
  | cleanup => PageWithCleanup_cleanup p
  | abort => PageWithAbort_cleanup p
  end.

Definition on_fulfilled (sol : Solution) (n : nat) (result : value) (p : Page)
  : Page * list call :=
  match sol with
  | ref => PageWithRefComparison_then result p
  | cleanup => PageWithCleanup_then n result p
  | abort => PageWithAbort_then result p
  end.

(** The first render of [<Page id={id} />] and its effect. *)
Definition mount (sol : Solution) (id : string) : Page * list call :=
  effect sol id
    {| props_id := id; data := Null; loading := true; currentIdRef := id;
       requests := []; mounted := true |}.

Inductive event :=
  | Render (id : string)    (* the parent renders the page with this id *)
  | Timeout (n : nat)       (* the timer of the fetch of effect run n fires *)
  | Unmount.

(** [useEffect(..., [id])]: an unchanged id skips the effect; a new id runs
    the previous cleanup, then the effect. *)
Definition render (sol : Solution) (id : string) (p : Page) : Page * list call :=
  if mounted p then
    if decide (id = props_id p) then (p, [])
    else
      let '(p1, c1) := run_cleanup sol (with_props_id id p) in
      let '(p2, c2) := effect sol id p1 in
      (p2, c1 ++ c2)
  else (p, []).

Definition unmount (sol : Solution) (p : Page) : Page * list call :=
  if mounted p then
    let '(p1, c1) := run_cleanup sol p in
    (with_mounted false p1, c1)
  else (p, []).

(** The function given to [setData] throws on the state of the page. *)
Definition throws_on (prev : value) (c : call) : bool :=
  match c with
  | setData_call v => bool_decide (basicStateReducer prev v = None)
  | _ => false
  end.

(** React calls the function of a state update when it renders the page
    again; if the function throws, the render throws and React takes the
    page down (the error goes to the nearest error boundary, or to the root,
    and the subtree that threw is unmounted). *)
Definition render_throws (cs : list call) (p : Page) : bool :=
  mounted p && existsb (throws_on (data p)) cs.

Definition timer_fires (sol : Solution) (n : nat) (p : Page) : Page * list call :=
  match requests p !! n with
  | Some r =>
      let f' := on_timeout (fetch r) in
      let p' := with_requests (<[n := with_fetch f' r]> (requests p)) p in
      match state (fetch r), state f' with
      | Pending, Fulfilled v =>
          let '(p1, cs) := on_fulfilled sol n v p' in
          if render_throws cs p' then
            let '(p2, c2) := unmount sol p' in (p2, cs ++ c2)
          else (p1, cs)
      | _, _ => (p', [])
      end
  | None => (p, [])
  end.

Definition step (sol : Solution) (p : Page) (e : event) : Page * list call :=
  match e with
  | Render id => render sol id p
  | Timeout n => timer_fires sol n p
  | Unmount => unmount sol p
  end.

Fixpoint run (sol : Solution) (pc : Page * list call) (es : list event)
  : Page * list call :=
  match es with
  | [] => pc
  | e :: es' =>
      let '(p', c') := step sol (fst pc) e in
      run sol (p', snd pc ++ c') es'
  end.

(** The life of one page instance: mounted with [id], then the events. *)
Definition DemoApp (sol : Solution) (id : string) (es : list event) : Page * list call :=
  run sol (mount sol id) es.

Definition is_fetch (c : call) : bool :=
  match c with simulateFetch_call _ => true | _ => false end.

Definition fetches_issued (cs : list call) : nat :=
  length (filter (λ c, is_fetch c = true) cs).

Definition is_commit (c : call) : bool :=
  match c with setData_call _ | setLoading_call false => true | _ => false end.

Definition commits (cs : list call) : list call := filter (λ c, is_commit c = true) cs.

(** *** Properties of pages and requests used below *)

(** A fetch as [simulateFetch] and its two callbacks leave it: the timer is
    set exactly while the promise is pending, a fulfilled promise holds the
    table entry of its id, and only an abort rejects. *)
Definition fetch_ok (sol : Solution) (f : Fetch) : Prop :=
  has_signal f = (if sol is abort then true else false)
  ∧ (timeout f = true ↔ state f = Pending)
  ∧ (∀ v, state f = Fulfilled v → v = issuesData_at (fetch_id f))
  ∧ (∀ name, state f = Rejected name → name = "AbortError" ∧ sol = abort).

(** What holds of every page a trace can reach.  There is a request; the
    ref of [PageWithRefComparison] holds the current id; an [isActive] that
    is still true, and in [PageWithAbort] a fetch that is still pending,
    belongs to the latest request of a mounted page; the latest request was
    issued for the current id, and on a mounted page it is active, not
    rejected, and, once settled, [loading] is false and its result, when it
    is not a function, is the [data] shown (for the two pages with a
    cleanup). *)
Definition inv (sol : Solution) (p : Page) : Prop :=
  requests p ≠ []
  ∧ (sol = ref → currentIdRef p = props_id p)
  ∧ (∀ n r, requests p !! n = Some r →
       fetch_ok sol (fetch r)
       ∧ (sol = cleanup → isActive r = true → mounted p = true ∧ n = latest p)
       ∧ (sol = abort → state (fetch r) = Pending → mounted p = true ∧ n = latest p))
  ∧ (∀ r, requests p !! latest p = Some r →
       fetch_id (fetch r) = props_id p
       ∧ (mounted p = true →
            isActive r = true
            ∧ (∀ name, state (fetch r) ≠ Rejected name)
            ∧ (sol ≠ ref → state (fetch r) ≠ Pending →
                 loading p = false
                 ∧ (is_function (issuesData_at (props_id p)) = false →
                      data p = issuesData_at (props_id p))))).

(** The test each page makes before it commits a result [v] delivered to
    the [then] callback of request [r]. *)
Definition guard (sol : Solution) (p : Page) (r : Request) (v : value) : Prop :=
  match sol with
  | ref => ∃ i, v = Obj i ∧ split "-"%char (issue_id i) !! 1%nat = Some (currentIdRef p)
  | cleanup => isActive r = true
  | abort => True
  end.

#[global] Instance guard_dec sol p r v : Decision (guard sol p r v).
Proof.
  destruct sol; cbn; [|apply _|apply _].
  destruct v as [| |i| | | | | |]; try (right; by intros (? & ? & ?)).
  destruct (decide (split "-"%char (issue_id i) !! 1%nat = Some (currentIdRef p))).
  - left. eauto.
  - right. intros (j & [= <-] & ?). done.
Defined.

Definition commit (v : value) (p : Page) : Page * list call :=
  (setLoading false (setData v p), [setData_call v; setLoading_call false]).

(** What a cleanup does to the request of the latest effect run. *)
Definition cleaned (sol : Solution) (r : Request) : Request :=
  match sol with
  | ref => r
  | cleanup => deactivate r
  | abort => with_fetch (on_abort (fetch r)) r
  end.

(** The fetch of effect run [n] has settled. *)
Definition resolved (p : Page) (n : nat) : Prop :=
  ∃ r, requests p !! n = Some r ∧ state (fetch r) ≠ Pending.

#[global] Instance resolved_dec p n : Decision (resolved p n).
Proof.
  unfold resolved. destruct (requests p !! n) as [r|].
  - destruct (decide (state (fetch r) = Pending)) as [E|E].
    + right. intros (r' & [= <-] & H). done.
    + left. eauto.
  - right. intros (r' & [=] & _).
Defined.

(** Committing by sequence number: the firing of the timer of request [n]
    commits exactly when [n] is the latest request. *)
Definition commits_iff_latest (sol : Solution) (p : Page) (n : nat) : Prop :=
  commits (step sol p (Timeout n)).2 ≠ [] ↔ n = latest p.

Definition is_error (c : call) : bool :=
  match c with console_error _ => true | _ => false end.

Definition errors (cs : list call) : list call := filter (λ c, is_error c = true) cs.

(** *** Facts shared by the three pages *)

Ltac unfold_effect :=
  unfold effect, PageWithRefComparison_effect, PageWithCleanup_effect,
    PageWithAbort_effect, setLoading, issue, with_requests, with_currentIdRef;
  cbn.

Section Frames.
Context (sol : Solution).

Lemma effect_props_id id p : props_id (effect sol id p).1 = props_id p.
Proof. destruct sol; unfold_effect; by destruct (mounted p). Qed.

Lemma effect_mounted id p : mounted (effect sol id p).1 = mounted p.
Proof. destruct sol; unfold_effect; by destruct (mounted p) eqn:E. Qed.

Lemma effect_requests id p :
  ∃ f, requests (effect sol id p).1 = requests p ++ [{| fetch := f; isActive := true |}]
       ∧ fetch_id f = id ∧ state f = Pending ∧ timeout f = true
       ∧ has_signal f = match sol with abort => true | _ => false end.
Proof.
  destruct sol; unfold_effect; destruct (mounted p); cbn;
    (eexists; split; [reflexivity|]; done).
Qed.

Lemma effect_calls id p :
  (effect sol id p).2 = [setLoading_call true; simulateFetch_call id].
Proof. by destruct sol. Qed.

Lemma PageWithAbort_cleanup_frame p :
  props_id (PageWithAbort_cleanup p).1 = props_id p
  ∧ mounted (PageWithAbort_cleanup p).1 = mounted p
  ∧ data (PageWithAbort_cleanup p).1 = data p
  ∧ loading (PageWithAbort_cleanup p).1 = loading p
  ∧ length (requests (PageWithAbort_cleanup p).1) = length (requests p).
Proof.
  unfold PageWithAbort_cleanup.
  destruct (requests p !! latest p) as [r|]; [|done].
  destruct (state (fetch r)); cbn; rewrite ?length_insert; try done.
  destruct (state (on_abort (fetch r))); cbn; rewrite ?length_insert; try done.
  unfold PageWithAbort_catch. case_decide; cbn; by rewrite ?length_insert.
Qed.

Lemma run_cleanup_frame p :
  props_id (run_cleanup sol p).1 = props_id p
  ∧ mounted (run_cleanup sol p).1 = mounted p
  ∧ data (run_cleanup sol p).1 = data p
  ∧ loading (run_cleanup sol p).1 = loading p
  ∧ length (requests (run_cleanup sol p).1) = length (requests p).
Proof.
  destruct sol; cbn; [done | by rewrite length_alter | apply PageWithAbort_cleanup_frame].
Qed.

Lemma run_cleanup_no_fetch p : fetches_issued (run_cleanup sol p).2 = 0.
Proof.
  destruct sol; cbn; try done. unfold PageWithAbort_cleanup.
  destruct (requests p !! latest p) as [r|]; [|done].
  destruct (state (fetch r)); cbn; try done.
  destruct (state (on_abort (fetch r))); cbn; try done.
  unfold PageWithAbort_catch. by case_decide.
Qed.

(** After a render with [id], the page's id prop is [id] (if it is still
    mounted). *)
Lemma render_props_id id p :
  mounted p = true → props_id (render sol id p).1 = id ∧ mounted (render sol id p).1 = true.
Proof.
  intros Hm. unfold render. rewrite Hm. case_decide; [by subst|].
  destruct (run_cleanup sol (with_props_id id p)) as [p1 c1] eqn:E1.
  destruct (effect sol id p1) as [p2 c2] eqn:E2. cbn.
  pose proof (effect_props_id id p1) as H1. pose proof (effect_mounted id p1) as H2.
  rewrite E2 in H1, H2. cbn in *. rewrite H1, H2.
  pose proof (run_cleanup_frame (with_props_id id p)) as (H3 & H4 & _).
  rewrite E1 in H3, H4. cbn in *. by rewrite H3, H4.
Qed.

Lemma render_unmounted id p : mounted p = false → render sol id p = (p, []).
Proof. intros Hm. unfold render. by rewrite Hm. Qed.

Lemma render_same p : render sol (props_id p) p = (p, []).
Proof. unfold render. destruct (mounted p); [|done]. by rewrite decide_True. Qed.

Lemma render_fetches id p :
  fetches_issued (render sol id p).2 =
  if mounted p then if decide (id = props_id p) then 0 else 1 else 0.
Proof.
  unfold render. destruct (mounted p); [|done]. case_decide; [done|].
  destruct (run_cleanup sol (with_props_id id p)) as [p1 c1] eqn:E1.
  destruct (effect sol id p1) as [p2 c2] eqn:E2. cbn.
  pose proof (run_cleanup_no_fetch (with_props_id id p)) as H1.
  pose proof (effect_calls id p1) as H2. rewrite E1 in H1. rewrite E2 in H2.
  cbn in *. subst c2. unfold fetches_issued in *.
  rewrite filter_app, length_app, H1. done.
Qed.

Lemma run_app pc es1 es2 : run sol pc (es1 ++ es2) = run sol (run sol pc es1) es2.
Proof.
  revert pc. induction es1 as [|e es1 IH]; intros pc; [done|].
  cbn. destruct (step sol pc.1 e). apply IH.
Qed.

Lemma run_snoc pc es e :
  run sol pc (es ++ [e]) =
  ((step sol (run sol pc es).1 e).1, (run sol pc es).2 ++ (step sol (run sol pc es).1 e).2).
Proof. rewrite run_app. cbn. by destruct (step sol _ e). Qed.

End Frames.

(** *** Rendering the same id again *)

(** C8: setting the same key twice in a row issues one fetch.  For each of
    the three pages, from any state, rendering with [k] and again with [k]
    is the same as rendering with [k] once: the second render changes
    nothing and makes no call (no second fetch, no new effect run); the two
    renders issue one fetch when [k] is a new id for a mounted page and none
    otherwise; and a page mounted with [k] and rendered with [k] again has
    issued exactly one fetch. *)
Theorem setKey_same_key_one_fetch (sol : Solution) :
  (∀ p cs k, run sol (p, cs) [Render k; Render k] = run sol (p, cs) [Render k])
  ∧ (∀ p k, fetches_issued (run sol (p, []) [Render k; Render k]).2 =
            if mounted p then if decide (k = props_id p) then 0 else 1 else 0)
  ∧ (∀ k, DemoApp sol k [Render k] = mount sol k
          ∧ fetches_issued (mount sol k).2 = 1).
Proof.
  assert (Hsecond : ∀ p k, render sol k (render sol k p).1 = ((render sol k p).1, [])).
  { intros p k. destruct (mounted p) eqn:Hm.
    - destruct (render_props_id sol k p Hm) as [Hid _].
      rewrite <- Hid at 1. apply render_same.
    - rewrite (render_unmounted sol k p Hm). cbn. by apply render_unmounted. }
  split; [|split].
  - intros p cs k. cbn. destruct (render sol k p) as [p1 c1] eqn:E1.
    pose proof (Hsecond p k) as H2. rewrite E1 in H2. cbn in H2.
    rewrite H2. by rewrite app_nil_r.
  - intros p k. cbn. destruct (render sol k p) as [p1 c1] eqn:E1.
    pose proof (Hsecond p k) as H2. rewrite E1 in H2. cbn in H2.
    rewrite H2. cbn. rewrite app_nil_r.
    pose proof (render_fetches sol k p) as H3. by rewrite E1 in H3.
  - intros k. split.
    + unfold DemoApp. cbn. destruct (mount sol k) as [p0 c0] eqn:E0. cbn.
      assert (props_id p0 = k) as <-.
      { pose proof (effect_props_id sol k
          {| props_id := k; data := Null; loading := true; currentIdRef := k;
             requests := []; mounted := true |}) as H.
        unfold mount in E0. by rewrite E0 in H. }
      rewrite render_same. by rewrite app_nil_r.
    + unfold mount. by rewrite effect_calls.
Qed.

(** *** What holds of every page a trace can reach *)

Lemma inv_mount sol id : inv sol (mount sol id).1.
Proof.
  unfold mount. destruct sol; unfold_effect; (split; [done|]);
    (split; [done|]); split.
  all: try (intros [|n] r Hr; [|done]; injection Hr as <-; cbn;
            split; [|done]; repeat split; done).
  all: intros r Hr; injection Hr as <-; cbn; repeat split; done.
Qed.

(** [inv] without what it says of the state shown. *)
Definition inv0 (sol : Solution) (p : Page) : Prop :=
  requests p ≠ []
  ∧ (sol = ref → currentIdRef p = props_id p)
  ∧ (∀ n r, requests p !! n = Some r →
       fetch_ok sol (fetch r)
       ∧ (sol = cleanup → isActive r = true → mounted p = true ∧ n = latest p)
       ∧ (sol = abort → state (fetch r) = Pending → mounted p = true ∧ n = latest p))
  ∧ (∀ r, requests p !! latest p = Some r → fetch_id (fetch r) = props_id p).

Lemma inv_inv0 sol p : inv sol p → inv0 sol p.
Proof.
  intros (Hne & Href & Hall & Hlast). split; [done|]. split; [done|].
  split; [done|]. intros r Hr. by apply Hlast.
Qed.

Lemma inv0_unmounted sol p : inv0 sol p → mounted p = false → inv sol p.
Proof.
  intros (Hne & Href & Hall & Hlast) Hm. split; [done|]. split; [done|].
  split; [done|]. intros r Hr. split; [by apply Hlast|]. intros ?. congruence.
Qed.

(** An abort rejects with [AbortError], which the [catch] callback ignores:
    the cleanup of [PageWithAbort] makes the [abort] call and nothing else. *)
Lemma PageWithAbort_cleanup_eq p :
  PageWithAbort_cleanup p =
    match requests p !! latest p with
    | Some r =>
        (with_requests (<[latest p := with_fetch (on_abort (fetch r)) r]> (requests p)) p,
         [abort_call (latest p)])
    | None => (p, [])
    end.
Proof.
  unfold PageWithAbort_cleanup. destruct (requests p !! latest p) as [r|]; [|done].
  unfold on_abort. destruct (has_signal (fetch r)).
  - cbn. by destruct (state (fetch r)).
  - by destruct (state (fetch r)).
Qed.

Lemma run_cleanup_requests sol p :
  requests (run_cleanup sol p).1 = alter (cleaned sol) (latest p) (requests p).
Proof.
  destruct sol; cbn.
  - symmetry. apply list_eq. intros j. rewrite list_lookup_alter.
    case_decide; [subst j|done]. by destruct (requests p !! latest p).
  - done.
  - rewrite PageWithAbort_cleanup_eq.
    destruct (requests p !! latest p) as [r|] eqn:Hr; cbn.
    + apply list_eq. intros j. rewrite list_lookup_alter, list_lookup_insert.
      pose proof (lookup_lt_Some _ _ _ Hr).
      destruct (decide (latest p = j)) as [<-|].
      * rewrite decide_True by done. by rewrite Hr.
      * rewrite decide_False; [done|]. by intros [? _].
    + apply list_eq. intros j. rewrite list_lookup_alter.
      case_decide; [subst j|done]. by rewrite Hr.
Qed.

Lemma run_cleanup_currentIdRef sol p :
  currentIdRef (run_cleanup sol p).1 = currentIdRef p.
Proof.
  destruct sol; cbn; try done. rewrite PageWithAbort_cleanup_eq.
  by destruct (requests p !! latest p).
Qed.

Lemma run_cleanup_calls sol p :
  (run_cleanup sol p).2 =
    match sol with
    | abort => if decide (requests p = []) then [] else [abort_call (latest p)]
    | _ => []
    end.
Proof.
  destruct sol; cbn; try done. rewrite PageWithAbort_cleanup_eq.
  destruct (requests p !! latest p) as [r|] eqn:Hr.
  - rewrite decide_False; [done|]. intros E. by rewrite E in Hr.
  - rewrite decide_True; [done|]. apply lookup_ge_None in Hr.
    unfold latest in Hr. destruct (requests p); [done|]. cbn in Hr. lia.
Qed.

Lemma cleaned_ok sol r :
  fetch_ok sol (fetch r) →
  fetch_ok sol (fetch (cleaned sol r))
  ∧ fetch_id (fetch (cleaned sol r)) = fetch_id (fetch r)
  ∧ (sol = cleanup → isActive (cleaned sol r) = false)
  ∧ (sol = abort → state (fetch (cleaned sol r)) ≠ Pending).
Proof.
  intros (Hsig & Ht & Hv & Hrej). destruct sol; cbn; try done.
  unfold on_abort. rewrite Hsig. unfold fetch_ok, settle; cbn.
  destruct (state (fetch r)) eqn:Hs; repeat split; try done.
  all: try congruence.
  all: try (by intros ? [= ->]; apply Hv).
  all: by eapply Hrej.
Qed.

Lemma effect_currentIdRef id p :
  currentIdRef (effect ref id p).1 = id.
Proof. unfold_effect. by destruct (mounted p). Qed.

(** The requests left by a cleanup satisfy the per-request part of [inv],
    and none of them is live any more. *)
Lemma cleaned_requests sol p m r0 :
  inv0 sol p →
  alter (cleaned sol) (latest p) (requests p) !! m = Some r0 →
  fetch_ok sol (fetch r0)
  ∧ (sol = cleanup → isActive r0 = false)
  ∧ (sol = abort → state (fetch r0) ≠ Pending)
  ∧ (m = latest p → fetch_id (fetch r0) = props_id p).
Proof.
  intros (Hne & Href & Hall & Hlast). rewrite list_lookup_alter.
  case_decide as Hm.
  - subst m. destruct (requests p !! latest p) as [r|] eqn:Hr; [|done].
    intros [= <-]. destruct (Hall _ _ Hr) as (Hok & _).
    destruct (cleaned_ok sol r Hok) as (? & Hfid & ? & ?).
    pose proof (Hlast r eq_refl) as ?.
    split; [done|]. split; [done|]. split; [done|]. intros _. congruence.
  - intros Hr0. destruct (Hall _ _ Hr0) as (Hok & Hc & Ha).
    split; [done|]. split; [|split; [|done]].
    + intros Hs. destruct (isActive r0) eqn:E; [|done].
      destruct (Hc Hs eq_refl). done.
    + intros Hs Hp. destruct (Ha Hs Hp). done.
Qed.

Lemma inv_render sol id p : inv sol p → inv sol (render sol id p).1.
Proof.
  intros Hinv. unfold render. destruct (mounted p) eqn:Hm; [|done].
  case_decide as Hid; [done|].
  destruct (run_cleanup sol (with_props_id id p)) as [p1 c1] eqn:E1.
  destruct (effect sol id p1) as [p2 c2] eqn:E2. cbn.
  pose proof (run_cleanup_requests sol (with_props_id id p)) as Hreq1.
  pose proof (run_cleanup_frame sol (with_props_id id p)) as (Hid1 & Hm1 & _).
  rewrite E1 in Hreq1, Hid1, Hm1. cbn in Hreq1, Hid1, Hm1.
  change (latest (with_props_id id p)) with (latest p) in Hreq1.
  destruct (effect_requests sol id p1) as (f & Hreq2 & Hfid & Hst & Hto & Hsig).
  pose proof (effect_props_id sol id p1) as Hid2.
  pose proof (effect_mounted sol id p1) as Hm2.
  rewrite E2 in Hreq2, Hid2, Hm2. cbn in Hreq2, Hid2, Hm2.
  assert (Hlat : latest p2 = length (requests p1)).
  { unfold latest. rewrite Hreq2, length_app. cbn. lia. }
  unfold inv. rewrite Hlat, Hreq2, Hid2, Hid1, Hm2, Hm1, Hm.
  split; [by destruct (requests p1)|]. split; [|split].
  - intros ->. pose proof (effect_currentIdRef id p1) as H. by rewrite E2 in H.
  - intros m r0 [(Hlt & Hr0)|(-> & <-)]%lookup_snoc_Some.
    + rewrite Hreq1 in Hr0.
      destruct (cleaned_requests sol p m r0 (inv_inv0 _ _ Hinv) Hr0) as (Hok & Hc & Ha & _).
      split; [done|]. split.
      * intros Hs Hact. rewrite (Hc Hs) in Hact. done.
      * intros Hs Hp. destruct (Ha Hs Hp).
    + cbn. split; [|done].
      unfold fetch_ok. rewrite Hsig, Hst, Hto. repeat split; done.
  - intros r0 [(Hlt & Hr0)|(_ & <-)]%lookup_snoc_Some; [lia|].
    cbn. rewrite Hst. done.
Qed.

Lemma inv0_unmount sol p : inv0 sol p → inv sol (unmount sol p).1.
Proof.
  intros Hinv. unfold unmount. destruct (mounted p) eqn:Hm;
    [|by apply inv0_unmounted].
  destruct (run_cleanup sol p) as [p1 c1] eqn:E1. cbn.
  pose proof (run_cleanup_requests sol p) as Hreq1.
  pose proof (run_cleanup_frame sol p) as (Hid1 & Hm1 & _ & _ & Hlen).
  pose proof (run_cleanup_currentIdRef sol p) as Hcur.
  rewrite E1 in Hreq1, Hid1, Hm1, Hlen, Hcur. cbn in Hreq1, Hid1, Hm1, Hlen, Hcur.
  pose proof Hinv as (Hne & Href & Hall & Hlast).
  unfold inv, latest. cbn. rewrite Hlen, Hid1, Hcur. fold (latest p).
  split; [|split; [done|split]].
  - intros E. rewrite E in Hlen. by destruct (requests p).
  - intros m r0 Hr0. rewrite Hreq1 in Hr0.
    destruct (cleaned_requests sol p m r0) as (Hok & Hc & Ha & _); [done..|].
    split; [done|]. split.
    + intros Hs Hact. rewrite (Hc Hs) in Hact. done.
    + intros Hs Hp. destruct (Ha Hs Hp).
  - intros r0 Hr0. rewrite Hreq1 in Hr0.
    destruct (cleaned_requests sol p (latest p) r0) as (_ & _ & _ & Hfid); [done..|].
    split; [by apply Hfid|done].
Qed.

Lemma inv_unmount sol p : inv sol p → inv sol (unmount sol p).1.
Proof. intros Hinv. by apply inv0_unmount, inv_inv0. Qed.

Ltac unfold_then :=
  unfold on_fulfilled, PageWithRefComparison_then, PageWithCleanup_then,
    PageWithAbort_then, setLoading, setData, with_requests;
  cbn.

(** The function given to [setData] throws on the state of a mounted
    page. *)
Definition throws (v : value) (p : Page) : bool :=
  mounted p && bool_decide (basicStateReducer (data p) v = None).

Lemma commit_fields v p :
  let p' := (commit v p).1 in
  requests p' = requests p ∧ props_id p' = props_id p
  ∧ mounted p' = mounted p ∧ currentIdRef p' = currentIdRef p
  ∧ (mounted p = true → ∀ d, basicStateReducer (data p) v = Some d →
       data p' = d ∧ loading p' = false)
  ∧ (mounted p = false → p' = p).
Proof.
  unfold commit, setLoading, setData; cbn.
  destruct (mounted p) eqn:E; cbn; rewrite ?E; [|done].
  destruct (basicStateReducer (data p) v) as [d|]; cbn; rewrite ?E; cbn;
    repeat split; try done; congruence.
Qed.

Lemma on_fulfilled_guard sol n v p r :
  requests p !! n = Some r →
  on_fulfilled sol n v p = if decide (guard sol p r v) then commit v p else (p, []).
Proof.
  intros Hr. destruct sol; cbn.
  - unfold PageWithRefComparison_then.
    destruct v as [| |i| | | | | |];
      try (rewrite decide_False; [done|]; by intros (? & ? & ?)).
    case_decide as H1.
    + rewrite decide_True; [done|]. eauto.
    + rewrite decide_False; [done|]. intros (j & [= <-] & ?). done.
  - unfold PageWithCleanup_then. rewrite Hr. cbn.
    destruct (isActive r); by case_decide.
  - by rewrite decide_True.
Qed.

(** What the firing of the timer of request [n] does, in one equation. *)
Lemma timer_fires_guard sol n p r :
  requests p !! n = Some r →
  timer_fires sol n p =
    let p1 := with_requests (<[n := with_fetch (on_timeout (fetch r)) r]> (requests p)) p in
    let v := issuesData_at (fetch_id (fetch r)) in
    if decide (timeout (fetch r) = true ∧ state (fetch r) = Pending ∧ guard sol p r v)
    then if throws v p
         then ((unmount sol p1).1,
               [setData_call v; setLoading_call false] ++ (unmount sol p1).2)
         else commit v p1
    else (p1, []).
Proof.
  intros Hr. unfold timer_fires. rewrite Hr. cbn zeta.
  set (p1 := with_requests _ p). set (v := issuesData_at _).
  assert (Hp1 : requests p1 !! n = Some (with_fetch (on_timeout (fetch r)) r)).
  { subst p1. cbn. rewrite list_lookup_insert_eq; [done|]. by eapply lookup_lt_Some. }
  unfold on_timeout. destruct (timeout (fetch r)) eqn:Ht.
  - cbn. destruct (state (fetch r)) eqn:Hs.
    + fold v. rewrite (on_fulfilled_guard _ _ _ _ _ Hp1).
      assert (guard sol p1 (with_fetch (on_timeout (fetch r)) r) v
              ↔ guard sol p r v) as Hg.
      { by destruct sol. }
      destruct (decide (guard sol p r v)) as [H|H].
      * rewrite decide_True; [|by apply Hg]. rewrite decide_True by done.
        unfold commit at 1.
        assert (render_throws [setData_call v; setLoading_call false] p1
                = throws v p) as ->.
        { unfold render_throws, throws. cbn. by rewrite !orb_false_r. }
        destruct (throws v p); [|done]. by destruct (unmount sol p1).
      * rewrite decide_False; [|by rewrite Hg].
        rewrite decide_False by tauto.
        unfold render_throws. cbn. by rewrite andb_false_r.
    + rewrite decide_False; [done|]. by intros (_ & ? & _).
    + rewrite decide_False; [done|]. by intros (_ & ? & _).
  - rewrite decide_False; [|by intros (? & _)].
    by destruct (state (fetch r)).
Qed.

Lemma on_timeout_ok sol f :
  fetch_ok sol f →
  fetch_ok sol (on_timeout f) ∧ state (on_timeout f) ≠ Pending
  ∧ fetch_id (on_timeout f) = fetch_id f
  ∧ (∀ name, state (on_timeout f) = Rejected name → state f = Rejected name)
  ∧ (state f ≠ Pending → on_timeout f = f).
Proof.
  intros (Hsig & Ht & Hv & Hrej). unfold on_timeout.
  destruct (timeout f) eqn:E.
  - assert (state f = Pending) as Hp by by apply Ht.
    unfold fetch_ok, settle; cbn. rewrite Hp. repeat split; try done.
    by intros v [= <-].
  - assert (state f ≠ Pending) as Hp.
    { intros Hq. apply Ht in Hq. done. }
    split; [|done]. unfold fetch_ok. by rewrite E.
Qed.

(** The page after the timer of request [n] has fired, before what the
    [then] callback does. *)
Definition settled (n : nat) (r : Request) (p : Page) : Page :=
  with_requests (<[n := with_fetch (on_timeout (fetch r)) r]> (requests p)) p.

Lemma settled_fields n r p :
  props_id (settled n r p) = props_id p ∧ mounted (settled n r p) = mounted p
  ∧ currentIdRef (settled n r p) = currentIdRef p
  ∧ latest (settled n r p) = latest p
  ∧ data (settled n r p) = data p ∧ loading (settled n r p) = loading p.
Proof. unfold latest, settled. cbn. by rewrite length_insert. Qed.

Lemma inv0_settled sol n r p :
  inv0 sol p → requests p !! n = Some r → inv0 sol (settled n r p).
Proof.
  intros (Hne & Href & Hall & Hlast) Hr.
  destruct (Hall n r Hr) as (Hok & Hc & Ha).
  destruct (on_timeout_ok sol _ Hok) as (Hok' & Hnp & Hfid & Hrej' & Hsame).
  unfold inv0, settled, latest. cbn. rewrite length_insert. fold (latest p).
  split; [|split; [done|split]].
  - intros E. apply (f_equal length) in E. rewrite length_insert in E.
    destruct (requests p); [done|discriminate].
  - intros m r0 [(<- & <- & Hlt)|(Hnm & Hm0)]%list_lookup_insert_Some; [|by apply Hall].
    cbn. split; [done|]. split; [done|]. intros _ ?. done.
  - intros r0 [(Hnl & <- & Hlt)|(Hnm & Hr0)]%list_lookup_insert_Some.
    + subst n. cbn. rewrite Hfid. by apply Hlast.
    + by apply Hlast.
Qed.

(** A page that differs from [p] in that the fetch of request [n] has
    settled, and in what it shows when that request is the latest one and
    was pending. *)
Lemma inv_settled sol n r p p' :
  inv sol p → requests p !! n = Some r →
  requests p' = requests (settled n r p) →
  props_id p' = props_id p → mounted p' = mounted p →
  currentIdRef p' = currentIdRef p →
  (sol ≠ ref → mounted p = true →
     if decide (n = latest p ∧ state (fetch r) = Pending)
     then loading p' = false
          ∧ (is_function (issuesData_at (props_id p)) = false →
               data p' = issuesData_at (props_id p))
     else data p' = data p ∧ loading p' = loading p) →
  inv sol p'.
Proof.
  intros Hinv Hr Hreq Hid Hm Hcur Hshown.
  destruct (inv0_settled sol n r p (inv_inv0 _ _ Hinv) Hr) as (Hne' & Href' & Hall' & Hlast').
  destruct (settled_fields n r p) as (F1 & F2 & F3 & F4 & _).
  setoid_rewrite F2 in Hall'. setoid_rewrite F4 in Hall'.
  setoid_rewrite F1 in Hlast'. setoid_rewrite F4 in Hlast'.
  destruct Hinv as (Hne & Href & Hall & Hlast).
  destruct (Hall n r Hr) as (Hok & Hc & Ha).
  destruct (on_timeout_ok sol _ Hok) as (Hok' & Hnp & Hfid & Hrej' & Hsame).
  assert (latest p' = latest p) as Hlat.
  { unfold latest. rewrite Hreq. unfold settled. cbn. by rewrite length_insert. }
  unfold inv. rewrite Hlat, Hreq, Hid, Hm, Hcur.
  split; [done|]. split; [done|]. split; [done|].
  intros r0 Hr0. split; [by apply Hlast'|].
  intros Hmount. specialize (Hshown).
  unfold settled in Hr0. cbn in Hr0.
  apply list_lookup_insert_Some in Hr0 as [(Hnl & <- & Hlt)|(Hnm & Hr0)].
  - subst n. destruct (Hlast r Hr) as (Hfid0 & Hmt).
    destruct (Hmt Hmount) as (Hact & Hnr & Hdata). cbn.
    split; [done|]. split; [by intros name ?%Hrej'%Hnr|].
    intros Hsol _. specialize (Hshown Hsol Hmount).
    destruct (decide (state (fetch r) = Pending)) as [Hp|Hp].
    + by rewrite decide_True in Hshown.
    + rewrite decide_False in Hshown by tauto. destruct Hshown as [-> ->].
      by apply Hdata.
  - destruct (Hlast r0 Hr0) as (Hfid0 & Hmt).
    destruct (Hmt Hmount) as (Hact & Hnr & Hdata).
    split; [done|]. split; [done|]. intros Hsol Hnp0.
    specialize (Hshown Hsol Hmount).
    rewrite decide_False in Hshown by tauto. destruct Hshown as [-> ->].
    by apply Hdata.
Qed.

(** In [PageWithCleanup] and [PageWithAbort], a pending request that would
    pass its page's test is the latest one, of a mounted page, and its id is
    the page's current id. *)
Lemma guard_latest sol p n r v :
  inv sol p → sol ≠ ref →
  requests p !! n = Some r → state (fetch r) = Pending → guard sol p r v →
  mounted p = true ∧ n = latest p ∧ fetch_id (fetch r) = props_id p.
Proof.
  intros (Hne & Href & Hall & Hlast) Hsol Hr Hp Hg.
  destruct (Hall n r Hr) as (_ & Hc & Ha).
  assert (mounted p = true ∧ n = latest p) as [Hm ->].
  { destruct sol; [done|by apply Hc|by apply Ha]. }
  destruct (Hlast r Hr) as (? & _). done.
Qed.

(** The latest request of a mounted page passes the test of
    [PageWithCleanup] and of [PageWithAbort]. *)
Lemma latest_guard sol p r v :
  inv sol p → sol ≠ ref → mounted p = true →
  requests p !! latest p = Some r → guard sol p r v.
Proof.
  intros (Hne & Href & Hall & Hlast) Hsol Hm Hr.
  destruct (Hlast r Hr) as (_ & Hmt). destruct (Hmt Hm) as (Hact & _).
  by destruct sol.
Qed.

Lemma is_function_reduce prev v :
  is_function v = false → basicStateReducer prev v = Some v.
Proof. destruct v; cbn; try done. by intros ->. Qed.

Lemma inv_timer_fires sol n p : inv sol p → inv sol (timer_fires sol n p).1.
Proof.
  intros Hinv.
  destruct (requests p !! n) as [r|] eqn:Hr;
    [|by unfold timer_fires; rewrite Hr].
  rewrite (timer_fires_guard _ _ _ _ Hr). cbn zeta.
  fold (settled n r p). set (v := issuesData_at (fetch_id (fetch r))).
  pose proof Hinv as (Hne & Href & Hall & Hlast).
  destruct (Hall n r Hr) as (Hok & Hc & Ha).
  case_decide as Hd.
  - destruct Hd as (Ht & Hp & Hg). destruct (throws v p) eqn:Hth.
    + cbn. apply inv0_unmount, inv0_settled; [by apply inv_inv0|done].
    + destruct (commit_fields v (settled n r p)) as (H1 & H2 & H3 & H4 & H5 & H6).
      apply (inv_settled sol n r p); try done.
      intros Hsol Hm.
      destruct (guard_latest sol p n r v Hinv Hsol Hr Hp Hg) as (_ & Hn & Hfid).
      rewrite decide_True by done.
      unfold throws in Hth. rewrite Hm in Hth. cbn in Hth.
      apply bool_decide_eq_false in Hth.
      destruct (basicStateReducer (data p) v) as [d|] eqn:Hred; [|done].
      destruct (H5 Hm d Hred) as [Hd1 Hd2]. split; [done|].
      rewrite <- Hfid. fold v. intros Hf.
      rewrite (is_function_reduce (data p) v Hf) in Hred. congruence.
  - apply (inv_settled sol n r p); try done.
    intros Hsol Hm. rewrite decide_False; [done|].
    intros [-> Hp]. apply Hd. split; [by apply Hok|]. split; [done|].
    by apply latest_guard.
Qed.

Lemma inv_step sol p e : inv sol p → inv sol (step sol p e).1.
Proof.
  destruct e; cbn; [apply inv_render|apply inv_timer_fires|apply inv_unmount].
Qed.

Lemma inv_run sol pc es : inv sol pc.1 → inv sol (run sol pc es).1.
Proof.
  revert pc. induction es as [|e es IH]; intros pc Hinv; [done|].
  cbn. pose proof (inv_step sol pc.1 e Hinv) as H.
  destruct (step sol pc.1 e) as [p' c']. by apply IH.
Qed.

(** Every page a trace can reach satisfies [inv]. *)
Lemma inv_DemoApp sol id es : inv sol (DemoApp sol id es).1.
Proof. apply inv_run, inv_mount. Qed.

(** *** Which results are committed *)

Lemma mount_fields sol id :
  props_id (mount sol id).1 = id ∧ mounted (mount sol id).1 = true.
Proof. unfold mount. by rewrite effect_props_id, effect_mounted. Qed.

Lemma render_calls sol id p : commits (render sol id p).2 = [].
Proof.
  unfold render. destruct (mounted p); [|done]. case_decide; [done|].
  destruct (run_cleanup sol (with_props_id id p)) as [p1 c1] eqn:E1.
  destruct (effect sol id p1) as [p2 c2] eqn:E2. cbn.
  pose proof (run_cleanup_calls sol (with_props_id id p)) as H1.
  pose proof (effect_calls sol id p1) as H2. rewrite E1 in H1. rewrite E2 in H2.
  cbn in H1, H2. subst c1 c2. unfold commits. rewrite filter_app.
  destruct sol; try done. by case_decide.
Qed.

Lemma render_data sol id p : data (render sol id p).1 = data p.
Proof.
  unfold render. destruct (mounted p); [|done]. case_decide; [done|].
  destruct (run_cleanup sol (with_props_id id p)) as [p1 c1] eqn:E1.
  destruct (effect sol id p1) as [p2 c2] eqn:E2. cbn.
  pose proof (run_cleanup_frame sol (with_props_id id p)) as (_ & _ & Hd & _).
  rewrite E1 in Hd. cbn in Hd. rewrite <- Hd.
  replace p2 with (effect sol id p1).1 by by rewrite E2.
  destruct sol; unfold_effect; by destruct (mounted p1).
Qed.

Lemma unmount_calls sol p :
  commits (unmount sol p).2 = [] ∧ errors (unmount sol p).2 = [].
Proof.
  unfold unmount. destruct (mounted p); [|done].
  destruct (run_cleanup sol p) as [p1 c1] eqn:E1. cbn.
  pose proof (run_cleanup_calls sol p) as H1. rewrite E1 in H1. cbn in H1.
  subst c1. destruct sol; try done. by case_decide.
Qed.

Lemma unmount_data sol p :
  data (unmount sol p).1 = data p ∧ loading (unmount sol p).1 = loading p
  ∧ mounted (unmount sol p).1 = false ∧ props_id (unmount sol p).1 = props_id p.
Proof.
  unfold unmount. destruct (mounted p) eqn:E; [|done].
  destruct (run_cleanup sol p) as [p1 c1] eqn:E1. cbn.
  pose proof (run_cleanup_frame sol p) as (Hi & _ & Hd & Hl & _).
  rewrite E1 in Hi, Hd, Hl. done.
Qed.

(** What the firing of a timer can be.  Nothing: no call, and the page
    shows what it showed.  A commit: the fetch was pending and passed the
    page's test, [setData] and [setLoading(false)] are called, and a mounted
    page shows the state React computes from the result.  Or a failed
    commit: the two calls are made on a mounted page, the function given to
    [setData] throws on the state, and the page is taken down. *)
Inductive outcome (sol : Solution) (n : nat) (p : Page) : Prop :=
  | fires_nothing :
      (timer_fires sol n p).2 = [] →
      data (timer_fires sol n p).1 = data p →
      loading (timer_fires sol n p).1 = loading p →
      mounted (timer_fires sol n p).1 = mounted p →
      outcome sol n p
  | fires_commit r :
      requests p !! n = Some r → state (fetch r) = Pending →
      guard sol p r (issuesData_at (fetch_id (fetch r))) →
      (timer_fires sol n p).2 =
        [setData_call (issuesData_at (fetch_id (fetch r))); setLoading_call false] →
      mounted (timer_fires sol n p).1 = mounted p →
      (mounted p = true →
         basicStateReducer (data p) (issuesData_at (fetch_id (fetch r)))
         = Some (data (timer_fires sol n p).1)
         ∧ loading (timer_fires sol n p).1 = false) →
      (mounted p = false →
         data (timer_fires sol n p).1 = data p
         ∧ loading (timer_fires sol n p).1 = loading p) →
      outcome sol n p
  | fires_throws r :
      requests p !! n = Some r → state (fetch r) = Pending →
      guard sol p r (issuesData_at (fetch_id (fetch r))) →
      mounted p = true →
      basicStateReducer (data p) (issuesData_at (fetch_id (fetch r))) = None →
      (timer_fires sol n p).2 =
        [setData_call (issuesData_at (fetch_id (fetch r))); setLoading_call false]
        ++ (unmount sol (settled n r p)).2 →
      mounted (timer_fires sol n p).1 = false →
      data (timer_fires sol n p).1 = data p →
      loading (timer_fires sol n p).1 = loading p →
      outcome sol n p.

Lemma timer_fires_cases sol n p : outcome sol n p.
Proof.
  destruct (requests p !! n) as [r|] eqn:Hr;
    [|apply fires_nothing; by unfold timer_fires; rewrite Hr].
  pose proof (timer_fires_guard sol n p r Hr) as E. cbn zeta in E.
  fold (settled n r p) in E. set (v := issuesData_at (fetch_id (fetch r))) in *.
  case_decide as Hd; [|apply fires_nothing; by rewrite E].
  destruct Hd as (Ht & Hp & Hg). destruct (throws v p) eqn:Hth.
  - unfold throws in Hth. apply andb_true_iff in Hth as [Hm Hth].
    apply bool_decide_eq_true in Hth.
    destruct (unmount_data sol (settled n r p)) as (Hd & Hl & Hm' & _).
    apply (fires_throws sol n p r); try done; by rewrite E.
  - destruct (commit_fields v (settled n r p)) as (_ & _ & H3 & _ & H5 & H6).
    apply (fires_commit sol n p r); try done; rewrite E; try done.
    + intros Hm. unfold throws in Hth. rewrite Hm in Hth. cbn in Hth.
      apply bool_decide_eq_false in Hth.
      destruct (basicStateReducer (data p) v) as [d|] eqn:Hred; [|done].
      destruct (H5 Hm d Hred) as [-> ->]. done.
    + intros Hm. by rewrite (H6 Hm).
Qed.

Lemma timer_fires_props_id sol n p : props_id (timer_fires sol n p).1 = props_id p.
Proof.
  destruct (requests p !! n) as [r|] eqn:Hr;
    [|by unfold timer_fires; rewrite Hr].
  rewrite (timer_fires_guard _ _ _ _ Hr). cbn zeta. fold (settled n r p).
  case_decide; [|done]. destruct (throws _ p).
  - cbn. by destruct (unmount_data sol (settled n r p)) as (_ & _ & _ & ->).
  - by destruct (commit_fields (issuesData_at (fetch_id (fetch r))) (settled n r p))
      as (_ & -> & _).
Qed.

Lemma timer_fires_frame sol n p :
  let p' := (timer_fires sol n p).1 in
  props_id p' = props_id p ∧ currentIdRef p' = currentIdRef p
  ∧ (mounted p' = mounted p →
     requests p' =
       match requests p !! n with
       | Some r => <[n := with_fetch (on_timeout (fetch r)) r]> (requests p)
       | None => requests p
       end).
Proof.
  cbn zeta. split; [apply timer_fires_props_id|].
  destruct (requests p !! n) as [r|] eqn:Hr;
    [|by unfold timer_fires; rewrite Hr].
  rewrite (timer_fires_guard _ _ _ _ Hr). cbn zeta. fold (settled n r p).
  case_decide; [|done]. destruct (throws _ p) eqn:Hth.
  - cbn. unfold throws in Hth. apply andb_true_iff in Hth as [Hm _].
    destruct (unmount_data sol (settled n r p)) as (_ & _ & Hu & _).
    split; [|intros; congruence].
    unfold unmount. cbn. rewrite Hm.
    pose proof (run_cleanup_currentIdRef sol (settled n r p)) as Hc.
    by destruct (run_cleanup sol (settled n r p)).
  - by destruct (commit_fields (issuesData_at (fetch_id (fetch r))) (settled n r p))
      as (-> & _ & _ & -> & _).
Qed.

(** [PageWithRefComparison] passes table entries only to [setData]: no
    timer takes the page down. *)
Lemma timer_fires_ref_mounted n p : mounted (timer_fires ref n p).1 = mounted p.
Proof.
  destruct (requests p !! n) as [r|] eqn:Hr;
    [|by unfold timer_fires; rewrite Hr].
  rewrite (timer_fires_guard _ _ _ _ Hr). cbn zeta. fold (settled n r p).
  case_decide as Hd; [|done]. destruct Hd as (_ & _ & (i & Hi & _)).
  unfold throws. rewrite Hi. cbn. rewrite andb_false_r.
  by destruct (commit_fields (Obj i) (settled n r p)) as (_ & _ & -> & _).
Qed.

(** A page that has been taken down stays down. *)
Lemma step_mounted sol p e : mounted (step sol p e).1 = true → mounted p = true.
Proof.
  destruct e as [k|n|]; cbn.
  - destruct (mounted p) eqn:Hm; [done|]. rewrite (render_unmounted sol k p Hm). cbn.
    congruence.
  - destruct (timer_fires_cases sol n p) as [_ _ _ Hm|r _ _ _ _ Hm _ _|r _ _ _ Hm _ _ _ _ _];
      congruence.
  - by destruct (unmount_data sol p) as (_ & _ & -> & _).
Qed.

Lemma run_mounted sol es pc : mounted (run sol pc es).1 = true → mounted pc.1 = true.
Proof.
  revert pc. induction es as [|e es IH]; intros pc; [done|].
  cbn. pose proof (step_mounted sol pc.1 e) as H.
  destruct (step sol pc.1 e) as [p' c']. intros Hm. apply H. by apply (IH _ Hm).
Qed.

Lemma run_timeouts_props_id sol ns pc :
  props_id (run sol pc (Timeout <$> ns)).1 = props_id pc.1.
Proof.
  revert pc. induction ns as [|n ns IH]; intros pc; [done|].
  cbn. pose proof (timer_fires_props_id sol n pc.1) as Hid.
  destruct (timer_fires sol n pc.1) as [p' c']. cbn in *.
  by rewrite (IH (p', pc.2 ++ c')).
Qed.

(** The commit a step makes, if it makes one: the calls [setData(v)] and
    [setLoading(false)] are the first two calls of the step and its only
    calls of a state setter. *)
Lemma commit_then_cleanup sol v p :
  commits ([setData_call v; setLoading_call false] ++ (unmount sol p).2)
  = [setData_call v; setLoading_call false].
Proof.
  unfold commits. rewrite filter_app.
  destruct (unmount_calls sol p) as [Hc _]. unfold commits in Hc. by rewrite Hc.
Qed.



(** With both fetches in flight when the key is set to "constructor", the
    result of key 1 is dropped, and [Object], called on [null], gives a new
    empty object: the page shows neither result.  With the key "valueOf" the
    function throws when React calls it, and the page is taken down.
    [PageWithRefComparison] commits nothing for such keys ([result.id] is
    undefined, and the [then] callback throws): it keeps loading. *)
Lemma inherited_key_other_runs :
  data (DemoApp cleanup "1" [Render "constructor"; Timeout 0; Timeout 1]).1 = Empty_object
  ∧ mounted (DemoApp cleanup "1" [Render "valueOf"; Timeout 1]).1 = false
  ∧ (step cleanup (DemoApp cleanup "1" [Render "valueOf"]).1 (Timeout 1)).2
    = [setData_call (Inherited "valueOf"); setLoading_call false]
  ∧ (step abort (DemoApp abort "1" [Render "valueOf"]).1 (Timeout 1)).2
    = [setData_call (Inherited "valueOf"); setLoading_call false; abort_call 1]
  ∧ loading (DemoApp ref "1" [Timeout 0; Render "constructor"; Timeout 1]).1 = true
  ∧ commits (step ref (DemoApp ref "1" [Timeout 0; Render "constructor"]).1
               (Timeout 1)).2 = [].
Proof. vm_compute. repeat split; reflexivity. Qed.

(** No stale commit, for the page with the [isActive] flag and the one with
    the AbortController, when the result for the current key is not a
    function.  (1) Mount the page with key [A], then render it with key [B],
    with the timers of the fetches firing in any order and any number of
    times before and after that render: if the page is still mounted and
    [issuesData[B]] is not a function, then once the fetch of the latest
    effect run has settled, [data] is [issuesData[B]] and [loading] is false,
    whether or not, and whenever, the fetch for [A] resolved.  (2) On every
    trace, each step either commits nothing and leaves [data] alone, or it is
    the firing of the timer of the latest request, whose id is the page's
    current id, and it passes the result for that id to [setData]; that
    result, when it is not a function, is what the page then shows: no
    result of a superseded request is ever passed to [setData]. *)
Theorem no_stale_commit_unless_function (sol : Solution) (Hsol : sol ≠ ref) :
  (∀ (A B : string) (pre post : list nat),
     let p := (DemoApp sol A ((Timeout <$> pre) ++ Render B :: (Timeout <$> post))).1 in
     mounted p = true → is_function (issuesData_at B) = false →
     resolved p (latest p) →
     data p = issuesData_at B ∧ loading p = false)
  ∧ (∀ (id : string) (es : list event) (e : event),
       let p := (DemoApp sol id es).1 in
       (commits (step sol p e).2 = [] ∧ data (step sol p e).1 = data p)
       ∨ (∃ n r, e = Timeout n ∧ n = latest p ∧ requests p !! n = Some r
                 ∧ fetch_id (fetch r) = props_id p
                 ∧ commits (step sol p e).2 =
                     [setData_call (issuesData_at (props_id p)); setLoading_call false]
                 ∧ (is_function (issuesData_at (props_id p)) = false →
                      (step sol p e).2 =
                        [setData_call (issuesData_at (props_id p)); setLoading_call false]
                      ∧ data (step sol p e).1 = issuesData_at (props_id p)
                      ∧ loading (step sol p e).1 = false))).
Proof.
  split.
  - intros A B pre post p Hm HB (r & Hr & Hnp).
    pose proof (inv_DemoApp sol A ((Timeout <$> pre) ++ Render B :: (Timeout <$> post)))
      as Hinv.
    fold p in Hinv.
    assert (props_id p = B) as Hid.
    { subst p. unfold DemoApp in *. rewrite run_app in *. cbn in *.
      set (pc := run sol (mount sol A) (Timeout <$> pre)) in *.
      destruct (render sol B pc.1) as [p' c'] eqn:E.
      rewrite run_timeouts_props_id. cbn.
      apply run_mounted in Hm. cbn in Hm.
      assert (mounted pc.1 = true) as Hm0.
      { pose proof (step_mounted sol pc.1 (Render B)) as H. cbn in H.
        rewrite E in H. by apply H. }
      destruct (render_props_id sol B pc.1 Hm0) as [Hid1 _]. by rewrite E in Hid1. }
    destruct Hinv as (_ & _ & _ & Hlast).
    destruct (Hlast r Hr) as (_ & Hmt). destruct (Hmt Hm) as (_ & _ & Hdata).
    destruct (Hdata Hsol Hnp) as [Hl Hd]. split; [|done].
    rewrite <- Hid. apply Hd. by rewrite Hid.
  - intros id es e p. pose proof (inv_DemoApp sol id es) as Hinv. fold p in Hinv.
    destruct e as [k|n|]; cbn.
    + left. by rewrite render_calls, render_data.
    + destruct (timer_fires_cases sol n p)
        as [Hc Hd _ _|r Hr Hp Hg Hc Hm' Hd _|r Hr Hp Hg Hm Hred Hc _ _ _].
      * left. by rewrite Hc.
      * right. destruct (guard_latest sol p n r _ Hinv Hsol Hr Hp Hg) as (Hm & Hn & Hfid).
        exists n, r. rewrite <- Hfid, Hc. do 5 (split; [done|]).
        intros Hf. destruct (Hd Hm) as [Hd1 Hd2].
        rewrite (is_function_reduce _ _ Hf) in Hd1.
        split; [done|]. split; [congruence|done].
      * right. destruct (guard_latest sol p n r _ Hinv Hsol Hr Hp Hg) as (_ & Hn & Hfid).
        exists n, r. rewrite <- Hfid, Hc, commit_then_cleanup.
        do 5 (split; [done|]).
        intros Hf. by rewrite (is_function_reduce _ _ Hf) in Hred.
    + left. destruct (unmount_calls sol p) as [-> _].
      by destruct (unmount_data sol p) as (-> & _).
Qed.

(** A's fetch resolves after B's, and the committed entry is B's. *)
Lemma no_stale_commit_unless_function_witness :
  let p := (DemoApp cleanup "1" [Render "2"; Timeout 1; Timeout 0]).1 in
  data p = issuesData_at "2" ∧ loading p = false.
Proof.
  apply (proj1 (no_stale_commit_unless_function cleanup ltac:(discriminate))
           "1" "2" [] [1; 0]).
  - reflexivity.
  - reflexivity.
  - vm_compute. eexists. split; [reflexivity|discriminate].
Defined.

(** *** The test of each page, read on the state *)

(** The part after the dash of a table entry's [id] is its key. *)
Lemma issuesData_key k i :
  issuesData !! k = Some i → split "-"%char (issue_id i) !! 1%nat = Some k.
Proof.
  unfold issuesData. intros H.
  destruct (decide (k = "1")) as [->|]; [by injection H as <-|].
  rewrite lookup_insert_ne in H by done.
  destruct (decide (k = "2")) as [->|]; [by injection H as <-|].
  rewrite lookup_insert_ne in H by done.
  destruct (decide (k = "3")) as [->|]; [by injection H as <-|].
  rewrite lookup_insert_ne in H by done. by rewrite lookup_empty in H.
Qed.

Lemma guard_ref p r k :
  guard ref p r (issuesData_at k) ↔ is_Some (issuesData !! k) ∧ k = currentIdRef p.
Proof.
  unfold issuesData_at. cbn. destruct (issuesData !! k) as [i|] eqn:Hk.
  - pose proof (issuesData_key k i Hk) as Hs. split.
    + intros (j & [= <-] & Hj). split; [eauto|]. congruence.
    + intros (_ & <-). eauto.
  - split; [|intros ([? ?] & _); done].
    case_decide; by intros (j & ? & _).
Qed.

(** C2, as stated, fails for [PageWithRefComparison]: after the keys 1, 2
    and 1 again there are three requests, the latest is request 2, and the
    first one, still pending, resolves and is committed. *)
Lemma ref_commits_older_request :
  let p := (DemoApp ref "1" [Render "2"; Render "1"]).1 in
  latest p = 2
  ∧ (state ∘ fetch) <$> requests p !! 0%nat = Some Pending
  ∧ (step ref p (Timeout 0)).2 = [setData_call (issuesData_at "1"); setLoading_call false]
  ∧ ¬ commits_iff_latest ref p 0.
Proof.
  cbn zeta. split; [reflexivity|]. split; [reflexivity|]. split; [reflexivity|].
  intros [H _]. cut (0 = 2); [discriminate|]. apply H. vm_compute. discriminate.
Qed.

(** C2, amended.  When the timer of a pending request [n] of a reachable
    page fires, the result ([issuesData] at the request's id) is committed
    exactly when the page's own test passes: if it passes and the result is
    not a function, [setData] and [setLoading(false)] are called, and a
    mounted page then shows the result with [loading] false; if it does not
    pass, no call is made and neither [data] nor [loading] changes.  For
    [PageWithCleanup] the test ([isActive]) passes exactly when the request
    is the latest one and the page is still mounted.  For
    [PageWithRefComparison] it passes exactly when the request's id is in
    the table and equals the current id, whichever effect run issued the
    request.  For [PageWithAbort] a pending request is always the latest one
    of a mounted page, and passes. *)
Theorem commit_iff_guard (sol : Solution) (id : string) (es : list event)
    (n : nat) (r : Request) :
  let p := (DemoApp sol id es).1 in
  requests p !! n = Some r → state (fetch r) = Pending →
  let v := issuesData_at (fetch_id (fetch r)) in
  (if decide (guard sol p r v)
   then is_function v = false →
        (step sol p (Timeout n)).2 = [setData_call v; setLoading_call false]
        ∧ (mounted p = true →
             data (step sol p (Timeout n)).1 = v
             ∧ loading (step sol p (Timeout n)).1 = false)
   else (step sol p (Timeout n)).2 = []
        ∧ data (step sol p (Timeout n)).1 = data p
        ∧ loading (step sol p (Timeout n)).1 = loading p)
  ∧ match sol with
    | cleanup => guard sol p r v ↔ mounted p = true ∧ n = latest p
    | ref => guard sol p r v ↔
               is_Some (issuesData !! fetch_id (fetch r))
               ∧ fetch_id (fetch r) = props_id p
    | abort => guard sol p r v ∧ mounted p = true ∧ n = latest p
    end.
Proof.
  intros p Hr Hp v. pose proof (inv_DemoApp sol id es) as Hinv. fold p in Hinv.
  split.
  - cbn [step]. rewrite (timer_fires_guard _ _ _ _ Hr). cbn zeta.
    fold (settled n r p). fold v.
    destruct Hinv as (_ & _ & Hall & _).
    destruct (Hall n r Hr) as ((_ & [_ Ht] & _) & _).
    destruct (decide (guard sol p r v)) as [Hg|Hg].
    + intros Hf. rewrite decide_True by auto.
      unfold throws. rewrite (is_function_reduce _ _ Hf).
      rewrite bool_decide_eq_false_2 by done. rewrite andb_false_r.
      destruct (commit_fields v (settled n r p)) as (_ & _ & _ & _ & Hd1 & _).
      split; [done|]. intros Hm. apply (Hd1 Hm). by apply is_function_reduce.
    + rewrite decide_False; [done|]. by intros (_ & _ & ?).
  - destruct Hinv as (Hne & Href & Hall & Hlast).
    destruct (Hall n r Hr) as (Hok & Hc & Ha). destruct sol.
    + subst v. rewrite guard_ref, (Href eq_refl). done.
    + cbn. split; [by apply Hc|]. intros [Hm ->].
      destruct (Hlast r Hr) as (_ & Hmt). by destruct (Hmt Hm).
    + cbn. split; [done|]. by apply Ha.
Qed.

Lemma commit_iff_guard_witness :
  let p := (DemoApp cleanup "1" [Render "2"]).1 in
  (step cleanup p (Timeout 1)).2 = [setData_call (issuesData_at "2"); setLoading_call false]
  ∧ (step cleanup p (Timeout 0)).2 = [].
Proof.
  cbn zeta. split.
  - pose proof (commit_iff_guard cleanup "1" [Render "2"] 1
                  {| fetch := simulateFetch "2" false; isActive := true |}
                  eq_refl eq_refl) as [H _].
    rewrite decide_True in H by reflexivity. apply H. reflexivity.
  - pose proof (commit_iff_guard cleanup "1" [Render "2"] 0
                  {| fetch := simulateFetch "1" false; isActive := false |}
                  eq_refl eq_refl) as [H _].
    rewrite decide_False in H by discriminate. apply H.
Defined.

(** *** After the page is unmounted *)

Lemma unmounted_step sol p e :
  inv sol p → mounted p = false →
  mounted (step sol p e).1 = false
  ∧ data (step sol p e).1 = data p
  ∧ loading (step sol p e).1 = loading p
  ∧ (sol ≠ ref → commits (step sol p e).2 = []).
Proof.
  intros Hinv Hm. destruct e as [k|n|]; cbn.
  - by rewrite (render_unmounted sol k p Hm).
  - destruct (timer_fires_cases sol n p)
      as [Hc Hd Hl Hm'|r Hr Hp Hg Hc Hm' _ Hd|r _ _ _ Hm' _ _ _ _ _].
    + rewrite Hm', Hc. done.
    + rewrite Hm'. destruct (Hd Hm) as [-> ->]. repeat split; try done.
      intros Hsol. destruct (guard_latest sol p n r _ Hinv Hsol Hr Hp Hg) as (? & _).
      congruence.
    + congruence.
  - unfold unmount. by rewrite Hm.
Qed.

Lemma unmounted_run sol es pc :
  inv sol pc.1 → mounted pc.1 = false →
  data (run sol pc es).1 = data pc.1
  ∧ loading (run sol pc es).1 = loading pc.1
  ∧ (sol ≠ ref → commits (run sol pc es).2 = commits pc.2).
Proof.
  revert pc. induction es as [|e es IH]; intros pc Hinv Hm; [done|].
  cbn. destruct (unmounted_step sol pc.1 e Hinv Hm) as (Hm' & Hd & Hl & Hc).
  pose proof (inv_step sol pc.1 e Hinv) as Hinv'.
  destruct (step sol pc.1 e) as [p' c']. cbn in *.
  destruct (IH (p', pc.2 ++ c') Hinv' Hm') as (-> & -> & Hc').
  repeat split; try done. intros Hsol. rewrite (Hc' Hsol). cbn.
  unfold commits in *. by rewrite filter_app, (Hc Hsol), app_nil_r.
Qed.

(** [PageWithRefComparison] has no cleanup: unmounted while its fetch is in
    flight, the page still passes its test when the fetch resolves and calls
    [setData] and [setLoading], whereas the result of a superseded request
    makes no call.  The calls reach an unmounted component, and React leaves
    its state alone. *)
Lemma ref_commit_after_unmount :
  let p := (DemoApp ref "1" [Unmount]).1 in
  mounted p = false
  ∧ (step ref p (Timeout 0)).2 = [setData_call (issuesData_at "1"); setLoading_call false]
  ∧ (step ref p (Timeout 0)).1 = settled 0 {| fetch := simulateFetch "1" false;
                                              isActive := true |} p
  ∧ (step ref (DemoApp ref "1" [Render "2"]).1 (Timeout 0)).2 = [].
Proof. cbn zeta. split; [reflexivity|]. repeat split; reflexivity. Qed.

(** C6: no commit after teardown.  Once a page has been unmounted, whatever
    happens next (timers firing, in any order and any number of times,
    renders) leaves [data] and [loading] as they were at the unmount, for
    each of the three pages: the late result is discarded.  And
    [PageWithCleanup] and [PageWithAbort] do not even call [setData] or
    [setLoading(false)] after the unmount.  ([PageWithRefComparison] may
    make these calls; they reach an unmounted component, whose state React
    leaves alone.) *)
Theorem no_commit_after_unmount (sol : Solution) (id : string)
    (es es' : list event) :
  let p := (DemoApp sol id (es ++ [Unmount])).1 in
  data (run sol (p, []) es').1 = data p
  ∧ loading (run sol (p, []) es').1 = loading p
  ∧ (sol ≠ ref → commits (run sol (p, []) es').2 = []).
Proof.
  intros p. pose proof (inv_DemoApp sol id (es ++ [Unmount])) as Hinv. fold p in Hinv.
  assert (mounted p = false) as Hm.
  { subst p. unfold DemoApp. rewrite run_snoc. cbn.
    by destruct (unmount_data sol (run sol (mount sol id) es).1) as (_ & _ & ? & _). }
  apply (unmounted_run sol es' (p, []) Hinv Hm).
Qed.

(** The scenario of the claim on [PageWithCleanup] and [PageWithAbort]: the
    page is unmounted while its fetch is pending, the timer fires later, and
    nothing is committed. *)
Lemma no_commit_after_unmount_witness :
  commits (run cleanup ((DemoApp cleanup "1" [Unmount]).1, []) [Timeout 0]).2 = []
  ∧ commits (run abort ((DemoApp abort "1" [Unmount]).1, []) [Timeout 0]).2 = [].
Proof.
  split.
  - apply (no_commit_after_unmount cleanup "1" [] [Timeout 0]). discriminate.
  - apply (no_commit_after_unmount abort "1" [] [Timeout 0]). discriminate.
Defined.

(** *** Errors *)

Lemma step_no_error sol p e : errors (step sol p e).2 = [].
Proof.
  destruct e as [k|n|]; cbn.
  - unfold render. destruct (mounted p); [|done]. case_decide; [done|].
    destruct (run_cleanup sol (with_props_id k p)) as [p1 c1] eqn:E1.
    destruct (effect sol k p1) as [p2 c2] eqn:E2. cbn.
    pose proof (run_cleanup_calls sol (with_props_id k p)) as H1.
    pose proof (effect_calls sol k p1) as H2. rewrite E1 in H1. rewrite E2 in H2.
    cbn in H1, H2. subst c1 c2. unfold errors. rewrite filter_app.
    destruct sol; try done. by case_decide.
  - destruct (timer_fires_cases sol n p)
      as [-> _ _ _|r _ _ _ -> _ _ _|r _ _ _ _ _ -> _ _ _]; try done.
    unfold errors. rewrite filter_app.
    destruct (unmount_calls sol (settled n r p)) as [_ He]. unfold errors in He.
    by rewrite He.
  - by destruct (unmount_calls sol p) as [_ ->].
Qed.

Lemma run_no_error sol es pc : errors (run sol pc es).2 = errors pc.2.
Proof.
  revert pc. induction es as [|e es IH]; intros pc; [done|].
  cbn. pose proof (step_no_error sol pc.1 e) as H.
  destruct (step sol pc.1 e) as [p' c']. rewrite IH. cbn in *.
  unfold errors in *. by rewrite filter_app, H, app_nil_r.
Qed.

(** The [catch] callback of [PageWithAbort] changes nothing on the page: a
    failure that is not an abort is passed to [console.error], an abort is
    ignored without any call. *)
Lemma catch_logs_only name p :
  (PageWithAbort_catch name p).1 = p
  ∧ (PageWithAbort_catch name p).2 =
      if decide (name = "AbortError") then [] else [console_error name].
Proof.
  unfold PageWithAbort_catch.
  destruct (decide (name = "AbortError")) as [->|Hn].
  - by rewrite decide_False by (intros H; by apply H).
  - by rewrite decide_True.
Qed.

(** Cancellations are absorbed.  On every trace of each of the three pages,
    a fetch that was rejected was rejected by an abort, in [PageWithAbort],
    and no [console.error] call was made: [simulateFetch] rejects on abort
    only, and the [catch] callback ignores an [AbortError]. *)
Theorem cancellations_are_absorbed (sol : Solution) (id : string) (es : list event) :
  errors (DemoApp sol id es).2 = []
  ∧ ∀ n r name, requests (DemoApp sol id es).1 !! n = Some r →
                state (fetch r) = Rejected name →
                name = "AbortError" ∧ sol = abort.
Proof.
  split.
  - unfold DemoApp. rewrite run_no_error. unfold mount. by rewrite effect_calls.
  - intros n r name Hr Hs.
    destruct (inv_DemoApp sol id es) as (_ & _ & Hall & _).
    destruct (Hall n r Hr) as ((_ & _ & _ & Hrej) & _). by apply Hrej.
Qed.

(** Keys 1, 2 and 3 in [PageWithAbort]: the fetches for 1 and 2 are
    rejected with an [AbortError], and nothing is logged. *)
Lemma cancellations_are_absorbed_witness :
  let run := DemoApp abort "1" [Render "2"; Render "3"] in
  (state ∘ fetch) <$> requests run.1 !! 1%nat = Some (Rejected "AbortError")
  ∧ errors run.2 = [].
Proof.
  split; [reflexivity|].
  apply (cancellations_are_absorbed abort "1" [Render "2"; Render "3"]).
Defined.

End Chapter14.

(** ** Chapter 10: a stable callback that calls the latest closure
       (src/components/chapter-10/optimised.tsx) *)
Module Chapter10.

Section UseEventCallback.
Context {Args Res World : Type}.

(** The callback type [T]: a call acts on the rest of the program and
    returns a result. *)
Definition T : Type := Args → World → Res * World.

(** The hook cells of one call site of [useEventCallback], once rendered.
    Function objects are known by the order of their creation. *)
Record hooks := {
  ref_current : T;         (* useRef<T>(callback): ref.current *)
  memo : nat * list Z;     (* useCallback cell: the function kept, and its deps *)
  created : nat;           (* function objects created so far by the hook *)
  mounted : bool
}.

(** The render phase.  [useRef] creates the ref on the first render and
    returns the same one afterwards; each render evaluates the arrow passed
    to [useEffect] and the arrow passed to [useCallback], two new function
    objects; [useCallback(fn, [])] keeps the function of the first render
    as long as the deps are the same. *)
Definition render (callback : T) (h : option hooks) : hooks :=
  match h with
  | None =>
      {| ref_current := callback; memo := (1, []); created := 2; mounted := true |}
  | Some h =>
      let fn := S (created h) in
      {| ref_current := ref_current h;
         memo := if decide ((memo h).2 = []) then memo h else (fn, []);
         created := S (S (created h));
         mounted := mounted h |}
  end.

(** The commit phase: the effect, which has no deps and runs after every
    render, does [ref.current = callback]. *)
Definition commit (callback : T) (h : hooks) : hooks :=
  {| ref_current := callback; memo := memo h; created := created h;
     mounted := mounted h |}.

(** One render of a component that calls [useEventCallback(callback)]:
    the new cells, and the function the hook returned. *)
Definition useEventCallback (callback : T) (h : option hooks) : hooks * nat :=
  let h' := commit callback (render callback h) in (h', (memo h').1).

(** A call of a function returned by the hook: [ref.current(...args)].
    Every function object the arrow creates closes over the same ref. *)
Definition call (h : hooks) (args : Args) (w : World) : Res * World :=
  ref_current h args w.

(** The component is removed.  The hook registers no cleanup. *)
Definition unmount (h : hooks) : hooks :=
  {| ref_current := ref_current h; memo := memo h; created := created h;
     mounted := false |}.

(** The functions returned by a series of renders, one callback each. *)
Fixpoint renders (callbacks : list T) (h : option hooks) : list nat * option hooks :=
  match callbacks with
  | [] => ([], h)
  | cb :: callbacks' =>
      let '(h', fn) := useEventCallback cb h in
      let '(fns, h'') := renders callbacks' (Some h') in
      (fn :: fns, h'')
  end.

Lemma useEventCallback_memo cb h :
  memo (useEventCallback cb (Some h)).1 =
    if decide ((memo h).2 = []) then memo h else (S (created h), []).
Proof. done. Qed.

Lemma renders_stable callbacks : ∀ h,
  (memo h).2 = [] →
  Forall (λ fn, fn = (memo h).1) (renders callbacks (Some h)).1.
Proof.
  induction callbacks as [|cb callbacks IH]; intros h Hd; [by constructor|].
  cbn [renders]. destruct (useEventCallback cb (Some h)) as [h' fn] eqn:E.
  assert (memo h' = memo h ∧ fn = (memo h).1) as [Hm ->].
  { unfold useEventCallback in E. injection E as <- <-. cbn.
    by rewrite decide_True. }
  specialize (IH h'). rewrite Hm in IH. specialize (IH Hd).
  destruct (renders callbacks (Some h')) as [fns h'']. by constructor.
Qed.

(** Each render does create a new function object; the one returned is
    another, older one from the second render on. *)
Lemma render_creates_new_function cb h :
  created (useEventCallback cb (Some h)).1 = S (S (created h)).
Proof. done. Qed.

(** Freshness: the function calls the callback of the latest render. *)
Lemma call_latest cb h args w :
  call (useEventCallback cb h).1 args w = cb args w.
Proof. done. Qed.

(** C4: freshness.  Render with [cb1], then with [cb2] (the hook cells
    being new or not before that).  Both renders return the same function
    object.  Called after the first render it is a call of [cb1]; called
    after the second it is a call of [cb2], not of [cb1]: with the same
    arguments, it returns what [cb2] returns and does to the world what
    [cb2] does. *)
Theorem trigger_calls_latest_callback (h : option hooks) (cb1 cb2 : T)
    (args : Args) (w : World) :
  let r1 := useEventCallback cb1 h in
  let r2 := useEventCallback cb2 (Some r1.1) in
  r2.2 = r1.2
  ∧ call r1.1 args w = cb1 args w
  ∧ call r2.1 args w = cb2 args w.
Proof.
  intros r1 r2. split; [|split; apply call_latest].
  subst r2 r1. unfold useEventCallback. cbn.
  destruct h as [h|]; cbn; [|done].
  destruct (decide ((memo h).2 = [])) as [E|E]; by rewrite decide_True.
Qed.
End UseEventCallback.

Arguments hooks : clear implicits.

End Chapter10.

(** ** The timer facility used by [debounce] and [throttle]

    [setTimeout] and [clearTimeout] over an explicit clock in milliseconds
    ([Date.now()]).  Handles are positive, so a handle is truthy. *)
Module Timers.

(** Who keeps the timers.  The hosts keep the delay of a timer as a signed
    32-bit number: Node runs a timer whose delay is not between 1 and
    2^31 - 1 after 1 ms; a browser takes the delay modulo 2^32 as a signed
    number and runs a timer whose delay is negative at once.  [Exact] is the
    timer facility of the specification, [schedule(delayMs, fn)], which
    keeps whatever delay it is given. *)
Inductive host := Exact | Node | Browser.

#[global] Instance host_eq_dec : EqDecision host.
Proof. solve_decision. Defined.

Definition TIMEOUT_MAX : Z := 2147483647.

(** The conversion of a number to a signed 32-bit one. *)
Definition to_int32 (d : Z) : Z :=
  ((d + 2147483648) mod 4294967296 - 2147483648)%Z.

(** The delay after which the host runs a timer set with [delay]. *)
Definition delay_kept (h : host) (delay : Z) : Z :=
  match h with
  | Exact => Z.max 0 delay
  | Node => if decide (1 ≤ delay ≤ TIMEOUT_MAX)%Z then delay else 1%Z
  | Browser => Z.max 0 (to_int32 delay)
  end.

(** The host keeps every delay up to [wait] as it is. *)
Definition keeps (h : host) (wait : Z) : Prop :=
  ∀ d, (0 < d ≤ wait)%Z → delay_kept h d = d.

Section Facility.
Context {J : Type}.   (* what a timer callback was created with *)

Record timer := {
  handle : nat;
  due : Z;
  job : J
}.

Record facility := {
  keeper : host;
  now : Z;                 (* Date.now() *)
  next_handle : nat;
  pending : list timer     (* timers set and neither fired nor cleared *)
}.

Definition fresh (h : host) (t : Z) : facility :=
  {| keeper := h; now := t; next_handle := 1; pending := [] |}.

Definition setTimeout (j : J) (delay : Z) (f : facility) : nat * facility :=
  (next_handle f,
   {| keeper := keeper f; now := now f; next_handle := S (next_handle f);
      pending := pending f ++
        [{| handle := next_handle f;
            due := (now f + delay_kept (keeper f) delay)%Z; job := j |}] |}).

Definition clearTimeout (h : nat) (f : facility) : facility :=
  {| keeper := keeper f; now := now f; next_handle := next_handle f;
     pending := filter (λ t, handle t ≠ h) (pending f) |}.

(** The timer that fires first: the earliest due, the first set among
    timers due at the same time. *)
Fixpoint earliest (ts : list timer) : option timer :=
  match ts with
  | [] => None
  | t :: ts' =>
      match earliest ts' with
      | Some t' => if decide (due t' < due t)%Z then Some t' else Some t
      | None => Some t
      end
  end.

Definition next_due (T : Z) (f : facility) : option timer :=
  match earliest (pending f) with
  | Some t => if decide (due t ≤ T)%Z then Some t else None
  | None => None
  end.

(** The facility as a timer callback finds it: the timer is gone and the
    clock stands at its due time. *)
Definition fired (t : timer) (f : facility) : facility :=
  {| keeper := keeper f; now := due t; next_handle := next_handle f;
     pending := filter (λ t', handle t' ≠ handle t) (pending f) |}.

Definition at_time (T : Z) (f : facility) : facility :=
  {| keeper := keeper f; now := T; next_handle := next_handle f;
     pending := pending f |}.

(** [if (timeoutId)]: null is falsy, and so would a handle 0 be. *)
Definition truthy (timeoutId : option nat) : bool :=
  match timeoutId with
  | Some (S _) => true
  | _ => false
  end.
End Facility.

Arguments timer : clear implicits.
Arguments facility : clear implicits.

(** Time passing for a program whose state [S] holds the facility: up to
    time [T], the due timers fire one after the other, each running [fire]
    on the state.  The timer callbacks of [debounce] and [throttle] set no
    timer, so as many rounds as there are pending timers fire all that are
    due. *)
Section Advance.
Context {J S : Type}.
Context (get : S → facility J) (set : facility J → S → S) (fire : J → S → S).

Fixpoint run_timers (fuel : nat) (T : Z) (s : S) : S :=
  match fuel with
  | O => s
  | Datatypes.S fuel' =>
      match next_due T (get s) with
      | Some t => run_timers fuel' T (fire (job t) (set (fired t (get s)) s))
      | None => s
      end
  end.

Definition advance (T : Z) (s : S) : S :=
  if decide (now (get s) ≤ T)%Z then
    let s' := run_timers (length (pending (get s))) T s in
    set (at_time T (get s')) s'
  else s.
End Advance.

(** A delay from 1 to 2^31 - 1 is kept as it is by every host. *)
Lemma delay_kept_in_range h d : (1 ≤ d ≤ TIMEOUT_MAX)%Z → delay_kept h d = d.
Proof.
  unfold TIMEOUT_MAX. intros Hd. destruct h; cbn.
  - lia.
  - by rewrite decide_True.
  - unfold to_int32. rewrite Z.mod_small by lia. lia.
Qed.

Lemma delay_kept_nonneg h d : (0 ≤ delay_kept h d)%Z.
Proof. destruct h; cbn; [lia|case_decide; lia|lia]. Qed.

Lemma keeps_Exact wait : keeps Exact wait.
Proof. intros d Hd. cbn. lia. Qed.

Lemma keeps_in_range h wait : (wait ≤ TIMEOUT_MAX)%Z → keeps h wait.
Proof. intros Hw d Hd. apply delay_kept_in_range. lia. Qed.

End Timers.

(** ** Chapter 11: debounce and throttle (src/unnamed/part_012) *)
Module Chapter11.
Import Timers.

(** A callback acts on the rest of the program, the [World].  It may read
    the clock, so a call is given the time at which it is made. *)

(** What happens to a debounced or throttled function: it is called, or
    something else in the program changes the world. *)
Inductive action (Args World : Type) :=
  | Call (args : Args)
  | Other (g : World → World).

Arguments Call {Args World} args.
Arguments Other {Args World} g.

(** What the rest of the program did to the world. *)
Fixpoint others {Args World : Type} (evs : list (Z * action Args World)) (w : World)
  : World :=
  match evs with
  | [] => w
  | (_, Other g) :: evs' => others evs' (g w)
  | (_, Call _) :: evs' => others evs' w
  end.

(** *** debounce *)
Module Debounce.
Section Debounce.
Context {Args World : Type}.
Context (callback : Z → Args → World → World) (wait : Z).

(** The closure variable of one [debounce(callback, wait)], with the
    timers and the world it acts on. *)
Record debounced := {
  timeoutId : option nat;
  timers : facility Args;
  world : World
}.

Definition create (f : facility Args) (w : World) : debounced :=
  {| timeoutId := None; timers := f; world := w |}.

Definition with_timers (f : facility Args) (d : debounced) : debounced :=
  {| timeoutId := timeoutId d; timers := f; world := world d |}.

Definition with_world (w : World) (d : debounced) : debounced :=
  {| timeoutId := timeoutId d; timers := timers d; world := w |}.

(** [if (timeoutId) clearTimeout(timeoutId)] *)
Definition clear (d : debounced) : facility Args :=
  match timeoutId d with
  | Some h => if truthy (timeoutId d) then clearTimeout h (timers d) else timers d
  | None => timers d
  end.

Definition debouncedFn (args : Args) (d : debounced) : debounced :=
  let '(h, f) := setTimeout args wait (clear d) in
  {| timeoutId := Some h; timers := f; world := world d |}.

Definition cancel (d : debounced) : debounced := with_timers (clear d) d.

(** The timer callback: [callback(...args)]. *)
Definition fire (args : Args) (d : debounced) : debounced :=
  with_world (callback (now (timers d)) args (world d)) d.

Definition advance : Z → debounced → debounced :=
  Timers.advance timers with_timers fire.

Definition act (a : action Args World) (d : debounced) : debounced :=
  match a with
  | Call args => debouncedFn args d
  | Other g => with_world (g (world d)) d
  end.

(** The actions happen at the given times, and time passes in between; a
    timer due at the time of an action fires before it. *)
Fixpoint run (evs : list (Z * action Args World)) (d : debounced) : debounced :=
  match evs with
  | [] => d
  | (t, a) :: evs' => run evs' (act a (advance t d))
  end.

(** **** A burst of calls *)

(** The times of a burst: each action is no earlier than the one before
    it ([tp]) and less than [wait] after the latest call ([tc]). *)
Fixpoint burst (tc tp : Z) (evs : list (Z * action Args World)) : Prop :=
  match evs with
  | [] => True
  | (t, a) :: evs' =>
      (tp ≤ t < tc + wait)%Z
      ∧ burst (match a with Call _ => t | Other _ => tc end) t evs'
  end.

(** The time and the arguments of the last call. *)
Fixpoint last_call (t : Z) (args : Args) (evs : list (Z * action Args World))
  : Z * Args :=
  match evs with
  | [] => (t, args)
  | (t', Call args') :: evs' => last_call t' args' evs'
  | (_, Other _) :: evs' => last_call t args evs'
  end.

(** One timer is set, by the call made at [tc] with [args]; the clock
    stands at [tp]. *)
Definition armed (hs : host) (h : nat) (tc : Z) (args : Args) (tp : Z) (w : World)
  : debounced :=
  {| timeoutId := Some (S h);
     timers := {| keeper := hs; now := tp; next_handle := S (S h);
                  pending := [{| handle := S h; due := (tc + wait)%Z; job := args |}] |};
     world := w |}.

(** No timer is pending, whatever [timeoutId] still holds. *)
Definition quiet (hs : host) (o : option nat) (k : nat) (tp : Z) (w : World)
  : debounced :=
  {| timeoutId := o;
     timers := {| keeper := hs; now := tp; next_handle := S k; pending := [] |};
     world := w |}.

Lemma advance_armed_early hs h tc args tp w t :
  (tp ≤ t < tc + wait)%Z →
  advance t (armed hs h tc args tp w) = armed hs h tc args t w.
Proof.
  intros Ht. unfold advance, Timers.advance. cbn.
  rewrite decide_True by lia. unfold next_due. cbn.
  by rewrite decide_False by lia.
Qed.

Lemma advance_armed_late hs h tc args tp w T :
  (tp ≤ T)%Z → (tc + wait ≤ T)%Z →
  advance T (armed hs h tc args tp w) =
    quiet hs (Some (S h)) (S h) T (callback (tc + wait) args w).
Proof.
  intros Hp Ht. unfold advance, Timers.advance. cbn.
  rewrite decide_True by lia. unfold next_due. cbn.
  rewrite decide_True by lia. cbn.
  unfold fire, fired, with_world, with_timers, at_time, quiet. cbn.
  by rewrite decide_False by (intros H; by apply H).
Qed.

Lemma debouncedFn_armed hs h tc args tp w args' :
  delay_kept hs wait = wait →
  debouncedFn args' (armed hs h tc args tp w) = armed hs (S h) tp args' tp w.
Proof.
  intros Hw. unfold debouncedFn, clear, armed, setTimeout, clearTimeout. cbn.
  rewrite decide_False by (intros H; by apply H). cbn.
  by rewrite Hw.
Qed.

Lemma call_quiet hs o k tp w t args :
  delay_kept hs wait = wait → (tp ≤ t)%Z →
  debouncedFn args (advance t (quiet hs o k tp w)) = armed hs k t args t w.
Proof.
  intros Hw Ht. unfold advance, Timers.advance. cbn.
  rewrite decide_True by lia. cbn.
  unfold debouncedFn, clear, armed, setTimeout, clearTimeout. cbn.
  destruct o as [[|?]|]; cbn; by rewrite Hw.
Qed.

(** [cancel] clears the timer that is set: the call that set it never runs
    the callback. *)
Lemma cancel_armed hs h tc args tp w :
  cancel (armed hs h tc args tp w) = quiet hs (Some (S h)) (S h) tp w.
Proof.
  unfold cancel, clear, with_timers, quiet, clearTimeout. cbn.
  by rewrite decide_False by (intros H; by apply H).
Qed.

Lemma advance_quiet hs o k tp w T :
  (tp ≤ T)%Z → advance T (quiet hs o k tp w) = quiet hs o k T w.
Proof.
  intros Ht. unfold advance, Timers.advance. cbn. by rewrite decide_True by lia.
Qed.

Lemma run_burst hs evs : ∀ h tc args tp w,
  delay_kept hs wait = wait → (tp ≤ tc + wait)%Z → burst tc tp evs →
  ∃ h' tp',
    run evs (armed hs h tc args tp w) =
      armed hs h' (last_call tc args evs).1 (last_call tc args evs).2 tp' (others evs w)
    ∧ (tp' ≤ (last_call tc args evs).1 + wait)%Z.
Proof.
  induction evs as [|[t a] evs IH]; intros h tc args tp w Hw Hp Hb.
  - exists h, tp. done.
  - destruct Hb as [Ht Hb]. cbn [run].
    rewrite (advance_armed_early _ _ _ _ _ _ _ Ht). destruct a as [args'|g].
    + cbn [act]. rewrite debouncedFn_armed by done.
      pose proof (delay_kept_nonneg hs wait).
      apply (IH (S h) t args' t w); [done|lia|done].
    + cbn [act]. apply (IH h tc args t (g w)); [done|lia|done].
Qed.

(** A debounced function on a fresh timer facility is called at [t0] with
    [a0]; then come further calls, and changes the rest of the program
    makes to the world, each less than [wait] after the latest call.  Once
    [wait] has passed since the last call, the world is the one the rest
    of the program left, with one call of the callback, made at the time
    of the last call plus [wait] with the arguments of the last call; and
    no timer is left. *)
Lemma burst_fires_once (hs : host) (ts t0 : Z) (a0 : Args)
    (evs : list (Z * action Args World)) (T : Z) (w0 : World) :
  delay_kept hs wait = wait → (ts ≤ t0)%Z → burst t0 t0 evs →
  ((last_call t0 a0 evs).1 + wait ≤ T)%Z →
  let d := advance T (run ((t0, Call a0) :: evs) (create (fresh hs ts) w0)) in
  world d = callback ((last_call t0 a0 evs).1 + wait) (last_call t0 a0 evs).2
              (others evs w0)
  ∧ pending (timers d) = [].
Proof.
  intros Hw Hts Hb HT. cbn [run act].
  change (create (fresh hs ts) w0) with (quiet hs None 0 ts w0).
  rewrite call_quiet by done.
  pose proof (delay_kept_nonneg hs wait) as Hn. rewrite Hw in Hn.
  destruct (run_burst hs evs 0 t0 a0 t0 w0 Hw ltac:(lia) Hb) as (h' & tp' & -> & Hp').
  rewrite advance_armed_late by lia. done.
Qed.
End Debounce.

Arguments debounced : clear implicits.
End Debounce.

(** *** throttle *)
Module Throttle.
Section Throttle.
Context {Args World : Type}.
Context (callback : Z → Args → World → World) (wait : Z).

(** The closure variables of one [throttle(callback, wait)], with the
    timers and the world it acts on. *)
Record throttled := {
  lastTime : Z;
  timeoutId : option nat;
  timers : facility Args;
  world : World
}.

Definition create (f : facility Args) (w : World) : throttled :=
  {| lastTime := 0; timeoutId := None; timers := f; world := w |}.

Definition with_timers (f : facility Args) (s : throttled) : throttled :=
  {| lastTime := lastTime s; timeoutId := timeoutId s; timers := f; world := world s |}.

Definition with_world (w : World) (s : throttled) : throttled :=
  {| lastTime := lastTime s; timeoutId := timeoutId s; timers := timers s; world := w |}.

Definition throttledFn (args : Args) (s : throttled) : throttled :=
  let now := now (timers s) in
  if decide (now - lastTime s >= wait)%Z then
    {| lastTime := now; timeoutId := timeoutId s; timers := timers s;
       world := callback now args (world s) |}
  else if negb (truthy (timeoutId s)) then
    let '(h, f) := setTimeout args (wait - (now - lastTime s)) (timers s) in
    {| lastTime := lastTime s; timeoutId := Some h; timers := f; world := world s |}
  else s.

(** [if (timeoutId) clearTimeout(timeoutId)]; [timeoutId] keeps its value. *)
Definition cancel (s : throttled) : throttled :=
  match timeoutId s with
  | Some h => if truthy (timeoutId s) then with_timers (clearTimeout h (timers s)) s else s
  | None => s
  end.

(** The timer callback:
    [lastTime = Date.now(); timeoutId = null; callback(...args)]. *)
Definition fire (args : Args) (s : throttled) : throttled :=
  {| lastTime := now (timers s); timeoutId := None; timers := timers s;
     world := callback (now (timers s)) args (world s) |}.

Definition advance : Z → throttled → throttled :=
  Timers.advance timers with_timers fire.

Definition act (a : action Args World) (s : throttled) : throttled :=
  match a with
  | Call args => throttledFn args s
  | Other g => with_world (g (world s)) s
  end.

(** The actions happen at the given times, and time passes in between; a
    timer due at the time of an action fires before it. *)
Fixpoint run (evs : list (Z * action Args World)) (s : throttled) : throttled :=
  match evs with
  | [] => s
  | (t, a) :: evs' => run evs' (act a (advance t s))
  end.

(** **** One interval window *)

(** Actions in time order from [tp] on, all before [t0 + wait]. *)
Fixpoint window (t0 tp : Z) (evs : list (Z * action Args World)) : Prop :=
  match evs with
  | [] => True
  | (t, _) :: evs' => (tp ≤ t < t0 + wait)%Z ∧ window t0 t evs'
  end.

(** The arguments of the first call, if there is a call. *)
Fixpoint first_call (evs : list (Z * action Args World)) : option Args :=
  match evs with
  | [] => None
  | (_, Call args) :: _ => Some args
  | (_, Other _) :: evs' => first_call evs'
  end.

(** No timer is set; the callback last ran at [tl]. *)
Definition idle (hs : host) (k : nat) (tl tp : Z) (w : World) : throttled :=
  {| lastTime := tl; timeoutId := None;
     timers := {| keeper := hs; now := tp; next_handle := S k; pending := [] |};
     world := w |}.

(** The trailing timer is set, with [args]. *)
Definition trailing (hs : host) (k : nat) (t0 : Z) (args : Args) (tp : Z) (w : World)
  : throttled :=
  {| lastTime := t0; timeoutId := Some (S k);
     timers := {| keeper := hs; now := tp; next_handle := S (S k);
                  pending := [{| handle := S k; due := (t0 + wait)%Z; job := args |}] |};
     world := w |}.

Lemma advance_idle hs k tl tp w t :
  (tp ≤ t)%Z → advance t (idle hs k tl tp w) = idle hs k tl t w.
Proof.
  intros Ht. unfold advance, Timers.advance. cbn. by rewrite decide_True by lia.
Qed.

(** Leading edge: the callback runs at once. *)
Lemma leading_call hs k tl t0 w args :
  (t0 - tl >= wait)%Z →
  throttledFn args (idle hs k tl t0 w) = idle hs k t0 t0 (callback t0 args w).
Proof. intros Ht. unfold throttledFn. cbn. by rewrite decide_True by lia. Qed.

(** The first call after the leading edge sets the trailing timer. *)
Lemma second_call hs k t0 t w args :
  keeps hs wait → (t0 ≤ t < t0 + wait)%Z →
  throttledFn args (idle hs k t0 t w) = trailing hs k t0 args t w.
Proof.
  intros Hk Ht. unfold throttledFn, trailing, setTimeout. cbn.
  rewrite decide_False by lia. cbn.
  rewrite Hk by lia. do 4 f_equal. lia.
Qed.

Lemma advance_trailing_early hs k t0 args tp w t :
  (tp ≤ t < t0 + wait)%Z →
  advance t (trailing hs k t0 args tp w) = trailing hs k t0 args t w.
Proof.
  intros Ht. unfold advance, Timers.advance. cbn.
  rewrite decide_True by lia. unfold next_due. cbn.
  by rewrite decide_False by lia.
Qed.

(** A call while the trailing timer is set is dropped. *)
Lemma later_call hs k t0 args t w args' :
  (t0 ≤ t < t0 + wait)%Z →
  throttledFn args' (trailing hs k t0 args t w) = trailing hs k t0 args t w.
Proof. intros Ht. unfold throttledFn. cbn. by rewrite decide_False by lia. Qed.

Lemma advance_trailing_late hs k t0 args tp w T :
  (tp ≤ T)%Z → (t0 + wait ≤ T)%Z →
  advance T (trailing hs k t0 args tp w) =
    idle hs (S k) (t0 + wait) T (callback (t0 + wait) args w).
Proof.
  intros Hp Ht. unfold advance, Timers.advance. cbn.
  rewrite decide_True by lia. unfold next_due. cbn.
  rewrite decide_True by lia. cbn.
  unfold fire, fired, with_timers, at_time, idle. cbn.
  by rewrite decide_False by (intros H; by apply H).
Qed.

Lemma run_window_trailing hs evs : ∀ k t0 args tp w,
  (t0 ≤ tp < t0 + wait)%Z → window t0 tp evs →
  ∃ tp', run evs (trailing hs k t0 args tp w) = trailing hs k t0 args tp' (others evs w)
         ∧ (tp ≤ tp' < t0 + wait)%Z.
Proof.
  induction evs as [|[t a] evs IH]; intros k t0 args tp w H0 Hw.
  - exists tp. split; [done|lia].
  - destruct Hw as [Ht Hw]. cbn [run].
    rewrite advance_trailing_early by done. destruct a as [args'|g]; cbn [act others].
    + rewrite later_call by lia.
      destruct (IH k t0 args t w ltac:(lia) Hw) as (tp' & -> & Hp').
      exists tp'. split; [done|lia].
    + change (with_world (g (world (trailing hs k t0 args t w)))
                (trailing hs k t0 args t w))
        with (trailing hs k t0 args t (g w)).
      destruct (IH k t0 args t (g w) ltac:(lia) Hw) as (tp' & -> & Hp').
      exists tp'. split; [done|lia].
Qed.

Lemma run_window_idle hs evs : ∀ k t0 tp w,
  keeps hs wait → (t0 ≤ tp < t0 + wait)%Z → window t0 tp evs →
  ∃ tp', (tp ≤ tp' < t0 + wait)%Z
         ∧ run evs (idle hs k t0 tp w) =
             match first_call evs with
             | Some args => trailing hs k t0 args tp' (others evs w)
             | None => idle hs k t0 tp' (others evs w)
             end.
Proof.
  induction evs as [|[t a] evs IH]; intros k t0 tp w Hk H0 Hw.
  - exists tp. split; [lia|done].
  - destruct Hw as [Ht Hw]. cbn [run].
    rewrite advance_idle by lia. destruct a as [args|g]; cbn [act others first_call].
    + rewrite second_call by (done || lia).
      destruct (run_window_trailing hs evs k t0 args t w ltac:(lia) Hw)
        as (tp' & -> & Hp').
      exists tp'. split; [lia|done].
    + change (with_world (g (world (idle hs k t0 t w))) (idle hs k t0 t w))
        with (idle hs k t0 t (g w)).
      destruct (IH k t0 t (g w) Hk ltac:(lia) Hw) as (tp' & Hp' & ->).
      exists tp'. split; [lia|done].
Qed.

(** A throttled function is idle, its callback last run at [tl]; it is
    called at [t0], at least [wait] after [tl], with [a0]: the callback runs
    at once.  Then come, before [t0 + wait], further calls and changes the
    rest of the program makes to the world.  Once [t0 + wait] has passed: if
    there was no further call the callback has not run again; otherwise it
    has run once more, at [t0 + wait], with the arguments of the FIRST of
    those calls.  No timer is left. *)
Lemma window_runs (hs : host) (k : nat) (tl ts t0 : Z) (a0 : Args)
    (evs : list (Z * action Args World)) (T : Z) (w0 : World) :
  (0 < wait)%Z → keeps hs wait → (ts ≤ t0)%Z → (t0 - tl >= wait)%Z →
  window t0 t0 evs → (t0 + wait ≤ T)%Z →
  let s0 := idle hs k tl ts w0 in
  world (run [(t0, Call a0)] s0) = callback t0 a0 w0
  ∧ advance T (run ((t0, Call a0) :: evs) s0) =
      match first_call evs with
      | Some a1 =>
          idle hs (S k) (t0 + wait) T
            (callback (t0 + wait) a1 (others evs (callback t0 a0 w0)))
      | None => idle hs k t0 T (others evs (callback t0 a0 w0))
      end.
Proof.
  intros Hpos Hk Hts Hl Hw HT s0. subst s0. cbn [run act].
  rewrite advance_idle by done. rewrite leading_call by done.
  split; [done|].
  destruct (run_window_idle hs evs k t0 t0 (callback t0 a0 w0) Hk ltac:(lia) Hw)
    as (tp' & Hp' & ->).
  destruct (first_call evs) as [a1|].
  - by rewrite advance_trailing_late by lia.
  - by rewrite advance_idle by lia.
Qed.
End Throttle.

Arguments throttled : clear implicits.
End Throttle.

(** *** What [useDebounce] and [useThrottle] have in common *)
Module Hook.
Section Hook.
Context {Args World : Type}.

(** The callback type [T]; what a callback returns is not used. *)
Definition T : Type := Z → Args → World → World.

(** [func]: [callbackRef.current?.(...args)].  The world [func] acts on
    holds the ref cell; [T] is a function type, so the ref is never empty. *)
Definition func : Z → Args → T * World → T * World :=
  λ t args cw, (cw.1, cw.1 t args cw.2).

Inductive event :=
  | Render (callback : T)    (* the component renders, with this closure *)
  | Trigger (args : Args).   (* the returned function is called *)

(** For the debounced or throttled function a render is a change of the
    world made by the rest of the program: the ref cell gets the closure. *)
Definition to_action (e : event) : action Args (T * World) :=
  match e with
  | Render cb => Other (λ cw, (cb, cw.2))
  | Trigger args => Call args
  end.

Definition to_actions (evs : list (Z * event)) : list (Z * action Args (T * World)) :=
  (λ te, (te.1, to_action te.2)) <$> evs.

(** The closure registered last. *)
Fixpoint latest_callback (cb : T) (evs : list (Z * event)) : T :=
  match evs with
  | [] => cb
  | (_, Render cb') :: evs' => latest_callback cb' evs'
  | (_, Trigger _) :: evs' => latest_callback cb evs'
  end.

Lemma others_to_actions evs : ∀ cb w,
  others (to_actions evs) (cb, w) = (latest_callback cb evs, w).
Proof.
  induction evs as [|[t [cb'|args]] evs IH]; intros cb w; [done|..]; cbn; apply IH.
Qed.
End Hook.

Arguments event : clear implicits.
End Hook.

(** *** useDebounce *)
Module UseDebounce.
Import Hook.
Section UseDebounce.
Context {Args World : Type}.
Abbreviation T := (@Hook.T Args World).

(** The hook cells of one call site of [useDebounce], once rendered. *)
Record hooks := {
  memo : nat * list Z;     (* useMemo cell: the debounced function, and [delay] *)
  wait : Z;                (* the [wait] the debounced function was made with *)
  created : nat;           (* function objects created so far by the hook *)
  debouncedCallback : Debounce.debounced Args (T * World);
                           (* the closure variable of the debounced function,
                              the timers, callbackRef.current and the world *)
  mounted : bool
}.

Definition callbackRef_current (h : hooks) : T :=
  (Debounce.world (debouncedCallback h)).1.

Definition set_callbackRef (callback : T)
    (d : Debounce.debounced Args (T * World)) : Debounce.debounced Args (T * World) :=
  Debounce.with_world (callback, (Debounce.world d).2) d.

(** The first render and its commit: the ref is created with [callback],
    [useMemo] runs its factory ([func], then [debounce(func, delay)] whose
    [debouncedFn] is the fourth function object created), both effects
    run. *)
Definition mount (callback : T) (delay : Z) (f : facility Args) (w : World)
  : hooks * nat :=
  ({| memo := (3, [delay]); wait := delay; created := 7;
      debouncedCallback := Debounce.create f (callback, w);
      mounted := true |}, 3).

(** A later render and its commit.  With the same [delay], [useMemo]
    returns the function it holds, and only the effect without deps runs:
    [callbackRef.current = callback].  With another [delay] the factory
    runs again: a new debounced function, with its own [timeoutId]; the
    cleanup of the effect on [debouncedCallback] cancels the old one. *)
Definition useDebounce (callback : T) (delay : Z) (h : hooks) : hooks * nat :=
  if mounted h then
    if decide ((memo h).2 = [delay]) then
      ({| memo := memo h; wait := wait h; created := 3 + created h;
          debouncedCallback := set_callbackRef callback (debouncedCallback h);
          mounted := true |}, (memo h).1)
    else
      let fn := 3 + created h in
      ({| memo := (fn, [delay]); wait := delay; created := 7 + created h;
          debouncedCallback :=
            set_callbackRef callback
              (Debounce.create (Debounce.clear (debouncedCallback h))
                 (Debounce.world (debouncedCallback h)));
          mounted := true |}, fn)
  else (h, (memo h).1).

Definition with_debouncedCallback (d : Debounce.debounced Args (T * World))
    (h : hooks) : hooks :=
  {| memo := memo h; wait := wait h; created := created h;
     debouncedCallback := d; mounted := mounted h |}.

(** A call of the function the hook returned last. *)
Definition trigger (args : Args) (h : hooks) : hooks :=
  with_debouncedCallback (Debounce.debouncedFn (wait h) args (debouncedCallback h)) h.

(** The component is removed: the cleanup calls [debouncedCallback.cancel()]. *)
Definition unmount (h : hooks) : hooks :=
  {| memo := memo h; wait := wait h; created := created h;
     debouncedCallback := Debounce.cancel (debouncedCallback h);
     mounted := false |}.

Definition advance (T' : Z) (h : hooks) : hooks :=
  with_debouncedCallback (Debounce.advance func T' (debouncedCallback h)) h.

(** The functions returned by a series of renders with the same [delay]. *)
Fixpoint renders (delay : Z) (callbacks : list T) (h : hooks) : list nat * hooks :=
  match callbacks with
  | [] => ([], h)
  | cb :: callbacks' =>
      let '(h', fn) := useDebounce cb delay h in
      let '(fns, h'') := renders delay callbacks' h' in
      (fn :: fns, h'')
  end.

Definition step (delay : Z) (e : event Args World) (h : hooks) : hooks :=
  match e with
  | Render cb => (useDebounce cb delay h).1
  | Trigger args => trigger args h
  end.

Fixpoint run (delay : Z) (evs : list (Z * event Args World)) (h : hooks) : hooks :=
  match evs with
  | [] => h
  | (t, e) :: evs' => run delay evs' (step delay e (advance t h))
  end.

Lemma useDebounce_renders_stable delay callbacks : ∀ h,
  (memo h).2 = [delay] →
  Forall (λ fn, fn = (memo h).1) (renders delay callbacks h).1.
Proof.
  induction callbacks as [|cb callbacks IH]; intros h Hd; [by constructor|].
  cbn [renders]. destruct (useDebounce cb delay h) as [h' fn] eqn:E.
  assert (memo h' = memo h ∧ fn = (memo h).1) as [Hm ->].
  { unfold useDebounce in E. destruct (mounted h).
    - rewrite decide_True in E by done. by injection E as <- <-.
    - by injection E as <- <-. }
  specialize (IH h'). rewrite Hm in IH. specialize (IH Hd).
  destruct (renders delay callbacks h') as [fns h'']. by constructor.
Qed.

(** Another [delay] does replace the function. *)
Lemma other_delay_new_function cb delay h :
  mounted h = true → (memo h).2 ≠ [delay] →
  (useDebounce cb delay h).2 = 3 + created h.
Proof. intros Hm Hd. unfold useDebounce. rewrite Hm. by rewrite decide_False. Qed.

(** With no timer pending, a call of the debounced function sets one, and
    when it fires the callback in the ref runs. *)
Lemma trigger_fires (h : hooks) (k : nat) (t T' : Z) (args : Args) :
  pending (Debounce.timers (debouncedCallback h)) = [] →
  next_handle (Debounce.timers (debouncedCallback h)) = S k →
  (now (Debounce.timers (debouncedCallback h)) ≤ t)%Z →
  let kept := delay_kept (keeper (Debounce.timers (debouncedCallback h))) (wait h) in
  (t + kept ≤ T')%Z →
  let w := (Debounce.world (debouncedCallback h)).2 in
  (Debounce.world (debouncedCallback (advance T' (trigger args (advance t h))))).2
  = callbackRef_current h (t + kept)%Z args w.
Proof.
  intros Hp Hk Ht kept HT w. subst w. unfold callbackRef_current.
  destruct h as [m wt c d mt]. cbn [debouncedCallback wait] in *.
  destruct d as [tid [hs nw nh pend] [cb w]]. cbn in Hp, Hk, Ht, kept. subst pend nh.
  unfold advance, trigger, with_debouncedCallback.
  cbn [debouncedCallback wait].
  pose proof (delay_kept_nonneg hs wt) as Hn. subst kept. cbn in HT.
  change {| Debounce.timeoutId := tid;
            Debounce.timers := {| keeper := hs; now := nw; next_handle := S k;
                                  pending := [] |};
            Debounce.world := (cb, w) |}
    with (@Debounce.quiet Args (T * World) hs tid k nw (cb, w)).
  rewrite Debounce.advance_quiet by done.
  unfold Debounce.debouncedFn, Debounce.clear, Debounce.quiet, setTimeout,
    clearTimeout.
  destruct tid as [[|?]|]; cbn;
    unfold Debounce.advance, Timers.advance; cbn;
    rewrite decide_True by lia; unfold next_due; cbn;
    by rewrite decide_True by lia.
Qed.

Lemma run_as_debounce delay evs : ∀ h,
  mounted h = true → (memo h).2 = [delay] → wait h = delay →
  debouncedCallback (run delay evs h)
  = Debounce.run func delay (to_actions evs) (debouncedCallback h).
Proof.
  induction evs as [|[t e] evs IH]; intros h Hm Hd Hw; [done|].
  cbn [run to_actions fmap list_fmap Debounce.run]. rewrite IH.
  - f_equal. destruct e as [cb|args]; cbn.
    + unfold useDebounce. cbn. rewrite Hm. by rewrite decide_True.
    + by rewrite Hw.
  - destruct e; cbn; [|done]. unfold useDebounce. cbn. rewrite Hm.
    by rewrite decide_True.
  - destruct e; cbn; [|done]. unfold useDebounce. cbn. rewrite Hm.
    by rewrite decide_True.
  - destruct e; cbn; [|done]. unfold useDebounce. cbn. rewrite Hm.
    by rewrite decide_True.
Qed.

(** Debounce collapsing through the hook: a burst of calls of the returned
    function, with renders in between that register new closures, runs
    once the closure registered last, at the time of the last call plus
    the delay, with the arguments of the last call. *)
Lemma useDebounce_collapses (hs : host) (cb0 : T) (delay ts t0 : Z) (a0 : Args)
    (evs : list (Z * event Args World)) (T' : Z) (w0 : World) :
  delay_kept hs delay = delay →
  (ts ≤ t0)%Z → Debounce.burst delay t0 t0 (to_actions evs) →
  let tn := (Debounce.last_call t0 a0 (to_actions evs)).1 in
  let an := (Debounce.last_call t0 a0 (to_actions evs)).2 in
  (tn + delay ≤ T')%Z →
  let h0 := (mount cb0 delay (fresh hs ts) w0).1 in
  let h := advance T' (run delay ((t0, Trigger a0) :: evs) h0) in
  (Debounce.world (debouncedCallback h)).2
  = latest_callback cb0 evs (tn + delay)%Z an w0.
Proof.
  intros Hd Hts Hb tn an HT h0 h. subst h. unfold advance. cbn [debouncedCallback].
  rewrite run_as_debounce by done.
  change (to_actions ((t0, Trigger a0) :: evs))
    with ((t0, @Call Args (T * World) a0) :: to_actions evs).
  destruct (Debounce.burst_fires_once func delay hs ts t0 a0 (to_actions evs) T'
              (cb0, w0) Hd Hts Hb HT) as [Hw _].
  cbn zeta in Hw. change (debouncedCallback h0) with
    (Debounce.create (@fresh Args hs ts) (cb0, w0)).
  unfold with_debouncedCallback. cbn [debouncedCallback].
  rewrite Hw, others_to_actions. done.
Qed.
End UseDebounce.

Arguments hooks : clear implicits.
End UseDebounce.

(** *** useThrottle *)
Module UseThrottle.
Import Hook.
Section UseThrottle.
Context {Args World : Type}.
Abbreviation T := (@Hook.T Args World).

(** The hook cells of one call site of [useThrottle], once rendered. *)
Record hooks := {
  memo : nat * list Z;     (* useMemo cell: the throttled function, and [delay] *)
  wait : Z;                (* the [wait] the throttled function was made with *)
  created : nat;           (* function objects created so far by the hook *)
  throttledCallback : Throttle.throttled Args (T * World);
                           (* the closure variables of the throttled function,
                              the timers, callbackRef.current and the world *)
  mounted : bool
}.

Definition set_callbackRef (callback : T)
    (s : Throttle.throttled Args (T * World)) : Throttle.throttled Args (T * World) :=
  Throttle.with_world (callback, (Throttle.world s).2) s.

(** The first render and its commit. *)
Definition mount (callback : T) (delay : Z) (f : facility Args) (w : World)
  : hooks * nat :=
  ({| memo := (3, [delay]); wait := delay; created := 7;
      throttledCallback := Throttle.create f (callback, w);
      mounted := true |}, 3).

(** A later render and its commit: as in [useDebounce], the same [delay]
    keeps the throttled function and only sets the ref; another [delay]
    makes a new throttled function and cancels the old one. *)
Definition useThrottle (callback : T) (delay : Z) (h : hooks) : hooks * nat :=
  if mounted h then
    if decide ((memo h).2 = [delay]) then
      ({| memo := memo h; wait := wait h; created := 3 + created h;
          throttledCallback := set_callbackRef callback (throttledCallback h);
          mounted := true |}, (memo h).1)
    else
      let fn := 3 + created h in
      ({| memo := (fn, [delay]); wait := delay; created := 7 + created h;
          throttledCallback :=
            set_callbackRef callback
              (Throttle.create (Throttle.timers (Throttle.cancel (throttledCallback h)))
                 (Throttle.world (throttledCallback h)));
          mounted := true |}, fn)
  else (h, (memo h).1).

Definition with_throttledCallback (s : Throttle.throttled Args (T * World))
    (h : hooks) : hooks :=
  {| memo := memo h; wait := wait h; created := created h;
     throttledCallback := s; mounted := mounted h |}.

(** A call of the function the hook returned last. *)
Definition trigger (args : Args) (h : hooks) : hooks :=
  with_throttledCallback
    (Throttle.throttledFn func (wait h) args (throttledCallback h)) h.

(** The component is removed: the cleanup calls [throttledCallback.cancel()]. *)
Definition unmount (h : hooks) : hooks :=
  {| memo := memo h; wait := wait h; created := created h;
     throttledCallback := Throttle.cancel (throttledCallback h);
     mounted := false |}.

Definition advance (T' : Z) (h : hooks) : hooks :=
  with_throttledCallback (Throttle.advance func T' (throttledCallback h)) h.

Definition step (delay : Z) (e : event Args World) (h : hooks) : hooks :=
  match e with
  | Render cb => (useThrottle cb delay h).1
  | Trigger args => trigger args h
  end.

Fixpoint run (delay : Z) (evs : list (Z * event Args World)) (h : hooks) : hooks :=
  match evs with
  | [] => h
  | (t, e) :: evs' => run delay evs' (step delay e (advance t h))
  end.

Lemma run_as_throttle delay evs : ∀ h,
  mounted h = true → (memo h).2 = [delay] → wait h = delay →
  throttledCallback (run delay evs h)
  = Throttle.run func delay (to_actions evs) (throttledCallback h).
Proof.
  induction evs as [|[t e] evs IH]; intros h Hm Hd Hw; [done|].
  cbn [run to_actions fmap list_fmap Throttle.run]. rewrite IH.
  - f_equal. destruct e as [cb|args]; cbn.
    + unfold useThrottle. cbn. rewrite Hm. by rewrite decide_True.
    + by rewrite Hw.
  - destruct e; cbn; [|done]. unfold useThrottle. cbn. rewrite Hm.
    by rewrite decide_True.
  - destruct e; cbn; [|done]. unfold useThrottle. cbn. rewrite Hm.
    by rewrite decide_True.
  - destruct e; cbn; [|done]. unfold useThrottle. cbn. rewrite Hm.
    by rewrite decide_True.
Qed.

(** One window through the hook.  The first call runs at once the closure
    registered by then; the trailing run, if there is one, is a run of the
    closure registered last, with the arguments of the first call made after
    the leading edge. *)
Lemma useThrottle_window (hs : host) (cb0 : T) (delay ts t0 : Z) (a0 : Args)
    (evs : list (Z * event Args World)) (T' : Z) (w0 : World) :
  (0 < delay)%Z → keeps hs delay → (ts ≤ t0)%Z → (delay ≤ t0)%Z →
  Throttle.window delay t0 t0 (to_actions evs) → (t0 + delay ≤ T')%Z →
  let h0 := (mount cb0 delay (fresh hs ts) w0).1 in
  let h := advance T' (run delay ((t0, Trigger a0) :: evs) h0) in
  (Throttle.world (throttledCallback h)).2
  = match Throttle.first_call (to_actions evs) with
    | Some a1 => latest_callback cb0 evs (t0 + delay)%Z a1 (cb0 t0 a0 w0)
    | None => cb0 t0 a0 w0
    end.
Proof.
  intros Hd Hk Hts Ht0 Hw HT h0 h. subst h. unfold advance, with_throttledCallback.
  cbn [throttledCallback]. rewrite run_as_throttle by done.
  change (to_actions ((t0, Trigger a0) :: evs))
    with ((t0, @Call Args (T * World) a0) :: to_actions evs).
  destruct (Throttle.window_runs func delay hs 0 0 ts t0 a0 (to_actions evs) T'
              (cb0, w0) Hd Hk Hts ltac:(lia) Hw HT) as [_ Hr].
  cbn zeta in Hr.
  change (throttledCallback h0)
    with (@Throttle.idle Args (T * World) hs 0 0 ts (cb0, w0)).
  rewrite Hr.
  change (func t0 a0 (cb0, w0)) with (cb0, cb0 t0 a0 w0).
  rewrite others_to_actions.
  by destruct (Throttle.first_call (to_actions evs)) as [a1|].
Qed.
End UseThrottle.

Arguments hooks : clear implicits.
End UseThrottle.

(** *** Debounce collapsing and the throttle window *)

(** A world that records the calls of the callback. *)
Definition log : Z → string → list (Z * string) → list (Z * string) :=
  λ t a w, w ++ [(t, a)].

(** C5: debounce collapsing.  (1) [debounce]: a debounced function made with
    a delay [wait] from 1 to 2^31 - 1 ms (the delays every host keeps as
    they are) on a fresh timer facility of any host is called at [t0] with
    [a0]; then come further calls (and changes the rest of the program makes
    to the world), each less than [wait] after the latest call.  Once [wait]
    has passed since the last call, the callback has run exactly once: the
    world is the one the rest of the program left, with one call of the
    callback, made at the time of the last call plus [wait], with the
    arguments of the last call; and no timer is left.  (2) [useDebounce]: the
    same for the function the hook returns, with renders between the calls;
    the one call is a call of the closure registered by the last render. *)
Theorem debounce_collapses :
  (∀ (Args World : Type) (callback : Z → Args → World → World) (wait : Z)
     (hs : host) (ts t0 : Z) (a0 : Args) (evs : list (Z * action Args World))
     (T : Z) (w0 : World),
     (1 ≤ wait ≤ TIMEOUT_MAX)%Z → (ts ≤ t0)%Z → Debounce.burst wait t0 t0 evs →
     ((Debounce.last_call t0 a0 evs).1 + wait ≤ T)%Z →
     let d := Debounce.advance callback T
                (Debounce.run callback wait ((t0, Call a0) :: evs)
                   (Debounce.create (fresh hs ts) w0)) in
     Debounce.world d
     = callback ((Debounce.last_call t0 a0 evs).1 + wait)%Z
         (Debounce.last_call t0 a0 evs).2 (others evs w0)
     ∧ pending (Debounce.timers d) = [])
  ∧ (∀ (Args World : Type) (cb0 : @Hook.T Args World) (delay : Z) (hs : host)
       (ts t0 : Z) (a0 : Args)
       (evs : list (Z * Hook.event Args World)) (T : Z) (w0 : World),
       (1 ≤ delay ≤ TIMEOUT_MAX)%Z → (ts ≤ t0)%Z →
       Debounce.burst delay t0 t0 (Hook.to_actions evs) →
       let tn := (Debounce.last_call t0 a0 (Hook.to_actions evs)).1 in
       let an := (Debounce.last_call t0 a0 (Hook.to_actions evs)).2 in
       (tn + delay ≤ T)%Z →
       let h0 := (UseDebounce.mount cb0 delay (fresh hs ts) w0).1 in
       let h := UseDebounce.advance T
                  (UseDebounce.run delay ((t0, Hook.Trigger a0) :: evs) h0) in
       (Debounce.world (UseDebounce.debouncedCallback h)).2
       = Hook.latest_callback cb0 evs (tn + delay)%Z an w0).
Proof.
  split.
  - intros. apply Debounce.burst_fires_once; try done.
    by apply delay_kept_in_range.
  - intros. apply UseDebounce.useDebounce_collapses; try done.
    by apply delay_kept_in_range.
Qed.

(** The scenario of the specification, on Node and in a browser:
    [debounce(500)] called at 0, 100, 200 and 300 ms with A, B, C and D runs
    the callback once, at 800 ms, with D.  And through [useDebounce]: called
    at 0 ms with A, rendered at 50 ms with a new closure, called at 100 ms
    with B, the new closure runs once, at 600 ms, with B. *)
Lemma debounce_collapses_witness :
  Debounce.world
    (Debounce.advance log 1000
       (Debounce.run log 500
          [(0%Z, Call "A"); (100%Z, Call "B"); (200%Z, Call "C"); (300%Z, Call "D")]
          (Debounce.create (fresh Node 0) [])))
  = [(800%Z, "D")]
  ∧ (let old : Hook.T := λ t a w, w ++ [(t, "old closure: " ++ a)%string] in
     let new : Hook.T := λ t a w, w ++ [(t, "new closure: " ++ a)%string] in
     (Debounce.world
        (UseDebounce.debouncedCallback
           (UseDebounce.advance 1000
              (UseDebounce.run 500
                 [(0%Z, Hook.Trigger "A"); (50%Z, Hook.Render new);
                  (100%Z, Hook.Trigger "B")]
                 (UseDebounce.mount old 500 (fresh Browser 0) []).1)))).2
     = [(600%Z, "new closure: B")]).
Proof.
  split.
  - apply (proj1 debounce_collapses string (list (Z * string)) log
             500%Z Node 0%Z 0%Z "A"
             [(100%Z, Call "B"); (200%Z, Call "C"); (300%Z, Call "D")] 1000%Z []);
      unfold TIMEOUT_MAX; cbn; lia.
  - intros old new.
    apply (proj2 debounce_collapses string (list (Z * string)) old
             500%Z Browser 0%Z 0%Z "A"
             [(50%Z, Hook.Render new); (100%Z, Hook.Trigger "B")] 1000%Z []);
      unfold TIMEOUT_MAX; cbn; lia.
Defined.

(** C7, as stated, fails: [throttle] with an interval of 1000 ms, first
    called at 5000 ms with A (which runs at once), then at 5100 ms with B and
    at 5200 ms with C, runs the callback once more at 6000 ms, with B; the
    arguments C of the most recent call are never passed to the callback. *)
Lemma throttle_trailing_drops_latest :
  let s := Throttle.advance log 6000
             (Throttle.run log 1000
                [(5000%Z, Call "A"); (5100%Z, Call "B"); (5200%Z, Call "C")]
                (Throttle.create (fresh Node 5000) [])) in
  Throttle.world s = [(5000%Z, "A"); (6000%Z, "B")]
  ∧ Throttle.world s ≠ [(5000%Z, "A"); (6000%Z, "C")]
  ∧ pending (Throttle.timers s) = [].
Proof. cbn zeta. split; [reflexivity|]. split; [discriminate|reflexivity]. Qed.

(** C7, amended.  (1) [throttle]: a throttled function with an interval
    [wait] from 1 to 2^31 - 1 ms, on a timer facility of any host, is idle:
    no trailing timer is set and [timeoutId] is null (the function is new,
    or its last trailing call has run), and its callback last ran at [tl].
    It is called at [t0], at least [wait] after [tl], with [a0]: the callback
    runs at once with [a0] (leading edge).  Then come, before [t0 + wait],
    further calls (and changes the rest of the program makes to the world).
    Once [t0 + wait] has passed: if there was no further call the callback
    has not run again; otherwise it has run exactly once more, at
    [t0 + wait], with the arguments of the FIRST call made after the leading
    edge, the later calls being dropped.  The function is idle again and no
    timer is left.  (2) [useThrottle]: the same for the function the hook
    returns on a new mount, first called once the clock has reached [delay],
    with renders between the calls; the leading run is a run of the closure
    registered by then, the trailing run a run of the closure registered
    last. *)
Theorem throttle_leading_then_first_trailing :
  (∀ (Args World : Type) (callback : Z → Args → World → World) (wait : Z)
     (hs : host) (k : nat) (tl ts t0 : Z) (a0 : Args)
     (evs : list (Z * action Args World)) (T : Z) (w0 : World),
     (1 ≤ wait ≤ TIMEOUT_MAX)%Z → (ts ≤ t0)%Z → (t0 - tl >= wait)%Z →
     Throttle.window wait t0 t0 evs → (t0 + wait ≤ T)%Z →
     let s0 := Throttle.idle hs k tl ts w0 in
     Throttle.world (Throttle.run callback wait [(t0, Call a0)] s0) = callback t0 a0 w0
     ∧ Throttle.advance callback T (Throttle.run callback wait ((t0, Call a0) :: evs) s0)
       = match Throttle.first_call evs with
         | Some a1 =>
             Throttle.idle hs (S k) (t0 + wait) T
               (callback (t0 + wait)%Z a1 (others evs (callback t0 a0 w0)))
         | None => Throttle.idle hs k t0 T (others evs (callback t0 a0 w0))
         end)
  ∧ (∀ (Args World : Type) (cb0 : @Hook.T Args World) (delay : Z) (hs : host)
       (ts t0 : Z) (a0 : Args)
       (evs : list (Z * Hook.event Args World)) (T : Z) (w0 : World),
       (1 ≤ delay ≤ TIMEOUT_MAX)%Z → (ts ≤ t0)%Z → (delay ≤ t0)%Z →
       Throttle.window delay t0 t0 (Hook.to_actions evs) → (t0 + delay ≤ T)%Z →
       let h0 := (UseThrottle.mount cb0 delay (fresh hs ts) w0).1 in
       let h := UseThrottle.advance T
                  (UseThrottle.run delay ((t0, Hook.Trigger a0) :: evs) h0) in
       (Throttle.world (UseThrottle.throttledCallback h)).2
       = match Throttle.first_call (Hook.to_actions evs) with
         | Some a1 => Hook.latest_callback cb0 evs (t0 + delay)%Z a1 (cb0 t0 a0 w0)
         | None => cb0 t0 a0 w0
         end).
Proof.
  split.
  - intros. apply Throttle.window_runs; try done; [lia|].
    apply keeps_in_range. lia.
  - intros. apply UseThrottle.useThrottle_window; try done; [lia|].
    apply keeps_in_range. lia.
Qed.

(** The run of the counterexample, and the auto-save of the demo, where
    each key press calls the function and then renders with a new closure:
    keys at 5000, 5100 and 5200 ms run the closure of the mount at once and
    the closure of the last render at 6000 ms. *)
Lemma throttle_leading_then_first_trailing_witness :
  Throttle.world
    (Throttle.advance log 6000
       (Throttle.run log 1000
          [(5000%Z, Call "A"); (5100%Z, Call "B"); (5200%Z, Call "C")]
          (Throttle.create (fresh Node 5000) [])))
  = [(5000%Z, "A"); (6000%Z, "B")]
  ∧ (let save (text : string) : Hook.T (Args := unit) :=
       λ t _ w, w ++ [(t, text)] in
     (Throttle.world
        (UseThrottle.throttledCallback
           (UseThrottle.advance 6000
              (UseThrottle.run 1000
                 [(5000%Z, Hook.Trigger ()); (5000%Z, Hook.Render (save "a"));
                  (5100%Z, Hook.Trigger ()); (5100%Z, Hook.Render (save "ab"));
                  (5200%Z, Hook.Trigger ()); (5200%Z, Hook.Render (save "abc"))]
                 (UseThrottle.mount (save "") 1000 (fresh Browser 5000) []).1)))).2
     = [(5000%Z, ""); (6000%Z, "abc")]).
Proof.
  split.
  - pose proof (proj1 throttle_leading_then_first_trailing string (list (Z * string))
                  log 1000%Z Node 0 0%Z 5000%Z 5000%Z "A"
                  [(5100%Z, Call "B"); (5200%Z, Call "C")] 6000%Z []) as H.
    cbn zeta in H.
    destruct H as [_ H]; [unfold TIMEOUT_MAX; lia|lia|lia|cbn; lia|lia|].
    apply (f_equal Throttle.world) in H. exact H.
  - intros save.
    apply (proj2 throttle_leading_then_first_trailing unit (list (Z * string))
             (save "") 1000%Z Browser 5000%Z 5000%Z ()
             [(5000%Z, Hook.Render (save "a"));
              (5100%Z, Hook.Trigger ()); (5100%Z, Hook.Render (save "ab"));
              (5200%Z, Hook.Trigger ()); (5200%Z, Hook.Render (save "abc"))]
             6000%Z []); unfold TIMEOUT_MAX; cbn; lia.
Defined.

End Chapter11.

(** ** The latest-callback cell: [useEventCallback] and [useDebounce] *)
Module LatestCallbackCell.
Import Timers Chapter11.

(** C3: stability.  Whatever closures a component passes on its renders,
    and however many times it renders, the function [useEventCallback]
    returns on every later render is the function object it returned on the
    first one; and so is, as long as the delay stays the same, the debounced
    function [useDebounce] returns. *)
Theorem trigger_identity_stable :
  (∀ (Args Res World : Type) (cb0 : @Chapter10.T Args Res World)
     (cbs : list (@Chapter10.T Args Res World)),
     let h0 := (Chapter10.useEventCallback cb0 None).1 in
     let f0 := (Chapter10.useEventCallback cb0 None).2 in
     Forall (λ fn, fn = f0) (Chapter10.renders cbs (Some h0)).1)
  ∧ (∀ (Args World : Type) (cb0 : @Hook.T Args World) (delay : Z)
       (f : facility Args) (w : World) (cbs : list (@Hook.T Args World)),
       let h0 := (UseDebounce.mount cb0 delay f w).1 in
       let f0 := (UseDebounce.mount cb0 delay f w).2 in
       Forall (λ fn, fn = f0) (UseDebounce.renders delay cbs h0).1).
Proof.
  split.
  - intros Args Res World cb0 cbs h0 f0.
    by apply (Chapter10.renders_stable cbs h0).
  - intros Args World cb0 delay f w cbs h0 f0.
    by apply (UseDebounce.useDebounce_renders_stable delay cbs h0).
Qed.

(** C10, as stated, fails: the function [useEventCallback] returned, called
    after its component was unmounted, runs the closure registered last and
    returns its result.  No flag guards the call. *)
Lemma call_after_unmount_runs_callback :
  let cb : @Chapter10.T unit string (list string) :=
    λ _ w, ("submitted", w ++ ["callback ran"]) in
  let h := Chapter10.unmount (Chapter10.useEventCallback cb None).1 in
  Chapter10.mounted h = false
  ∧ Chapter10.call h () [] = ("submitted", ["callback ran"])
  ∧ Chapter10.call h () [] ≠ ("", []).
Proof. cbn zeta. split; [reflexivity|]. split; [reflexivity|discriminate]. Qed.

(** C10, amended.  Unmounting does not disable the returned function.  For
    [useEventCallback], a call after the unmount is what it was before: a
    call of the closure registered last, with the same arguments and the
    same result.  For [useDebounce], the unmount cancels the timer of the
    debounced function; if no timer is left pending, a call made after the
    unmount sets a new timer, and when it fires, after the delay the host
    keeps for [wait] ([wait] itself when it is from 1 to 2^31 - 1 ms), the
    closure registered last runs with the arguments of that call. *)
Theorem trigger_after_unmount :
  (∀ (Args Res World : Type) (h : Chapter10.hooks Args Res World)
     (args : Args) (w : World),
     Chapter10.call (Chapter10.unmount h) args w = Chapter10.ref_current h args w)
  ∧ (∀ (Args World : Type) (h : UseDebounce.hooks Args World) (k : nat)
       (t T : Z) (args : Args),
       let h' := UseDebounce.unmount h in
       let kept := delay_kept
                     (keeper (Debounce.timers (UseDebounce.debouncedCallback h)))
                     (UseDebounce.wait h) in
       pending (Debounce.timers (UseDebounce.debouncedCallback h')) = [] →
       next_handle (Debounce.timers (UseDebounce.debouncedCallback h')) = S k →
       (now (Debounce.timers (UseDebounce.debouncedCallback h')) ≤ t)%Z →
       (t + kept ≤ T)%Z →
       (Debounce.world
          (UseDebounce.debouncedCallback
             (UseDebounce.advance T
                (UseDebounce.trigger args (UseDebounce.advance t h'))))).2
       = UseDebounce.callbackRef_current h (t + kept)%Z args
           (Debounce.world (UseDebounce.debouncedCallback h)).2).
Proof.
  split; [done|].
  intros Args World h k t T args h' kept Hp Hk Ht HT.
  assert (keeper (Debounce.timers (UseDebounce.debouncedCallback h'))
          = keeper (Debounce.timers (UseDebounce.debouncedCallback h))) as Hh.
  { subst h'. unfold UseDebounce.unmount, UseDebounce.with_debouncedCallback,
      Debounce.cancel, Debounce.clear, Debounce.with_timers. cbn.
    destruct (Debounce.timeoutId (UseDebounce.debouncedCallback h)) as [[|?]|];
      done. }
  pose proof (UseDebounce.trigger_fires h' k t T args Hp Hk Ht) as H.
  cbn zeta in H. rewrite Hh in H.
  by rewrite (H HT).
Qed.

(** A debounced search box: the function is called at 100 ms with "a", the
    component is unmounted at 200 ms, which cancels that call; the function
    is called again at 300 ms with "b", and at 800 ms the closure runs with
    "b". *)
Lemma trigger_after_unmount_witness :
  let h := UseDebounce.trigger "a"
             (UseDebounce.advance 100 (UseDebounce.mount log 500 (fresh Node 0) []).1) in
  let h' := UseDebounce.unmount (UseDebounce.advance 200 h) in
  (Debounce.world
     (UseDebounce.debouncedCallback
        (UseDebounce.advance 1000
           (UseDebounce.trigger "b" (UseDebounce.advance 300 h'))))).2
  = [(800%Z, "b")].
Proof.
  intros h h'.
  apply (proj2 trigger_after_unmount string (list (Z * string))
           (UseDebounce.advance 200 h) 1 300%Z 1000%Z "b");
    first [reflexivity | vm_compute; discriminate].
Defined.

End LatestCallbackCell.

(** ** More on [debounce] and [throttle]: calls, [cancel] and time in any
       order (src/unnamed/part_012) *)
Module Schedulers.
Import Timers Chapter11.

(** What a holder of a debounced or throttled function can do with it. *)
Inductive op (Args : Type) :=
  | Invoke (args : Args)    (* call it *)
  | Cancel                  (* call its [cancel] *)
  | Tick.                   (* nothing: time passes *)

Arguments Invoke {Args} args.
Arguments Cancel {Args}.
Arguments Tick {Args}.

(** A world that records each call of the callback, with its time. *)
Definition record {Args : Type} : Z → Args → list (Z * Args) → list (Z * Args) :=
  λ t a w, w ++ [(t, a)].

(** Consecutive times are at least [wait] apart. *)
Definition spaced (wait : Z) (ts : list Z) : Prop :=
  ∀ i a b, ts !! i = Some a → ts !! S i = Some b → (a + wait ≤ b)%Z.

Section DebounceOps.
Context {Args World : Type}.
Context (callback : Z → Args → World → World) (wait : Z).

Definition debounce_op (o : op Args) (d : Debounce.debounced Args World)
  : Debounce.debounced Args World :=
  match o with
  | Invoke args => Debounce.debouncedFn wait args d
  | Cancel => Debounce.cancel d
  | Tick => d
  end.

Fixpoint debounce_run (ops : list (Z * op Args)) (d : Debounce.debounced Args World)
  : Debounce.debounced Args World :=
  match ops with
  | [] => d
  | (t, o) :: ops' => debounce_run ops' (debounce_op o (Debounce.advance callback t d))
  end.

(** Calls more than [wait] after one another. *)
Fixpoint apart (tp : Z) (calls : list (Z * Args)) : Prop :=
  match calls with
  | [] => True
  | (t, _) :: calls' => (tp + wait < t)%Z ∧ apart t calls'
  end.

Definition invoke_all (calls : list (Z * Args)) : list (Z * op Args) :=
  (λ ta, (ta.1, Invoke ta.2)) <$> calls.

(** The callback run once per call, [wait] after it. *)
Definition each_fired (calls : list (Z * Args)) (w : World) : World :=
  fold_left (λ w ta, callback (ta.1 + wait) ta.2 w) calls w.

(** The timers are those of one debounced function: none, or the one whose
    handle [timeoutId] holds. *)
Definition one_timer (d : Debounce.debounced Args World) : Prop :=
  pending (Debounce.timers d) = []
  ∨ ∃ t, pending (Debounce.timers d) = [t]
         ∧ Debounce.timeoutId d = Some (handle t) ∧ handle t ≠ 0.

Definition handles_positive (d : Debounce.debounced Args World) : Prop :=
  next_handle (Debounce.timers d) ≠ 0.

Lemma advance_one_timer T d :
  one_timer d →
  one_timer (Debounce.advance callback T d)
  ∧ next_handle (Debounce.timers (Debounce.advance callback T d))
    = next_handle (Debounce.timers d).
Proof.
  intros Hd. unfold Debounce.advance, Timers.advance.
  case_decide as Hn; [|done].
  destruct d as [tid [hs nw nh pend] w]. cbn in *.
  destruct Hd as [Hp|(t & Hp & Htid & Hh)]; cbn in Hp; subst pend; cbn.
  - split; [by left|done].
  - unfold next_due. cbn. case_decide as Hdue; cbn.
    + split; [|done]. left. unfold fired. cbn.
      by rewrite decide_False by (intros H; by apply H).
    + split; [|done]. right. by exists t.
Qed.

Lemma cancel_no_timer d : one_timer d → pending (Debounce.timers (Debounce.cancel d)) = [].
Proof.
  destruct d as [tid [hs nw nh pend] w].
  intros [Hp|(t & Hp & Htid & Hh)]; cbn in *; subst.
  - unfold Debounce.cancel, Debounce.clear. cbn.
    by destruct tid as [[|?]|].
  - unfold Debounce.cancel, Debounce.clear. cbn.
    destruct (handle t) as [|h] eqn:E; [done|]. cbn. rewrite E.
    by rewrite decide_False by (intros H; by apply H).
Qed.

Lemma clear_next_handle (d : Debounce.debounced Args World) :
  next_handle (Debounce.clear d) = next_handle (Debounce.timers d).
Proof. unfold Debounce.clear. by destruct (Debounce.timeoutId d) as [[|?]|]. Qed.

Lemma op_one_timer o d :
  one_timer d → handles_positive d →
  one_timer (debounce_op o d) ∧ handles_positive (debounce_op o d).
Proof.
  intros Hd Hn. destruct o as [args| |]; cbn [debounce_op].
  - pose proof (cancel_no_timer d Hd) as Hc.
    unfold Debounce.cancel, Debounce.with_timers in Hc. cbn in Hc.
    unfold Debounce.debouncedFn, setTimeout, handles_positive in *. cbn.
    rewrite Hc. cbn. rewrite clear_next_handle. split; [|done].
    right. eexists. split; [done|]. done.
  - split; [left; by apply cancel_no_timer|].
    unfold handles_positive, Debounce.cancel in *. cbn. by rewrite clear_next_handle.
  - done.
Qed.

Lemma run_one_timer ops : ∀ d,
  one_timer d → handles_positive d → one_timer (debounce_run ops d).
Proof.
  induction ops as [|[t o] ops IH]; intros d Hd Hn; [done|].
  cbn [debounce_run]. destruct (advance_one_timer t d Hd) as [Ha Hnh].
  destruct (op_one_timer o (Debounce.advance callback t d) Ha) as [Ho Hp].
  { unfold handles_positive. by rewrite Hnh. }
  by apply IH.
Qed.

Lemma advance_no_timer T d :
  pending (Debounce.timers d) = [] →
  Debounce.world (Debounce.advance callback T d) = Debounce.world d.
Proof.
  intros Hp. unfold Debounce.advance, Timers.advance.
  case_decide; [|done]. by rewrite Hp.
Qed.

Lemma run_apart hs calls : ∀ h tc args tp w,
  delay_kept hs wait = wait → (tp ≤ tc + wait)%Z → apart tc calls →
  ∃ h' tc' args' tp',
    debounce_run (invoke_all calls) (Debounce.armed wait hs h tc args tp w)
    = Debounce.armed wait hs h' tc' args' tp'
        (each_fired (removelast ((tc, args) :: calls)) w)
    ∧ last ((tc, args) :: calls) = Some (tc', args') ∧ (tp' ≤ tc' + wait)%Z.
Proof.
  induction calls as [|[t a] calls IH]; intros h tc args tp w Hw Hp Ha.
  - exists h, tc, args, tp. done.
  - destruct Ha as [Ht Ha].
    change (invoke_all ((t, a) :: calls)) with ((t, Invoke a) :: invoke_all calls).
    cbn [debounce_run debounce_op].
    pose proof (delay_kept_nonneg hs wait) as Hn. rewrite Hw in Hn.
    rewrite Debounce.advance_armed_late by lia.
    pose proof (Debounce.call_quiet callback wait hs (Some (S h)) (S h) t
                  (callback (tc + wait) args w) t a Hw ltac:(lia)) as Hq.
    rewrite Debounce.advance_quiet in Hq by lia. rewrite Hq.
    destruct (IH (S h) t a t (callback (tc + wait) args w) Hw ltac:(lia) Ha)
      as (h' & tc' & args' & tp' & -> & Hl & Hp').
    exists h', tc', args', tp'. split; [done|]. split; done.
Qed.
End DebounceOps.

Section ThrottleOps.
Context {Args World : Type}.
Context (callback : Z → Args → World → World) (wait : Z).

Definition throttle_op (o : op Args) (s : Throttle.throttled Args World)
  : Throttle.throttled Args World :=
  match o with
  | Invoke args => Throttle.throttledFn callback wait args s
  | Cancel => Throttle.cancel s
  | Tick => s
  end.

Fixpoint throttle_run (ops : list (Z * op Args)) (s : Throttle.throttled Args World)
  : Throttle.throttled Args World :=
  match ops with
  | [] => s
  | (t, o) :: ops' => throttle_run ops' (throttle_op o (Throttle.advance callback t s))
  end.

(** The timers are those of one throttled function: none, or the trailing
    timer, whose handle [timeoutId] holds. *)
Definition one_trailing (s : Throttle.throttled Args World) : Prop :=
  next_handle (Throttle.timers s) ≠ 0
  ∧ (pending (Throttle.timers s) = []
     ∨ ∃ t, pending (Throttle.timers s) = [t]
            ∧ Throttle.timeoutId s = Some (handle t) ∧ handle t ≠ 0).

(** The host keeps the delays the throttled function asks for: it keeps
    every delay; or it keeps the delays up to [wait], and the callback last
    ran no later than now. *)
Definition delays_kept (s : Throttle.throttled Args World) : Prop :=
  keeper (Throttle.timers s) = Exact
  ∨ (keeps (keeper (Throttle.timers s)) wait
     ∧ (Throttle.lastTime s ≤ now (Throttle.timers s))%Z).

(** Then the trailing timer is due [wait] after [lastTime], and not yet
    due. *)
Definition trailing_timer (s : Throttle.throttled Args World) : Prop :=
  next_handle (Throttle.timers s) ≠ 0
  ∧ delays_kept s
  ∧ (pending (Throttle.timers s) = []
     ∨ ∃ t, pending (Throttle.timers s) = [t]
            ∧ Throttle.timeoutId s = Some (handle t) ∧ handle t ≠ 0
            ∧ due t = (Throttle.lastTime s + wait)%Z
            ∧ (now (Throttle.timers s) < due t)%Z).

(** [cancel] was called while the trailing timer was set: no timer is
    pending, and [timeoutId] still holds the handle. *)
Definition cancelled (s : Throttle.throttled Args World) : Prop :=
  pending (Throttle.timers s) = [] ∧ truthy (Throttle.timeoutId s) = true.

Lemma advance_one_trailing T s :
  one_trailing s → one_trailing (Throttle.advance callback T s).
Proof.
  intros [Hn Hs]. unfold Throttle.advance, Timers.advance.
  case_decide as HT; [|done].
  destruct s as [lt tid [hs nw nh pend] w]. cbn in *.
  destruct Hs as [Hp|(t & Hp & Htid & Hh)]; subst pend; cbn.
  - split; [done|by left].
  - unfold next_due. cbn. case_decide as Hd; cbn.
    + split; [done|]. left. unfold fired. cbn.
      by rewrite decide_False by (intros H; by apply H).
    + split; [done|]. right. by exists t.
Qed.

Lemma op_one_trailing o s :
  one_trailing s → one_trailing (throttle_op o s).
Proof.
  intros [Hn Hs]. destruct o as [args| |]; cbn [throttle_op]; [| |done].
  - unfold Throttle.throttledFn.
    destruct s as [lt tid [hs nw nh pend] w]. cbn in *.
    case_decide as Hl; cbn; [done|].
    destruct (truthy tid) eqn:Htr; cbn; [done|].
    split; [done|].
    destruct Hs as [Hp|(t & Hp & Htid & Hh)].
    + subst pend. right. eexists. split; [done|]. done.
    + subst tid. cbn in Htr. by destruct (handle t).
  - unfold Throttle.cancel. destruct s as [lt tid [hs nw nh pend] w]. cbn in *.
    destruct tid as [[|h]|]; cbn; try done.
    split; [done|]. left.
    destruct Hs as [Hp|(t & Hp & [= Htid] & _)]; subst pend; [done|].
    cbn. rewrite <- Htid. by rewrite decide_False by (intros H; by apply H).
Qed.

Lemma run_one_trailing ops : ∀ s,
  one_trailing s → one_trailing (throttle_run ops s).
Proof.
  induction ops as [|[t o] ops IH]; intros s Hs; [done|].
  cbn [throttle_run]. by apply IH, op_one_trailing, advance_one_trailing.
Qed.

Lemma create_one_trailing hs ts w : one_trailing (Throttle.create (fresh hs ts) w).
Proof. split; [done|by left]. Qed.

Lemma advance_trailing_timer T s :
  trailing_timer s → trailing_timer (Throttle.advance callback T s).
Proof.
  intros (Hn & Hk & Hs). unfold Throttle.advance, Timers.advance.
  case_decide as HT; [|done].
  destruct s as [lt tid [hs nw nh pend] w]. unfold delays_kept in *. cbn in *.
  destruct Hs as [Hp|(t & Hp & Htid & Hh & Hdue & Hnow)]; subst pend; cbn.
  - split; [done|]. split; [|by left].
    unfold delays_kept; cbn.
      destruct Hk as [->|[Hk Hl]]; [by left|right]. split; [done|cbn; lia].
  - unfold next_due. cbn. case_decide as Hd; cbn.
    + split; [done|]. split.
      * unfold delays_kept; cbn.
      destruct Hk as [->|[Hk Hl]]; [by left|right]. split; [done|cbn; lia].
      * left. unfold fired. cbn.
        by rewrite decide_False by (intros H; by apply H).
    + split; [done|]. split.
      * unfold delays_kept; cbn.
      destruct Hk as [->|[Hk Hl]]; [by left|right]. split; [done|cbn; lia].
      * right. exists t. repeat split; try done. cbn. lia.
Qed.

Lemma op_trailing_timer o s :
  trailing_timer s → trailing_timer (throttle_op o s).
Proof.
  intros (Hn & Hk & Hs). destruct o as [args| |]; cbn [throttle_op]; [| |done].
  - unfold Throttle.throttledFn.
    destruct s as [lt tid [hs nw nh pend] w]. unfold delays_kept in *. cbn in *.
    case_decide as Hl; cbn.
    + split; [done|]. split.
      * unfold delays_kept; cbn.
        destruct Hk as [->|[Hk Hlt]]; [by left|right]. split; [done|lia].
      * destruct Hs as [Hp|(t & Hp & Htid & Hh & Hdue & Hnow)]; [by left|lia].
    + destruct (truthy tid) eqn:Htr; cbn.
      * done.
      * split; [done|]. split; [done|].
        destruct Hs as [Hp|(t & Hp & Htid & Hh & Hdue & Hnow)].
        -- subst pend. right. eexists. split; [done|]. cbn.
           split; [done|]. split; [done|].
           assert (delay_kept hs (wait - (nw - lt)) = (wait - (nw - lt))%Z) as ->.
           { destruct Hk as [->|[Hk Hlt]]; [cbn; lia|]. apply Hk. lia. }
           split; lia.
        -- subst tid. cbn in Htr. by destruct (handle t).
  - unfold Throttle.cancel.
    destruct s as [lt tid [hs nw nh pend] w]. unfold delays_kept in *. cbn in *.
    destruct tid as [[|h]|]; cbn; try done.
    split; [done|]. split; [done|]. left.
    destruct Hs as [Hp|(t & Hp & [= Htid] & _)]; subst pend; [done|].
    cbn. rewrite <- Htid. by rewrite decide_False by (intros H; by apply H).
Qed.

Lemma run_trailing_timer ops : ∀ s,
  trailing_timer s → trailing_timer (throttle_run ops s).
Proof.
  induction ops as [|[t o] ops IH]; intros s Hs; [done|].
  cbn [throttle_run]. by apply IH, op_trailing_timer, advance_trailing_timer.
Qed.

Lemma create_trailing_timer hs ts w :
  hs = Exact ∨ (0 ≤ ts)%Z ∧ (wait ≤ TIMEOUT_MAX)%Z →
  trailing_timer (Throttle.create (fresh hs ts) w).
Proof.
  intros Hk. split; [done|]. split; [|by left].
  destruct Hk as [->|[Hts Hw]]; [by left|right].
  split; [by apply keeps_in_range|done].
Qed.

Lemma cancel_cancelled s :
  one_trailing s → pending (Throttle.timers s) ≠ [] → cancelled (Throttle.cancel s).
Proof.
  intros [Hn Hs] Hne. destruct Hs as [Hp|(t & Hp & Htid & Hh)]; [done|].
  unfold Throttle.cancel, cancelled. rewrite Htid.
  destruct (handle t) as [|h] eqn:E; [done|]. cbn. rewrite Hp. cbn. rewrite E.
  rewrite decide_False by (intros H; by apply H). by rewrite Htid.
Qed.

Lemma advance_cancelled T s :
  cancelled s →
  cancelled (Throttle.advance callback T s)
  ∧ Throttle.world (Throttle.advance callback T s) = Throttle.world s.
Proof.
  intros [Hp Ht]. unfold Throttle.advance, Timers.advance.
  case_decide; [|done]. rewrite Hp. cbn. done.
Qed.

Lemma op_cancelled o s : cancelled s → cancelled (throttle_op o s).
Proof.
  intros [Hp Ht]. destruct o as [args| |]; cbn [throttle_op]; [| |done].
  - unfold Throttle.throttledFn. case_decide; [done|]. by rewrite Ht.
  - unfold Throttle.cancel, cancelled.
    destruct (Throttle.timeoutId s) as [[|h]|] eqn:E; try done. cbn.
    rewrite Hp, E. done.
Qed.

Lemma run_cancelled ops : ∀ s, cancelled s → cancelled (throttle_run ops s).
Proof.
  induction ops as [|[t o] ops IH]; intros s Hs; [done|].
  cbn [throttle_run]. apply IH, op_cancelled. by apply advance_cancelled.
Qed.
End ThrottleOps.

Section ThrottleRate.
Context {Args : Type} (wait : Z).

(** The recorded runs are [wait] apart, and none is later than [lastTime]. *)
Definition rate_ok (s : Throttle.throttled Args (list (Z * Args))) : Prop :=
  spaced wait (Throttle.world s).*1
  ∧ ∀ ta, last (Throttle.world s) = Some ta → (ta.1 ≤ Throttle.lastTime s)%Z.

Lemma spaced_snoc (l : list Z) (t : Z) :
  spaced wait l → (∀ a, last l = Some a → (a + wait ≤ t)%Z) → spaced wait (l ++ [t]).
Proof.
  intros Hl Ht i a b Ha Hb.
  apply lookup_snoc_Some in Hb as [[Hlt Hb]|[Hi <-]].
  - rewrite lookup_app_l in Ha by lia. by eapply Hl.
  - rewrite lookup_app_l in Ha by lia. apply Ht.
    rewrite last_lookup, <- Hi. done.
Qed.

Lemma rate_ok_record (s : Throttle.throttled Args (list (Z * Args))) t a lt tid f :
  rate_ok s → (Throttle.lastTime s + wait ≤ t)%Z → (t ≤ lt)%Z →
  rate_ok {| Throttle.lastTime := lt; Throttle.timeoutId := tid;
             Throttle.timers := f; Throttle.world := record t a (Throttle.world s) |}.
Proof.
  intros [Hs Hl] Ht Hlt. unfold rate_ok, record. cbn. split.
  - rewrite fmap_app. apply spaced_snoc; [done|].
    intros b Hb. rewrite fmap_last in Hb.
    destruct (last (Throttle.world s)) as [tb|] eqn:E; [|done].
    injection Hb as <-. specialize (Hl tb eq_refl). cbn. lia.
  - intros ta. rewrite last_snoc. intros [= <-]. done.
Qed.

Lemma advance_rate_ok T (s : Throttle.throttled Args (list (Z * Args))) :
  trailing_timer wait s → rate_ok s → rate_ok (Throttle.advance record T s).
Proof.
  intros (Hn & Hk & Hs) Hr. unfold Throttle.advance, Timers.advance.
  case_decide as HT; [|done].
  destruct Hs as [Hp|(t & Hp & Htid & Hh & Hdue & Hnow)]; rewrite Hp; cbn.
  - done.
  - unfold next_due. rewrite Hp. cbn. case_decide as Hd; cbn; [|done].
    unfold Throttle.fire. cbn.
    pose proof (rate_ok_record s (due t) (job t) (due t) None
      (at_time T (fired t (Throttle.timers s))) Hr ltac:(lia) ltac:(lia)) as H.
    done.
Qed.

Lemma op_rate_ok o (s : Throttle.throttled Args (list (Z * Args))) :
  rate_ok s → rate_ok (throttle_op record wait o s).
Proof.
  intros Hr. destruct o as [args| |]; cbn [throttle_op]; [| |done].
  - unfold Throttle.throttledFn. case_decide as Hl.
    + apply (rate_ok_record s); [done|lia|lia].
    + destruct (negb (truthy (Throttle.timeoutId s))); done.
  - unfold Throttle.cancel.
    destruct (Throttle.timeoutId s) as [h|]; [|done].
    destruct (truthy (Some h)); done.
Qed.

Lemma run_rate_ok ops : ∀ s : Throttle.throttled Args (list (Z * Args)),
  trailing_timer wait s → rate_ok s → rate_ok (throttle_run record wait ops s).
Proof.
  induction ops as [|[t o] ops IH]; intros s Hs Hr; [done|].
  cbn [throttle_run]. apply IH.
  - by apply op_trailing_timer, advance_trailing_timer.
  - by apply op_rate_ok, advance_rate_ok.
Qed.
End ThrottleRate.

(** *** debounce *)

(** One timer per debounced function: whatever calls, [cancel]s and passing
    of time a debounced function made on a fresh timer facility of any host
    goes through, at most one timer is pending. *)
Theorem debounce_at_most_one_timer :
  ∀ (Args World : Type) (callback : Z → Args → World → World) (hs : host)
    (wait ts : Z) (w0 : World) (ops : list (Z * op Args)),
    (length (pending (Debounce.timers
       (debounce_run callback wait ops (Debounce.create (fresh hs ts) w0)))) ≤ 1)%nat.
Proof.
  intros Args World callback hs wait ts w0 ops.
  destruct (run_one_timer callback wait ops (Debounce.create (fresh hs ts) w0))
    as [->|(t & -> & _)]; cbn; try lia.
  - by left.
  - done.
Qed.

(** [cancel] drops the call that is waiting: after [cancel], in any state
    the debounced function can be in, no timer is pending, and however much
    time passes the callback does not run. *)
Theorem debounce_cancel_drops_pending_call :
  ∀ (Args World : Type) (callback : Z → Args → World → World) (hs : host)
    (wait ts : Z) (w0 : World) (ops : list (Z * op Args)) (T : Z),
    let d := debounce_run callback wait ops (Debounce.create (fresh hs ts) w0) in
    pending (Debounce.timers (Debounce.cancel d)) = []
    ∧ Debounce.world (Debounce.advance callback T (Debounce.cancel d))
      = Debounce.world d.
Proof.
  intros Args World callback hs wait ts w0 ops T d.
  assert (pending (Debounce.timers (Debounce.cancel d)) = []) as Hc.
  { apply cancel_no_timer, (run_one_timer callback); [by left|done]. }
  split; [done|]. by rewrite advance_no_timer.
Qed.

(** Calls that are not within [wait] of one another are not collapsed: with
    a delay [wait] from 1 to 2^31 - 1 ms, on any host whose timers fire at
    their due time, when each call comes more than [wait] after the one
    before, every call runs the callback, [wait] after the call and with its
    arguments, in the order of the calls. *)
Theorem debounce_spaced_calls_all_fire :
  ∀ (Args World : Type) (callback : Z → Args → World → World) (hs : host)
    (wait ts t0 : Z) (a0 : Args) (calls : list (Z * Args)) (T : Z) (w0 : World),
    (1 ≤ wait ≤ TIMEOUT_MAX)%Z → (ts ≤ t0)%Z → apart wait t0 calls →
    Forall (λ ta, (ta.1 + wait ≤ T)%Z) ((t0, a0) :: calls) →
    Debounce.world
      (Debounce.advance callback T
         (debounce_run callback wait (invoke_all ((t0, a0) :: calls))
            (Debounce.create (fresh hs ts) w0)))
    = each_fired callback wait ((t0, a0) :: calls) w0.
Proof.
  intros Args World callback hs wait ts t0 a0 calls T w0 Hw Hts Ha HT.
  pose proof (delay_kept_in_range hs wait Hw) as Hk.
  change (invoke_all ((t0, a0) :: calls)) with ((t0, Invoke a0) :: invoke_all calls).
  cbn [debounce_run debounce_op].
  change (Debounce.create (fresh hs ts) w0)
    with (@Debounce.quiet Args World hs None 0 ts w0).
  rewrite Debounce.call_quiet by done.
  destruct (run_apart callback wait hs calls 0 t0 a0 t0 w0 Hk ltac:(lia) Ha)
    as (h' & tc' & args' & tp' & -> & Hl & Hp').
  assert ((tc' + wait ≤ T)%Z) as HT'.
  { rewrite Forall_forall in HT. apply (HT (tc', args')).
    rewrite last_lookup in Hl. by eapply list_elem_of_lookup_2. }
  rewrite Debounce.advance_armed_late by lia.
  unfold Debounce.quiet. cbn [Debounce.world].
  assert ((t0, a0) :: calls = removelast ((t0, a0) :: calls) ++ [(tc', args')]) as Hs.
  { rewrite (app_removelast_last (t0, a0)) at 1 by done. f_equal. f_equal.
    rewrite last_lookup in Hl. symmetry.
    assert (∀ (l : list (Z * Args)) d x, l !! Init.Nat.pred (length l) = Some x →
              List.last l d = x) as Hlast.
    { induction l as [|y [|z l] IH]; intros d x; [done|by intros [= ->]|].
      intros Hx. apply (IH d x Hx). }
    symmetry. by apply Hlast. }
  transitivity (each_fired callback wait
                  (removelast ((t0, a0) :: calls) ++ [(tc', args')]) w0);
    [|by rewrite <- Hs].
  unfold each_fired. by rewrite fold_left_app.
Qed.

(** Three calls 600 and 700 ms apart, with a delay of 500 ms: three runs. *)
Lemma debounce_spaced_calls_all_fire_witness :
  Debounce.world
    (Debounce.advance record 2000
       (debounce_run record 500
          (invoke_all [(0%Z, "A"); (600%Z, "B"); (1300%Z, "C")])
          (Debounce.create (fresh Node 0) [])))
  = [(500%Z, "A"); (1100%Z, "B"); (1800%Z, "C")].
Proof.
  apply (debounce_spaced_calls_all_fire string (list (Z * string)) record Node
           500%Z 0%Z 0%Z "A" [(600%Z, "B"); (1300%Z, "C")] 2000%Z []).
  - unfold TIMEOUT_MAX. lia.
  - lia.
  - cbn. lia.
  - repeat constructor; cbn; lia.
Defined.


(** *** throttle *)

(** The throttle bound: with timers that fire at their due time, whatever
    calls, [cancel]s and passing of time a throttled function goes through,
    two consecutive runs of its callback are at least [wait] apart.  So it
    is for any interval on the timer facility of the specification, which
    keeps the delay it is asked for; and on every host for an interval up to
    2^31 - 1 ms, when the clock starts at 0 or later. *)
Theorem throttle_rate_bound :
  (∀ (Args : Type) (wait ts : Z) (ops : list (Z * op Args)),
     spaced wait
       (Throttle.world
          (throttle_run record wait ops (Throttle.create (fresh Exact ts) []))).*1)
  ∧ (∀ (Args : Type) (hs : host) (wait ts : Z) (ops : list (Z * op Args)),
       (0 ≤ ts)%Z → (wait ≤ TIMEOUT_MAX)%Z →
       spaced wait
         (Throttle.world
            (throttle_run record wait ops (Throttle.create (fresh hs ts) []))).*1).
Proof.
  split.
  - intros Args wait ts ops.
    apply (run_rate_ok wait ops (Throttle.create (fresh Exact ts) [])).
    + apply create_trailing_timer. by left.
    + split; [by intros i a b|by intros ta].
  - intros Args hs wait ts ops Hts Hw.
    apply (run_rate_ok wait ops (Throttle.create (fresh hs ts) [])).
    + apply create_trailing_timer. by right.
    + split; [by intros i a b|by intros ta].
Qed.

(** On Node, with an interval of 1000 ms: calls at 5000, 5100, 5200 and
    6300 ms. *)
Lemma throttle_rate_bound_witness :
  spaced 1000
    (Throttle.world
       (throttle_run record 1000
          [(5000%Z, Invoke "A"); (5100%Z, Invoke "B"); (5200%Z, Invoke "C");
           (6300%Z, Invoke "D"); (9000%Z, Tick)]
          (Throttle.create (fresh Node 5000) []))).*1.
Proof.
  apply (proj2 throttle_rate_bound string Node 1000%Z 5000%Z).
  - lia.
  - unfold TIMEOUT_MAX. lia.
Defined.

(** One timer per throttled function: on any host at most one timer is
    pending at any time; and it is due exactly [wait] after the last run of
    the callback, for any interval on the timer facility of the
    specification, and on every host for an interval up to 2^31 - 1 ms when
    the clock starts at 0 or later. *)
Theorem throttle_at_most_one_timer :
  (∀ (Args World : Type) (callback : Z → Args → World → World) (hs : host)
     (wait ts : Z) (w0 : World) (ops : list (Z * op Args)),
     let s := throttle_run callback wait ops (Throttle.create (fresh hs ts) w0) in
     (length (pending (Throttle.timers s)) ≤ 1)%nat)
  ∧ (∀ (Args World : Type) (callback : Z → Args → World → World) (wait ts : Z)
       (w0 : World) (ops : list (Z * op Args)),
       let s := throttle_run callback wait ops (Throttle.create (fresh Exact ts) w0) in
       ∀ t, t ∈ pending (Throttle.timers s) → due t = (Throttle.lastTime s + wait)%Z)
  ∧ (∀ (Args World : Type) (callback : Z → Args → World → World) (hs : host)
       (wait ts : Z) (w0 : World) (ops : list (Z * op Args)),
       (0 ≤ ts)%Z → (wait ≤ TIMEOUT_MAX)%Z →
       let s := throttle_run callback wait ops (Throttle.create (fresh hs ts) w0) in
       ∀ t, t ∈ pending (Throttle.timers s) → due t = (Throttle.lastTime s + wait)%Z).
Proof.
  assert (∀ (Args World : Type) (callback : Z → Args → World → World) (hs : host)
            (wait ts : Z) (w0 : World) (ops : list (Z * op Args)),
            hs = Exact ∨ (0 ≤ ts)%Z ∧ (wait ≤ TIMEOUT_MAX)%Z →
            let s := throttle_run callback wait ops (Throttle.create (fresh hs ts) w0) in
            ∀ t, t ∈ pending (Throttle.timers s) →
                 due t = (Throttle.lastTime s + wait)%Z) as Hdue.
  { intros Args World callback hs wait ts w0 ops Hk s.
    destruct (run_trailing_timer callback wait ops (Throttle.create (fresh hs ts) w0)
                (create_trailing_timer wait hs ts w0 Hk)) as (_ & _ & Hs).
    fold s in Hs. destruct Hs as [->|(t & -> & _ & _ & Hd & _)].
    - by intros t Ht%elem_of_nil.
    - by intros t' ->%list_elem_of_singleton. }
  split; [|split].
  - intros Args World callback hs wait ts w0 ops s.
    destruct (run_one_trailing callback wait ops (Throttle.create (fresh hs ts) w0)
                (create_one_trailing hs ts w0)) as [_ Hs].
    fold s in Hs. destruct Hs as [->|(t & -> & _)]; cbn; lia.
  - intros Args World callback wait ts w0 ops. apply Hdue. by left.
  - intros Args World callback hs wait ts w0 ops Hts Hw. apply Hdue. by right.
Qed.

(** In a browser, with an interval of 1000 ms: after a run at 5000 ms and a
    call at 5100 ms the timer that is pending is due at 6000 ms. *)
Lemma throttle_at_most_one_timer_witness :
  let s := throttle_run record 1000 [(5000%Z, Invoke "A"); (5100%Z, Invoke "B")]
             (Throttle.create (fresh Browser 5000) []) in
  pending (Throttle.timers s) = [{| handle := 1; due := 6000; job := "B" |}]
  ∧ Forall (λ t, due t = 6000%Z) (pending (Throttle.timers s)).
Proof.
  split; [reflexivity|].
  apply Forall_forall. intros t Ht.
  apply (proj2 (proj2 throttle_at_most_one_timer) string (list (Z * string)) record
           Browser 1000%Z 5000%Z [] [(5000%Z, Invoke "A"); (5100%Z, Invoke "B")]).
  - lia.
  - unfold TIMEOUT_MAX. lia.
  - exact Ht.
Defined.

(** [cancel] leaves [timeoutId] set.  So once a throttled function has been
    cancelled while its trailing timer was pending, it never sets a timer
    again: whatever calls follow, no timer is pending, and the passing of
    time never runs the callback (a call made less than [wait] after a run
    is dropped for good). *)
Theorem throttle_cancel_disables_trailing :
  ∀ (Args World : Type) (callback : Z → Args → World → World) (hs : host)
    (wait ts : Z) (w0 : World) (ops ops' : list (Z * op Args)) (T : Z),
    let s := throttle_run callback wait ops (Throttle.create (fresh hs ts) w0) in
    pending (Throttle.timers s) ≠ [] →
    let s' := throttle_run callback wait ops' (Throttle.cancel s) in
    pending (Throttle.timers s') = []
    ∧ Throttle.world (Throttle.advance callback T s') = Throttle.world s'.
Proof.
  intros Args World callback hs wait ts w0 ops ops' T s Hp s'.
  assert (cancelled s') as Hc.
  { apply run_cancelled, cancel_cancelled; [|done].
    apply run_one_trailing, create_one_trailing. }
  split; [apply Hc|]. by apply advance_cancelled.
Qed.

(** An interval of 1000 ms: a run at 5000 ms, a trailing timer set at 5100
    ms, cancelled; the call at 6500 ms runs at once, the call at 6600 ms is
    dropped, and no timer is left to run it. *)
Lemma throttle_cancel_disables_trailing_witness :
  let s := throttle_run record 1000 [(5000%Z, Invoke "A"); (5100%Z, Invoke "B")]
             (Throttle.create (fresh Node 5000) []) in
  let s' := throttle_run record 1000 [(6500%Z, Invoke "C"); (6600%Z, Invoke "D")]
              (Throttle.cancel s) in
  pending (Throttle.timers s') = []
  ∧ Throttle.world (Throttle.advance record 9000 s') = Throttle.world s'.
Proof.
  apply (throttle_cancel_disables_trailing string (list (Z * string)) record Node
           1000%Z 5000%Z [] [(5000%Z, Invoke "A"); (5100%Z, Invoke "B")]
           [(6500%Z, Invoke "C"); (6600%Z, Invoke "D")] 9000%Z).
  vm_compute. discriminate.
Defined.

End Schedulers.

(** ** More on the three pages of chapter 14
       (src/components/chapter-14/index.tsx) *)
Module Pages.
Import Chapter14.

(** While the fetch of the latest effect run is pending, a mounted page
    shows its loading state. *)
Definition loading_while_pending (p : Page) : Prop :=
  mounted p = true →
  ∀ r, requests p !! latest p = Some r → state (fetch r) = Pending →
       loading p = true.

(** A mounted page whose current id is not in the table is loading. *)
Definition loading_off_table (p : Page) : Prop :=
  mounted p = true → issuesData !! props_id p = None → loading p = true.

Lemma render_loading sol id p :
  mounted p = true → id ≠ props_id p → loading (render sol id p).1 = true.
Proof.
  intros Hm Hid. unfold render. rewrite Hm. rewrite decide_False by done.
  destruct (run_cleanup sol (with_props_id id p)) as [p1 c1] eqn:E1.
  pose proof (run_cleanup_frame sol (with_props_id id p)) as (_ & Hm1 & _).
  rewrite E1 in Hm1. cbn in Hm1.
  destruct (effect sol id p1) as [p2 c2] eqn:E2. cbn.
  replace p2 with (effect sol id p1).1 by by rewrite E2.
  destruct sol; unfold_effect; by rewrite Hm1, Hm.
Qed.

Lemma step_loading_while_pending sol p e :
  sol ≠ ref → inv sol p → loading_while_pending p →
  loading_while_pending (step sol p e).1.
Proof.
  intros Hsol Hinv HL. destruct e as [k|n|]; cbn [step].
  - destruct (mounted p) eqn:Hm; [|by rewrite render_unmounted].
    destruct (decide (k = props_id p)) as [->|Hk]; [by rewrite render_same|].
    intros _ r _ _. by apply render_loading.
  - intros Hm' r' Hr' Hp'.
    pose proof (step_mounted sol p (Timeout n) Hm') as Hm.
    destruct (timer_fires_frame sol n p) as (_ & _ & Hreq).
    specialize (Hreq ltac:(cbn in Hm'; congruence)). unfold latest in Hr'.
    destruct (requests p !! n) as [r|] eqn:Hr.
    + rewrite Hreq, length_insert in Hr'. fold (latest p) in Hr'.
      destruct Hinv as (Hne & Href & Hall & Hlast).
      destruct (Hall n r Hr) as (Hok & _).
      destruct (on_timeout_ok sol _ Hok) as (_ & Hnp & _).
      apply list_lookup_insert_Some in Hr' as [(_ & <- & _)|(Hnl & Hr')]; [done|].
      destruct (timer_fires_cases sol n p)
        as [_ _ Hl _|r0 Hr0 Hp0 Hg _ _ _ _|r0 _ _ _ _ _ _ Hm0 _ _].
      * rewrite Hl. by apply (HL Hm r').
      * rewrite Hr in Hr0. injection Hr0 as <-.
        destruct (guard_latest sol p n r _ (conj Hne (conj Href (conj Hall Hlast)))
                    Hsol Hr Hp0 Hg) as (_ & ? & _). done.
      * cbn in Hm'. congruence.
    + rewrite Hreq in Hr'. unfold timer_fires. rewrite Hr. cbn.
      by apply (HL Hm r').
  - intros Hm. by destruct (unmount_data sol p) as (_ & _ & Hu & _); rewrite Hu in Hm.
Qed.

Lemma run_loading_while_pending sol es : ∀ pc,
  sol ≠ ref → inv sol pc.1 → loading_while_pending pc.1 →
  loading_while_pending (run sol pc es).1.
Proof.
  induction es as [|e es IH]; intros pc Hsol Hinv HL; [done|].
  cbn [run]. pose proof (inv_step sol pc.1 e Hinv) as Hi.
  pose proof (step_loading_while_pending sol pc.1 e Hsol Hinv HL) as Hl.
  destruct (step sol pc.1 e) as [p' c']. by apply IH.
Qed.

Lemma step_loading_off_table p e :
  inv ref p → loading_off_table p →
  loading_off_table (step ref p e).1
  ∧ (mounted p = true → issuesData !! props_id p = None →
     ∀ n, e = Timeout n → (step ref p e).2 = []).
Proof.
  intros Hinv HL. destruct e as [k|n|]; cbn [step].
  - split; [|done]. destruct (mounted p) eqn:Hm; [|by rewrite render_unmounted].
    destruct (decide (k = props_id p)) as [->|Hk]; [by rewrite render_same|].
    intros _ _. by apply render_loading.
  - destruct (timer_fires_frame ref n p) as (Hid & _).
    pose proof (timer_fires_ref_mounted n p) as Hm.
    assert (mounted p = true → issuesData !! props_id p = None →
            (timer_fires ref n p).2 = []
            ∧ loading (timer_fires ref n p).1 = loading p) as Hno.
    { intros Hmt Hoff.
      assert (∀ r, requests p !! n = Some r →
                ¬ guard ref p r (issuesData_at (fetch_id (fetch r)))) as Hng.
      { intros r Hr Hg. apply guard_ref in Hg as [[i Hi] Hk].
        destruct Hinv as (_ & Href & _). rewrite (Href eq_refl) in Hk.
        rewrite Hk in Hi. congruence. }
      destruct (timer_fires_cases ref n p)
        as [Hc _ Hl _|r Hr Hp Hg _ _ _ _|r Hr Hp Hg _ _ _ _ _ _]; [done|..];
        by destruct (Hng r Hr). }
    split.
    + intros Hm' Hoff. rewrite Hm in Hm'. rewrite Hid in Hoff.
      destruct (Hno Hm' Hoff) as [_ ->]. by apply HL.
    + intros Hmt Hoff n' _. by apply Hno.
  - split; [|done].
    intros Hm. by destruct (unmount_data ref p) as (_ & _ & Hu & _); rewrite Hu in Hm.
Qed.

Lemma run_loading_off_table es : ∀ pc,
  inv ref pc.1 → loading_off_table pc.1 → loading_off_table (run ref pc es).1.
Proof.
  induction es as [|e es IH]; intros pc Hinv HL; [done|].
  cbn [run]. pose proof (inv_step ref pc.1 e Hinv) as Hi.
  destruct (step_loading_off_table pc.1 e Hinv HL) as [Hl _].
  destruct (step ref pc.1 e) as [p' c']. by apply IH.
Qed.

Lemma mount_loading sol id : loading (mount sol id).1 = true.
Proof. unfold mount. by destruct sol. Qed.

(** [PageWithAbort] really cancels: on every trace, a fetch that is not the
    one of the latest effect run, and any fetch of an unmounted page, has
    its timer cleared and its promise settled.  So at most one fetch is in
    flight. *)
Theorem abort_cancels_superseded_fetches (id : string) (es : list event)
    (n : nat) (r : Request) :
  let p := (DemoApp abort id es).1 in
  requests p !! n = Some r →
  n ≠ latest p ∨ mounted p = false →
  timeout (fetch r) = false ∧ state (fetch r) ≠ Pending.
Proof.
  intros p Hr Hn. destruct (inv_DemoApp abort id es) as (_ & _ & Hall & _).
  fold p in Hall. destruct (Hall n r Hr) as ((_ & Ht & _) & _ & Ha).
  assert (state (fetch r) ≠ Pending) as Hp.
  { intros Hp. destruct (Ha eq_refl Hp) as [Hm Hl].
    destruct Hn as [Hn|Hn]; [done|congruence]. }
  split; [|done]. destruct (timeout (fetch r)) eqn:E; [|done].
  exfalso. by apply Hp, Ht.
Qed.

(** After keys 1, 2 and 3 the fetch for 1 is cancelled. *)
Lemma abort_cancels_superseded_fetches_witness :
  let r := {| fetch := on_abort (simulateFetch "1" true); isActive := true |} in
  timeout (fetch r) = false ∧ state (fetch r) ≠ Pending.
Proof.
  intros r.
  apply (abort_cancels_superseded_fetches "1" [Render "2"; Render "3"] 0 r).
  - vm_compute. reflexivity.
  - left. vm_compute. discriminate.
Defined.

(** [PageWithCleanup] and [PageWithAbort] show the loading state for as
    long as the fetch for the current id is in flight: on every trace, if
    the page is mounted and the fetch of its latest effect run is pending,
    [loading] is true, whatever older fetches have resolved meanwhile. *)
Theorem loading_until_current_fetch_settles (sol : Solution) (id : string)
    (es : list event) (r : Request) :
  sol ≠ ref →
  let p := (DemoApp sol id es).1 in
  mounted p = true → requests p !! latest p = Some r → state (fetch r) = Pending →
  loading p = true.
Proof.
  intros Hsol p Hm Hr Hp.
  assert (loading_while_pending p) as HL.
  { apply (run_loading_while_pending sol es (mount sol id) Hsol).
    - apply inv_mount.
    - intros _ _ _ _. apply mount_loading. }
  by apply (HL Hm r).
Qed.

(** Key 1, then key 2; the fetch for 1 resolves: still loading. *)
Lemma loading_until_current_fetch_settles_witness :
  loading (DemoApp cleanup "1" [Render "2"; Timeout 0]).1 = true.
Proof.
  apply (loading_until_current_fetch_settles cleanup "1" [Render "2"; Timeout 0]
           {| fetch := simulateFetch "2" false; isActive := true |});
    [discriminate|vm_compute; reflexivity..].
Defined.

(** A key that is missing from [issuesData]: [PageWithRefComparison] never
    leaves the loading state.  The result is [undefined], or an inherited
    property that has no [id]: reading [result.id.split] throws in the [then]
    callback, so on every trace, while the page is mounted with a current id
    that is not in the table, [loading] is true and no firing of a timer
    commits anything. *)
Theorem ref_page_loads_forever_off_table (id : string) (es : list event) (n : nat) :
  let p := (DemoApp ref id es).1 in
  mounted p = true → issuesData !! props_id p = None →
  loading p = true ∧ (step ref p (Timeout n)).2 = [].
Proof.
  intros p Hm Hoff.
  pose proof (inv_DemoApp ref id es) as Hinv. fold p in Hinv.
  assert (loading_off_table p) as HL.
  { apply (run_loading_off_table es (mount ref id)).
    - apply inv_mount.
    - intros _ _. apply mount_loading. }
  split; [by apply HL|].
  destruct (step_loading_off_table p (Timeout n) Hinv HL) as [_ Hno].
  by apply (Hno Hm Hoff n).
Qed.

(** Key 1, then the unknown key 9; both fetches resolve: still loading, and
    the entry of key 1 was committed before. *)
Lemma ref_page_loads_forever_off_table_witness :
  let p := (DemoApp ref "1" [Timeout 0; Render "9"; Timeout 1]).1 in
  loading p = true ∧ (step ref p (Timeout 1)).2 = [].
Proof.
  apply (ref_page_loads_forever_off_table "1" [Timeout 0; Render "9"; Timeout 1] 1);
    vm_compute; reflexivity.
Defined.

End Pages.

(** ** The page with the race condition and its log
       (src/components/chapter-14/index.tsx, first part)

    [Page] has no guard and no cleanup; [simulateFetch] takes no signal and
    writes to the console; [RaceConditionApp] replaces [console.log] to
    show the messages.  The state of the page is the record of the pages
    above (its ref and [isActive] fields are not used). *)
Module RaceCondition.
Import Chapter14.

(** [s.includes(sub)] *)
Fixpoint includes (sub s : string) : bool :=
  String.prefix sub s ||
  match s with
  | EmptyString => false
  | String _ s' => includes sub s'
  end.

(** The three messages; [ms] is [Math.round(delay)]. *)
Definition started (id : string) (ms : nat) : string :=
  "[Fetch] Started for Issue " +:+ id +:+ " (will take " +:+ pretty ms +:+ "ms)".

Definition completed (id : string) : string :=
  "[Fetch] Completed for Issue " +:+ id.

Definition setting (issue_id : string) : string :=
  "[State] Setting data for Issue " +:+ issue_id.

(** *** Page: state and the messages passed to [console.log], in order *)

Definition Page_effect (id : string) (ms : nat) (p : Page) : Page * list string :=
  let p := setLoading true p in
  (issue (simulateFetch id false) p, [started id ms]).

(** The [then] callback.  On [undefined] (and on [null]), [result.id]
    throws while the message is built: nothing is logged and nothing is set.
    Any other value that is not an issue has no [id], and the message reads
    "undefined". *)
Definition Page_then (result : value) (p : Page) : Page * list string :=
  match result with
  | Null | Undefined => (p, [])
  | Obj r => (setLoading false (setData result p), [setting (issue_id r)])
  | _ => (setLoading false (setData result p), [setting "undefined"])
  end.

Definition Page_mount (id : string) (ms : nat) : Page * list string :=
  Page_effect id ms
    {| props_id := id; data := Null; loading := true; currentIdRef := id;
       requests := []; mounted := true |}.

Definition Page_render (id : string) (ms : nat) (p : Page) : Page * list string :=
  if mounted p then
    if decide (id = props_id p) then (p, [])
    else Page_effect id ms (with_props_id id p)
  else (p, []).

(** The timer of fetch [n] fires (once; nothing clears it). *)
Definition Page_timer_fires (n : nat) (p : Page) : Page * list string :=
  match requests p !! n with
  | Some r =>
      if timeout (fetch r) then
        let f' := on_timeout (fetch r) in
        let p' := with_requests (<[n := with_fetch f' r]> (requests p)) p in
        match state (fetch r), state f' with
        | Pending, Fulfilled v =>
            let '(p'', ms) := Page_then v p' in
            (p'', completed (fetch_id (fetch r)) :: ms)
        | _, _ => (p', [completed (fetch_id (fetch r))])
        end
      else (p, [])
  | None => (p, [])
  end.

(** The [then] callback of fetch [n] passes to [setData] a function that
    throws on the state of the page. *)
Definition Page_throws (n : nat) (p : Page) : bool :=
  match requests p !! n with
  | Some r =>
      timeout (fetch r) && bool_decide (state (fetch r) = Pending)
      && throws (issuesData_at (fetch_id (fetch r))) p
  | None => false
  end.

(** *** RaceConditionApp *)

Record App := {
  child : Page;               (* <Page id={page} />; [props_id] is [page] *)
  log : list string;          (* useState([]) *)
  overridden : bool;          (* console.log is the function of the effect *)
  console : list string       (* what reached the original console.log *)
}.

Definition with_child (p : Page) (a : App) : App :=
  {| child := p; log := log a; overridden := overridden a; console := console a |}.

Definition setLog (l : list string) (a : App) : App :=
  if mounted (child a) then
    {| child := child a; log := l; overridden := overridden a; console := console a |}
  else a.

(** [prev.slice(-10)] *)
Definition slice_last (k : nat) (prev : list string) : list string :=
  drop (length prev - k) prev.

Definition console_log (message : string) (a : App) : App :=
  let a := {| child := child a; log := log a; overridden := overridden a;
              console := console a ++ [message] |} in
  if overridden a && includes "[" message
  then setLog (slice_last 10 (log a) ++ [message]) a
  else a.

Definition logs (pm : Page * list string) (a : App) : App :=
  fold_left (λ a m, console_log m a) pm.2 (with_child pm.1 a).

(** The effect of the page runs before the effect of the app that holds
    it, so the first message is written before [console.log] is replaced. *)
Definition mount (id : string) (ms : nat) : App :=
  let a := logs (Page_mount id ms)
             {| child := (Page_mount id ms).1; log := []; overridden := false;
                console := [] |} in
  {| child := child a; log := log a; overridden := true; console := console a |}.

Inductive event :=
  | SetPage (id : string) (ms : nat)   (* a tab button; the delay drawn if a fetch starts *)
  | Timeout (n : nat)                  (* the timer of fetch n fires *)
  | ClearLog
  | Unmount.

Definition unmount (a : App) : App :=
  if mounted (child a) then
    {| child := with_mounted false (child a); log := log a; overridden := false;
       console := console a |}
  else a.

(** When the function given to [setData] throws, the page throws when
    React renders it; the app holds no error boundary, so React takes the
    app down with the page. *)
Definition step (a : App) (e : event) : App :=
  match e with
  | SetPage id ms => logs (Page_render id ms (child a)) a
  | Timeout n =>
      let a' := logs (Page_timer_fires n (child a)) a in
      if Page_throws n (child a) then unmount a' else a'
  | ClearLog => setLog [] a
  | Unmount => unmount a
  end.

Definition run (a : App) (es : list event) : App := fold_left step es a.

Definition RaceConditionApp (id : string) (ms : nat) (es : list event) : App :=
  run (mount id ms) es.

(** A pending fetch has its timer set. *)
Definition pending_armed (p : Page) : Prop :=
  ∀ n r, requests p !! n = Some r → state (fetch r) = Pending →
         timeout (fetch r) = true.

(** While the app is mounted, [console.log] is replaced. *)
Definition capturing (a : App) : Prop :=
  mounted (child a) = true → overridden a = true.

(** ** Lemmas *)

Lemma console_log_child m a : child (console_log m a) = child a.
Proof.
  unfold console_log, setLog. cbn.
  by destruct (overridden a && includes "[" m), (mounted (child a)).
Qed.

Lemma console_log_overridden m a : overridden (console_log m a) = overridden a.
Proof.
  unfold console_log, setLog. cbn.
  by destruct (overridden a && includes "[" m), (mounted (child a)).
Qed.

Lemma fold_console_log_child ms : ∀ a,
  child (fold_left (λ a m, console_log m a) ms a) = child a.
Proof.
  induction ms as [|m ms IH]; intros a; [done|].
  cbn. by rewrite IH, console_log_child.
Qed.

Lemma fold_console_log_overridden ms : ∀ a,
  overridden (fold_left (λ a m, console_log m a) ms a) = overridden a.
Proof.
  induction ms as [|m ms IH]; intros a; [done|].
  cbn. by rewrite IH, console_log_overridden.
Qed.

Lemma logs_child pm a : child (logs pm a) = pm.1.
Proof. unfold logs. by rewrite fold_console_log_child. Qed.

Lemma logs_overridden pm a : overridden (logs pm a) = overridden a.
Proof. unfold logs. by rewrite fold_console_log_overridden. Qed.

(** The log never holds more than eleven entries. *)
Lemma slice_last_length k l : (length (slice_last k l) ≤ k)%nat.
Proof. unfold slice_last. rewrite length_drop. lia. Qed.

Lemma console_log_bound m a :
  (length (log a) ≤ 11)%nat → (length (log (console_log m a)) ≤ 11)%nat.
Proof.
  intros H. unfold console_log, setLog. cbn.
  destruct (overridden a && includes "[" m); [|done].
  destruct (mounted (child a)); [|done]. cbn.
  rewrite length_app. change (length [m]) with 1.
  pose proof (slice_last_length 10 (log a)). unfold slice_last in *. lia.
Qed.

Lemma logs_bound pm a : (length (log a) ≤ 11)%nat → (length (log (logs pm a)) ≤ 11)%nat.
Proof.
  unfold logs. intros H.
  assert ((length (log (with_child pm.1 a)) ≤ 11)%nat) as H0 by done.
  revert H0. generalize (with_child pm.1 a). clear.
  induction pm.2 as [|m ms IH]; intros a0 H0; [done|].
  cbn. by apply IH, console_log_bound.
Qed.

Lemma unmount_log a : log (unmount a) = log a ∧ console (unmount a) = console a.
Proof. unfold unmount. by destruct (mounted (child a)). Qed.

Lemma step_bound a e : (length (log a) ≤ 11)%nat → (length (log (step a e)) ≤ 11)%nat.
Proof.
  intros H. destruct e; cbn [step]; try by apply logs_bound.
  - destruct (Page_throws _ _); [|by apply logs_bound].
    destruct (unmount_log (logs (Page_timer_fires n (child a)) a)) as [-> _].
    by apply logs_bound.
  - unfold setLog. destruct (mounted (child a)); cbn; [lia|done].
  - by destruct (unmount_log a) as [-> _].
Qed.

(** Each message of the page passes the test [message.includes("[")]. *)
Lemma started_includes id ms : includes "[" (started id ms) = true.
Proof. done. Qed.

Lemma completed_includes id : includes "[" (completed id) = true.
Proof. done. Qed.

Lemma setting_includes i : includes "[" (setting i) = true.
Proof. done. Qed.

Definition bracketed (ms : list string) : Prop :=
  Forall (λ m, includes "[" m = true) ms.

Lemma Page_render_bracketed id ms p : bracketed (Page_render id ms p).2.
Proof.
  unfold Page_render, bracketed. destruct (mounted p); [|done].
  destruct (decide _); [done|]. cbn. repeat constructor.
Qed.

Lemma Page_timer_fires_bracketed n p : bracketed (Page_timer_fires n p).2.
Proof.
  unfold Page_timer_fires, bracketed. destruct (requests p !! n) as [r|]; [|done].
  destruct (timeout (fetch r)); [|done].
  destruct (state (fetch r)); try by (cbn; repeat constructor).
  destruct (state (on_timeout (fetch r))) as [|v|]; try by (cbn; repeat constructor).
  unfold Page_then. destruct v; cbn; repeat constructor.
Qed.

Lemma setData_fields v p :
  props_id (setLoading false (setData v p)) = props_id p
  ∧ mounted (setLoading false (setData v p)) = mounted p
  ∧ requests (setLoading false (setData v p)) = requests p.
Proof.
  unfold setLoading, setData. destruct (mounted p) eqn:E; cbn; rewrite ?E; [|done].
  destruct (basicStateReducer (data p) v); cbn; by rewrite ?E.
Qed.

Lemma Page_then_fields v p :
  props_id (Page_then v p).1 = props_id p
  ∧ mounted (Page_then v p).1 = mounted p
  ∧ requests (Page_then v p).1 = requests p.
Proof. unfold Page_then. destruct v; try done; apply setData_fields. Qed.

(** *** The page *)

Lemma Page_render_mounted id ms p : mounted (Page_render id ms p).1 = mounted p.
Proof.
  unfold Page_render. destruct (mounted p) eqn:E; [|done].
  destruct (decide _); [done|]. cbn. unfold setLoading. cbn. by rewrite E.
Qed.

Lemma Page_timer_fires_mounted n p : mounted (Page_timer_fires n p).1 = mounted p.
Proof.
  unfold Page_timer_fires. destruct (requests p !! n) as [r|]; [|done].
  destruct (timeout (fetch r)); [|done].
  destruct (state (fetch r)); try done.
  destruct (state (on_timeout (fetch r))) as [|v|]; try done.
  set (p' := with_requests _ p).
  destruct (Page_then_fields v p') as (_ & Hm & _).
  by destruct (Page_then v p').
Qed.

Lemma Page_timer_fires_frame m p :
  props_id (Page_timer_fires m p).1 = props_id p
  ∧ ∀ n, n ≠ m → requests (Page_timer_fires m p).1 !! n = requests p !! n.
Proof.
  unfold Page_timer_fires. destruct (requests p !! m) as [r|] eqn:Hr; [|done].
  destruct (timeout (fetch r)); [|done].
  assert (∀ n, n ≠ m →
            <[m := with_fetch (on_timeout (fetch r)) r]> (requests p) !! n
            = requests p !! n) as Hins.
  { intros n Hn. by rewrite list_lookup_insert_ne. }
  destruct (state (fetch r)); try done.
  destruct (state (on_timeout (fetch r))) as [|v|]; try done.
  set (p' := with_requests _ p).
  destruct (Page_then_fields v p') as (Hi & _ & Hq).
  destruct (Page_then v p'). cbn in *. by rewrite Hi, Hq.
Qed.

(** Whatever the current id is, a result that arrives is committed. *)
Lemma Page_timer_fires_commits n p r i :
  mounted p = true → requests p !! n = Some r →
  state (fetch r) = Pending → timeout (fetch r) = true →
  issuesData !! fetch_id (fetch r) = Some i →
  data (Page_timer_fires n p).1 = Obj i ∧ loading (Page_timer_fires n p).1 = false.
Proof.
  intros Hm Hr Hp Ht Hi. unfold Page_timer_fires. rewrite Hr, Ht.
  unfold on_timeout. rewrite Ht. unfold settle. cbn. rewrite Hp.
  unfold issuesData_at. rewrite Hi. unfold Page_then. cbn.
  unfold setLoading, setData. cbn. rewrite !Hm. cbn. by rewrite ?Hm.
Qed.

Lemma Page_effect_armed id ms p : pending_armed p → pending_armed (Page_effect id ms p).1.
Proof.
  intros H n r. cbn. unfold issue, setLoading.
  destruct (mounted p); cbn; intros Hr Hp.
  all: apply lookup_app_Some in Hr as [Hr|[_ Hr]]; [by apply (H n r)|].
  all: apply list_lookup_singleton_Some in Hr as [_ <-]; done.
Qed.

Lemma Page_timer_fires_armed m p : pending_armed p → pending_armed (Page_timer_fires m p).1.
Proof.
  intros H n r'. unfold Page_timer_fires.
  destruct (requests p !! m) as [r|] eqn:Hr; [|by apply H].
  destruct (timeout (fetch r)) eqn:Ht; [|by apply H].
  assert (∀ p', requests p' = <[m := with_fetch (on_timeout (fetch r)) r]> (requests p) →
            requests p' !! n = Some r' → state (fetch r') = Pending →
            timeout (fetch r') = true) as Hins.
  { intros p' -> Hr' Hp'.
    apply list_lookup_insert_Some in Hr' as [(_ & <- & _)|(_ & Hr')]; [|by apply (H n r')].
    exfalso. revert Hp'. unfold on_timeout. rewrite Ht. cbn.
    by destruct (state (fetch r)). }
  destruct (state (fetch r)); try by apply Hins.
  destruct (state (on_timeout (fetch r))) as [|v|]; try by apply Hins.
  set (p' := with_requests _ p).
  destruct (Page_then_fields v p') as (_ & _ & Hq).
  destruct (Page_then v p'). cbn in *. by apply Hins.
Qed.

Lemma unmount_armed a : pending_armed (child a) → pending_armed (child (unmount a)).
Proof. unfold unmount. by destruct (mounted (child a)). Qed.

Lemma step_armed a e : pending_armed (child a) → pending_armed (child (step a e)).
Proof.
  intros H. destruct e as [id ms|n| |]; cbn [step].
  - rewrite logs_child. unfold Page_render. destruct (mounted (child a)); [|done].
    destruct (decide _); [done|]. by apply Page_effect_armed.
  - assert (pending_armed (child (logs (Page_timer_fires n (child a)) a))) as H'.
    { rewrite logs_child. by apply Page_timer_fires_armed. }
    destruct (Page_throws _ _); [by apply unmount_armed|done].
  - unfold setLog. by destruct (mounted (child a)).
  - by apply unmount_armed.
Qed.

Lemma run_armed es : ∀ a, pending_armed (child a) → pending_armed (child (run a es)).
Proof.
  induction es as [|e es IH]; intros a H; [done|].
  cbn. by apply IH, step_armed.
Qed.

Lemma mount_armed id ms : pending_armed (child (mount id ms)).
Proof.
  unfold mount. cbn. intros n r Hr Hp.
  apply list_lookup_singleton_Some in Hr as [_ <-]. done.
Qed.

(** *** The log *)

Definition log_inv (a : App) : Prop :=
  console a ≠ []
  ∧ (mounted (child a) = true →
     overridden a = true ∧ log a `suffix_of` tail (console a)).

Lemma console_log_inv m a :
  includes "[" m = true → log_inv a → log_inv (console_log m a).
Proof.
  intros Hm [Hne H]. unfold console_log, setLog. cbn. rewrite Hm.
  destruct (mounted (child a)) eqn:Emt.
  - destruct (H eq_refl) as [Ho Hs]. rewrite Ho. cbn.
    split; [by destruct (console a)|]. cbn. intros _. split; [done|].
    destruct (console a) as [|c cs]; [done|]. cbn in *.
    apply suffix_app. etrans; [apply suffix_drop|done].
  - rewrite andb_true_r. destruct (overridden a); cbn.
    all: split; [by destruct (console a)|cbn; by rewrite Emt].
Qed.

Lemma logs_inv pm a :
  bracketed pm.2 → mounted pm.1 = mounted (child a) → log_inv a → log_inv (logs pm a).
Proof.
  unfold logs. intros Hb Hm H.
  assert (log_inv (with_child pm.1 a)) as H0.
  { destruct H as [Hne H]. split; [done|]. cbn. rewrite Hm. done. }
  revert H0. generalize (with_child pm.1 a). clear Hm H.
  induction Hb as [|m ms Hm _ IH]; intros a0 H0; [done|].
  cbn. by apply IH, console_log_inv.
Qed.

Lemma unmount_log_inv a : log_inv a → log_inv (unmount a).
Proof.
  intros [Hne H]. unfold unmount.
  destruct (mounted (child a)) eqn:E; cbn; [done|by split; [|rewrite E]].
Qed.

Lemma step_log_inv a e : log_inv a → log_inv (step a e).
Proof.
  intros H. destruct e as [id ms|n| |]; cbn [step].
  - apply logs_inv; [apply Page_render_bracketed|apply Page_render_mounted|done].
  - assert (log_inv (logs (Page_timer_fires n (child a)) a)) as H'.
    { apply logs_inv;
        [apply Page_timer_fires_bracketed|apply Page_timer_fires_mounted|done]. }
    destruct (Page_throws _ _); [by apply unmount_log_inv|done].
  - destruct H as [Hne H]. unfold setLog.
    destruct (mounted (child a)) eqn:E; cbn; [|by split; [|rewrite E]].
    split; [done|]. cbn. intros _. split; [by apply H|apply suffix_nil].
  - by apply unmount_log_inv.
Qed.

Lemma run_log_inv es : ∀ a, log_inv a → log_inv (run a es).
Proof.
  induction es as [|e es IH]; intros a H; [done|].
  cbn. by apply IH, step_log_inv.
Qed.

Lemma mount_log_inv id ms : log_inv (mount id ms).
Proof. unfold mount. cbn. split; [done|]. intros _. split; [done|]. apply suffix_nil. Qed.

Lemma run_bound es : ∀ a, (length (log a) ≤ 11)%nat → (length (log (run a es)) ≤ 11)%nat.
Proof.
  induction es as [|e es IH]; intros a H; [done|].
  cbn. by apply IH, step_bound.
Qed.

(** ** Theorems *)

Lemma step_timeout_child a n :
  Page_throws n (child a) = false →
  child (step a (Timeout n)) = (Page_timer_fires n (child a)).1.
Proof. intros H. cbn. rewrite H. apply logs_child. Qed.

Lemma Page_throws_table n p r i :
  requests p !! n = Some r → issuesData !! fetch_id (fetch r) = Some i →
  Page_throws n p = false.
Proof.
  intros Hr Hi. unfold Page_throws, throws, issuesData_at. rewrite Hr, Hi. cbn.
  by rewrite !andb_false_r.
Qed.

(** The race of [Page]: a fetch is pending, the user goes to another issue
    [b], and the old fetch resolves.  Its result is committed although the
    page now is for [b]: the page shows the old issue and no loading state,
    both when the old fetch resolves first (the fetch for [b] is still in
    flight) and when it resolves after the fetch for [b] (the wrong issue
    stays), unless [issuesData[b]] is a function that throws on the state
    of the page (as no key of the table does, and none of the tabs). *)
Theorem stale_result_overwrites_current_page (id : string) (ms : nat)
    (es : list event) (n : nat) (r : Request) (i : Issue) (b : string) (msb : nat) :
  let a := RaceConditionApp id ms es in
  let shows (a' : App) :=
    props_id (child a') = b ∧ data (child a') = Obj i ∧ loading (child a') = false in
  mounted (child a) = true →
  requests (child a) !! n = Some r → state (fetch r) = Pending →
  issuesData !! fetch_id (fetch r) = Some i →
  b ≠ props_id (child a) →
  shows (run a [SetPage b msb; Timeout n])
  ∧ (basicStateReducer (data (child a)) (issuesData_at b) ≠ None →
     shows (run a [SetPage b msb; Timeout (length (requests (child a))); Timeout n])).
Proof.
  intros a shows Hm Hr Hp Hi Hb.
  assert (pending_armed (child a)) as Harm by apply run_armed, mount_armed.
  set (p1 := (Page_render b msb (child a)).1).
  set (L := length (requests (child a))).
  assert (props_id p1 = b ∧ mounted p1 = true ∧ data p1 = data (child a)
          ∧ requests p1 !! n = Some r ∧ pending_armed p1
          ∧ requests p1 !! L = Some {| fetch := simulateFetch b false; isActive := true |})
    as (Hid1 & Hm1 & Hd1 & Hr1 & Harm1 & HL1).
  { subst p1. unfold Page_render. rewrite Hm. rewrite decide_False by done.
    split_and!.
    - cbn. unfold setLoading. cbn. by rewrite Hm.
    - cbn. unfold setLoading. cbn. by rewrite Hm.
    - cbn. unfold setLoading. cbn. by rewrite Hm.
    - cbn. unfold setLoading. cbn. rewrite Hm. cbn.
      by apply lookup_app_l_Some.
    - apply Page_effect_armed. intros k q. cbn. apply Harm.
    - cbn. unfold setLoading. cbn. rewrite Hm. cbn.
      rewrite lookup_app_r by done. by rewrite Nat.sub_diag. }
  assert (∀ p, props_id p = b → mounted p = true → requests p !! n = Some r →
               pending_armed p →
               props_id (Page_timer_fires n p).1 = b
               ∧ data (Page_timer_fires n p).1 = Obj i
               ∧ loading (Page_timer_fires n p).1 = false) as Hcommit.
  { intros p Hpid Hpm Hpr Hparm.
    destruct (Page_timer_fires_frame n p) as [-> _]. split; [done|].
    apply (Page_timer_fires_commits n p r i); try done. by apply (Hparm n r). }
  assert (child (step a (SetPage b msb)) = p1) as Hs1.
  { cbn. by rewrite logs_child. }
  split.
  - unfold shows, run; cbn [fold_left].
    rewrite step_timeout_child; rewrite Hs1; [|by apply (Page_throws_table n p1 r i)].
    by apply Hcommit.
  - intros Hred. unfold shows, run; cbn [fold_left]. fold L.
    assert (Page_throws L p1 = false) as HtL.
    { unfold Page_throws, throws. rewrite HL1. cbn. rewrite Hm1, Hd1. cbn.
      rewrite (bool_decide_eq_false_2 (_ = None)) by done. apply andb_false_r. }
    assert (child (step (step a (SetPage b msb)) (Timeout L))
            = (Page_timer_fires L p1).1) as Hs2.
    { rewrite step_timeout_child; by rewrite Hs1. }
    assert (n ≠ L) as HnL.
    { apply lookup_lt_Some in Hr. unfold L. lia. }
    destruct (Page_timer_fires_frame L p1) as [Hid2 Hreq2].
    rewrite step_timeout_child; rewrite Hs2.
    + apply Hcommit.
      * by rewrite Hid2.
      * by rewrite Page_timer_fires_mounted.
      * by rewrite Hreq2.
      * by apply Page_timer_fires_armed.
    + apply (Page_throws_table n _ r i); [|done]. by rewrite Hreq2.
Qed.

(** Issue 1, then issue 2; the fetch for issue 1 resolves: the page for
    issue 2 shows issue 1. *)
Lemma stale_result_overwrites_current_page_witness :
  let a := RaceConditionApp "1" 700 [SetPage "2" 900; Timeout 0] in
  props_id (child a) = "2"
  ∧ (issue_id <$> (if data (child a) is Obj i then Some i else None)) = Some "ISSUE-1"
  ∧ loading (child a) = false.
Proof.
  destruct (stale_result_overwrites_current_page "1" 700 [] 0
              {| fetch := simulateFetch "1" false; isActive := true |}
              {| issue_id := "ISSUE-1"; title := "Login Bug";
                 description := "Users cannot login with special characters" |}
              "2" 900) as [(H1 & H2 & H3) _];
    try (vm_compute; reflexivity); [vm_compute; discriminate|].
  cbv zeta. unfold RaceConditionApp.
  change (run (mount "1" 700) [SetPage "2" 900; Timeout 0])
    with (run (run (mount "1" 700) []) [SetPage "2" 900; Timeout 0]).
  unfold RaceConditionApp in H1, H2, H3. by rewrite H1, H2, H3.
Defined.

(** A result that is a function that throws: with the id "valueOf", the
    message is logged with "undefined" for the id, [setData] is given
    [Object.prototype.valueOf], the page throws when React renders it, and
    the app is taken down; [console.log] is restored. *)
Lemma throwing_result_takes_the_app_down :
  let a := RaceConditionApp "1" 700 [SetPage "valueOf" 900; Timeout 1] in
  mounted (child a) = false ∧ overridden a = false
  ∧ last (console a) = Some (setting "undefined").
Proof. vm_compute. repeat split; reflexivity. Qed.

(** The log of [RaceConditionApp] never holds more than eleven messages:
    [prev.slice(-10)] keeps ten and the new one is appended. *)
Theorem log_at_most_eleven (id : string) (ms : nat) (es : list event) :
  (length (log (RaceConditionApp id ms es)) ≤ 11)%nat.
Proof. apply run_bound. cbn. lia. Qed.

(** While the app is mounted, its log is a run of the most recent console
    messages: every message of the page contains a bracket and so passes
    the filter; and the log never shows the first message (the start of the
    first fetch), which is written before [console.log] is replaced. *)
Theorem log_shows_latest_messages (id : string) (ms : nat) (es : list event) :
  let a := RaceConditionApp id ms es in
  mounted (child a) = true →
  log a `suffix_of` tail (console a) ∧ head (console a) = Some (started id ms).
Proof.
  intros a Hm. destruct (run_log_inv es (mount id ms) (mount_log_inv id ms)) as [_ H].
  split; [by apply H|].
  clear H Hm. subst a. unfold RaceConditionApp.
  assert (head (console (mount id ms)) = Some (started id ms)) as H0 by done.
  revert H0. generalize (mount id ms). clear.
  induction es as [|e es IH]; intros a H; [done|].
  cbn. apply IH. clear IH.
  assert (∀ m a0, head (console a0) = Some (started id ms) →
            head (console (console_log m a0)) = Some (started id ms)) as Hc.
  { intros m a0 H0. unfold console_log, setLog. cbn.
    destruct (overridden a0 && includes "[" m), (mounted (child a0));
      cbn; by destruct (console a0). }
  assert (∀ pm, head (console (logs pm a)) = Some (started id ms)) as Hl.
  { intros pm. unfold logs.
    assert (head (console (with_child pm.1 a)) = Some (started id ms)) as H0 by done.
    revert H0. generalize (with_child pm.1 a).
    induction pm.2 as [|m l IHl]; intros a0 H0; [done|].
    cbn. by apply IHl, Hc. }
  destruct e as [k km|n| |]; cbn [step].
  - apply Hl.
  - destruct (Page_throws _ _); [|apply Hl].
    destruct (unmount_log (logs (Page_timer_fires n (child a)) a)) as [_ ->].
    apply Hl.
  - unfold setLog. by destruct (mounted (child a)).
  - by destruct (unmount_log a) as [_ ->].
Qed.

(** Issue 1, issue 2, and the fetch for issue 1 resolves: the log holds
    the three messages after the first one. *)
Lemma log_shows_latest_messages_witness :
  let a := RaceConditionApp "1" 700 [SetPage "2" 900; Timeout 0] in
  log a `suffix_of` tail (console a) ∧ head (console a) = Some (started "1" 700).
Proof.
  apply (log_shows_latest_messages "1" 700 [SetPage "2" 900; Timeout 0]).
  vm_compute. reflexivity.
Defined.

End RaceCondition.

(** ** Chapter 10: the demos around the stable callback
       (src/components/chapter-10/optimised.tsx)

    A closure is known by what it closed over.  A [useCallback] or
    [useEffect] cell holds the dependencies of the render that filled it. *)
Module Closures.

Section Cells.
Context {F D : Type} `{EqDecision D}.

(** [useCallback(fn, deps)]: the function kept, and its deps. *)
Definition useCallback (fn : F) (deps : D) (cell : option (F * D)) : F * D :=
  match cell with
  | Some (f, d) => if decide (d = deps) then (f, d) else (fn, deps)
  | None => (fn, deps)
  end.

(** [useRef(initial)]: the argument counts on the first render only. *)
Definition useRef (initial : F) (cell : option F) : F :=
  match cell with
  | Some current => current
  | None => initial
  end.
End Cells.

Section Memo.
Context {P : Type}.

(** One instance of a component wrapped in [memo]: the props of its last
    render, and the number of its renders. *)
Record instance := {
  props : P;
  render_count : nat
}.

(** The parent renders the element with the props [next]. *)
Definition memo (areEqual : P → P → bool) (next : P) (c : option instance) : instance :=
  match c with
  | None => {| props := next; render_count := 1 |}
  | Some c =>
      if areEqual (props c) next then c
      else {| props := next; render_count := S (render_count c) |}
  end.
End Memo.

Arguments instance : clear implicits.

(** The double quote of the messages of [StaleRefDemo]. *)
Definition dquote : string := String (Ascii.ascii_of_nat 34) EmptyString.

(** *** StaleCallbackDemo *)
Module StaleCallbackDemo.

(** Both handlers close over [count]. *)
Record state := {
  count : nat;
  log : list string;
  handleClickStale : option (nat * list nat);   (* useCallback(..., []) *)
  handleClickFresh : option (nat * list nat)    (* useCallback(..., [count]) *)
}.

Definition render (s : state) : state :=
  {| count := count s; log := log s;
     handleClickStale := Some (useCallback (count s) [] (handleClickStale s));
     handleClickFresh := Some (useCallback (count s) [count s] (handleClickFresh s)) |}.

Definition mount : state :=
  render {| count := 0; log := []; handleClickStale := None; handleClickFresh := None |}.

Definition setCount (f : nat → nat) (s : state) : state :=
  {| count := f (count s); log := log s;
     handleClickStale := handleClickStale s; handleClickFresh := handleClickFresh s |}.

Definition setLog (f : list string → list string) (s : state) : state :=
  {| count := count s; log := f (log s);
     handleClickStale := handleClickStale s; handleClickFresh := handleClickFresh s |}.

(** A click on a button whose handler is the function of [cell]. *)
Definition click (label : string) (cell : option (nat * list nat)) (s : state) : state :=
  match cell with
  | Some (count, _) => setLog (λ prev, prev ++ [label +:+ ": count = " +:+ pretty count]) s
  | None => s
  end.

Inductive event := Increment | ClickStale | ClickFresh | Clear.

Definition handle (s : state) (e : event) : state :=
  match e with
  | Increment => setCount (λ c, c + 1) s
  | ClickStale => click "Stale" (handleClickStale s) s
  | ClickFresh => click "Fresh" (handleClickFresh s) s
  | Clear => setLog (λ _, []) s
  end.

(** An event, and the render that follows the state update. *)
Definition step (s : state) (e : event) : state := render (handle s e).

Definition run (es : list event) : state := fold_left step es mount.

#[global] Instance event_eq_dec : EqDecision event.
Proof. solve_decision. Defined.

Definition increments (es : list event) : nat :=
  length (filter (λ e, e = Increment) es).

End StaleCallbackDemo.

(** *** StaleRefDemo *)
Module StaleRefDemo.

(** The function in [staleRef] closes over [value]; [freshRef] holds the
    empty function ([None]) or one that closes over [value]. *)
Record state := {
  value : string;
  log : list string;
  staleRef : option string;             (* useRef(() => ...) *)
  freshRef : option (option string);    (* useRef(() => {}) *)
  effect : option (list string)         (* the deps of the last effect run *)
}.

(** The render, and the effect with the deps [[value]]. *)
Definition render (s : state) : state :=
  let fresh := useRef None (freshRef s) in
  let run_effect :=
    match effect s with
    | Some deps => bool_decide (deps ≠ [value s])
    | None => true
    end in
  {| value := value s; log := log s;
     staleRef := Some (useRef (value s) (staleRef s));
     freshRef := Some (if run_effect then Some (value s) else fresh);
     effect := Some [value s] |}.

Definition mount : state :=
  render {| value := ""; log := []; staleRef := None; freshRef := None;
            effect := None |}.

Definition setValue (v : string) (s : state) : state :=
  {| value := v; log := log s; staleRef := staleRef s; freshRef := freshRef s;
     effect := effect s |}.

Definition setLog (f : list string → list string) (s : state) : state :=
  {| value := value s; log := f (log s); staleRef := staleRef s;
     freshRef := freshRef s; effect := effect s |}.

Definition message (label value : string) : string :=
  label +:+ " Ref: value = " +:+ dquote +:+ value +:+ dquote.

Inductive event := Change (v : string) | CallStale | CallFresh | Clear.

Definition handle (s : state) (e : event) : state :=
  match e with
  | Change v => setValue v s
  | CallStale =>
      match staleRef s with
      | Some value => setLog (λ prev, prev ++ [message "Stale" value]) s
      | None => s
      end
  | CallFresh =>
      match freshRef s with
      | Some (Some value) => setLog (λ prev, prev ++ [message "Fresh" value]) s
      | _ => s
      end
  | Clear => setLog (λ _, []) s
  end.

Definition step (s : state) (e : event) : state := render (handle s e).

Definition run (es : list event) : state := fold_left step es mount.

End StaleRefDemo.

(** *** HeavyComponent and the forms *)

(** A function object passed as [onClick]: its identity, and what it
    closed over. *)
Record closure (Env : Type) := {
  fn : nat;
  env : Env
}.
Arguments fn {Env}.
Arguments env {Env}.

Record HeavyProps (Env : Type) := {
  title : string;
  onClick : closure Env
}.
Arguments title {Env}.
Arguments onClick {Env}.

(** [memo(Component)]: the props are compared one by one with [Object.is];
    a function is equal to itself only. *)
Definition shallowEqual {Env} (before after : HeavyProps Env) : bool :=
  bool_decide (title before = title after)
  && bool_decide (fn (onClick before) = fn (onClick after)).

(** The comparison of the [HeavyComponent] of the stale demo. *)
Definition titleEqual {Env} (before after : HeavyProps Env) : bool :=
  bool_decide (title before = title after).

(** *** StaleMemoDemo *)
Module StaleMemoDemo.

Record state := {
  formValue : string;
  submittedValue : option string;
  renders : nat;                                   (* renders of the demo *)
  heavy : option (instance (HeavyProps string))
}.

(** Each render makes a new [onClick], which closes over [formValue]. *)
Definition render (s : state) : state :=
  let onClick := {| fn := renders s; env := formValue s |} in
  {| formValue := formValue s; submittedValue := submittedValue s;
     renders := S (renders s);
     heavy := Some (memo titleEqual
                      {| title := "Heavy Form Component"; onClick := onClick |}
                      (heavy s)) |}.

Definition mount : state :=
  render {| formValue := ""; submittedValue := None; renders := 0; heavy := None |}.

Inductive event := Change (v : string) | Submit.

(** [Submit] is a click on the button of the heavy component: the
    [onClick] of its last render runs. *)
Definition handle (s : state) (e : event) : state :=
  match e with
  | Change v =>
      {| formValue := v; submittedValue := submittedValue s;
         renders := renders s; heavy := heavy s |}
  | Submit =>
      match heavy s with
      | Some h =>
          {| formValue := formValue s;
             submittedValue := Some (env (onClick (props h)));
             renders := renders s; heavy := heavy s |}
      | None => s
      end
  end.

Definition step (s : state) (e : event) : state := render (handle s e).

Definition run (es : list event) : state := fold_left step es mount.

End StaleMemoDemo.

(** *** FormWithHook *)
Module FormWithHook.

Record form := {
  name : string;
  message : string;
  submitted : option string
}.

Definition setSubmitted (v : string) (f : form) : form :=
  {| name := name f; message := message f; submitted := Some v |}.

(** The arrow passed to [useEventCallback] by a render with [f]. *)
Definition handleSubmit (f : form) : @Chapter10.T unit unit form :=
  λ _ w, (tt, setSubmitted ("Name: " +:+ name f +:+ ", Message: " +:+ message f) w).

Record state := {
  fields : form;
  hook : option (Chapter10.hooks unit unit form);
  heavy : option (instance (HeavyProps unit))
}.

Definition render (s : state) : state :=
  let '(h, fn) := Chapter10.useEventCallback (handleSubmit (fields s)) (hook s) in
  {| fields := fields s; hook := Some h;
     heavy := Some (memo shallowEqual
                      {| title := "With useEventCallback";
                         onClick := {| fn := fn; env := tt |} |}
                      (heavy s)) |}.

Definition mount : state :=
  render {| fields := {| name := ""; message := ""; submitted := None |};
            hook := None; heavy := None |}.

Inductive event := SetName (v : string) | SetMessage (v : string) | Submit.

(** [Submit] is a click on the button of the heavy component; the function
    it holds is one returned by the hook. *)
Definition handle (s : state) (e : event) : state :=
  match e with
  | SetName v =>
      {| fields := {| name := v; message := message (fields s);
                      submitted := submitted (fields s) |};
         hook := hook s; heavy := heavy s |}
  | SetMessage v =>
      {| fields := {| name := name (fields s); message := v;
                      submitted := submitted (fields s) |};
         hook := hook s; heavy := heavy s |}
  | Submit =>
      match hook s, heavy s with
      | Some h, Some _ =>
          {| fields := (Chapter10.call h tt (fields s)).2; hook := hook s;
             heavy := heavy s |}
      | _, _ => s
      end
  end.

Definition step (s : state) (e : event) : state := render (handle s e).

Definition run (es : list event) : state := fold_left step es mount.

End FormWithHook.

(** ** Lemmas *)

Lemma fold_left_inv {A B} (f : A → B → A) (I : A → Prop) (l : list B) : ∀ a,
  I a → (∀ a b, I a → I (f a b)) → I (fold_left f l a).
Proof.
  induction l as [|b l IH]; intros a Ha Hf; [done|].
  cbn. apply IH; [by apply Hf|done].
Qed.

Definition callbacks_ok (s : StaleCallbackDemo.state) : Prop :=
  StaleCallbackDemo.handleClickStale s = Some (0, [])
  ∧ StaleCallbackDemo.handleClickFresh s
    = Some (StaleCallbackDemo.count s, [StaleCallbackDemo.count s]).

Lemma callbacks_ok_step s e : callbacks_ok s → callbacks_ok (StaleCallbackDemo.step s e).
Proof.
  intros [Hs Hf]. unfold StaleCallbackDemo.step, callbacks_ok.
  destruct e; cbn; unfold StaleCallbackDemo.click; rewrite ?Hs, ?Hf; cbn;
    rewrite ?Hs, ?Hf; unfold useCallback.
  - split; [done|]. rewrite decide_False; [done|]. intros [=]. lia.
  - split; [done|]. by rewrite decide_True.
  - split; [done|]. by rewrite decide_True.
  - split; [done|]. by rewrite decide_True.
Qed.

Lemma callbacks_ok_run es : callbacks_ok (StaleCallbackDemo.run es).
Proof.
  unfold StaleCallbackDemo.run. apply fold_left_inv; [done|].
  intros. by apply callbacks_ok_step.
Qed.

Definition refs_ok (s : StaleRefDemo.state) : Prop :=
  StaleRefDemo.staleRef s = Some ""
  ∧ StaleRefDemo.freshRef s = Some (Some (StaleRefDemo.value s))
  ∧ StaleRefDemo.effect s = Some [StaleRefDemo.value s].

Lemma refs_ok_step s e : refs_ok s → refs_ok (StaleRefDemo.step s e).
Proof.
  intros (Hs & Hf & He). unfold StaleRefDemo.step, refs_ok.
  destruct e as [v| | |]; cbn; rewrite ?Hs, ?Hf, ?He; cbn; rewrite ?Hs, ?Hf, ?He; cbn.
  - split_and!; try done. case_bool_decide as E; [done|].
    injection E as E. by rewrite E.
  - split_and!; try done. by rewrite bool_decide_false by (intros H; by apply H).
  - split_and!; try done. by rewrite bool_decide_false by (intros H; by apply H).
  - split_and!; try done. by rewrite bool_decide_false by (intros H; by apply H).
Qed.

Lemma refs_ok_run es : refs_ok (StaleRefDemo.run es).
Proof.
  unfold StaleRefDemo.run. apply fold_left_inv; [done|].
  intros. by apply refs_ok_step.
Qed.

Definition heavy_stale (s : StaleMemoDemo.state) : Prop :=
  StaleMemoDemo.heavy s
  = Some {| props := {| title := "Heavy Form Component";
                        onClick := {| fn := 0; env := "" |} |};
            render_count := 1 |}.

Lemma heavy_stale_step s e : heavy_stale s → heavy_stale (StaleMemoDemo.step s e).
Proof.
  intros H. unfold StaleMemoDemo.step, heavy_stale.
  destruct e as [v|]; cbn; rewrite ?H; cbn; by rewrite ?H.
Qed.

Lemma heavy_stale_run es : heavy_stale (StaleMemoDemo.run es).
Proof.
  unfold StaleMemoDemo.run. apply fold_left_inv; [done|].
  intros. by apply heavy_stale_step.
Qed.

Definition form_ok (s : FormWithHook.state) : Prop :=
  (∃ h, FormWithHook.hook s = Some h
        ∧ Chapter10.memo h = (1, [])
        ∧ Chapter10.ref_current h = FormWithHook.handleSubmit (FormWithHook.fields s))
  ∧ FormWithHook.heavy s
    = Some {| props := {| title := "With useEventCallback";
                          onClick := {| fn := 1; env := tt |} |};
              render_count := 1 |}.

Lemma form_ok_render s :
  (∃ h, FormWithHook.hook s = Some h ∧ Chapter10.memo h = (1, []))
  ∧ FormWithHook.heavy s
    = Some {| props := {| title := "With useEventCallback";
                          onClick := {| fn := 1; env := tt |} |};
              render_count := 1 |} →
  form_ok (FormWithHook.render s).
Proof.
  intros [(h & Hh & Hm) Hv]. unfold FormWithHook.render, form_ok.
  rewrite Hh, Hv. cbn. rewrite Hm. cbn. split; [|done].
  eexists. split; [done|]. cbn. done.
Qed.

Lemma form_ok_step s e : form_ok s → form_ok (FormWithHook.step s e).
Proof.
  intros [(h & Hh & Hm & _) Hv]. unfold FormWithHook.step.
  apply form_ok_render.
  destruct e as [v|v|]; cbn; rewrite ?Hh, ?Hv; cbn; eauto.
Qed.

Lemma form_ok_run es : form_ok (FormWithHook.run es).
Proof.
  unfold FormWithHook.run. apply fold_left_inv.
  - split; [|done]. eexists. by split.
  - intros. by apply form_ok_step.
Qed.

(** ** Theorems *)

(** [StaleCallbackDemo]: whatever the count is, the handler memoised with
    no dependencies logs the count of the first render, 0; the handler
    that depends on [count] logs the current count. *)
Theorem stale_callback_logs_first_count (es : list StaleCallbackDemo.event) :
  let s := StaleCallbackDemo.run es in
  StaleCallbackDemo.count s = StaleCallbackDemo.increments es
  ∧ StaleCallbackDemo.log (StaleCallbackDemo.step s StaleCallbackDemo.ClickStale)
    = StaleCallbackDemo.log s ++ ["Stale: count = 0"]
  ∧ StaleCallbackDemo.log (StaleCallbackDemo.step s StaleCallbackDemo.ClickFresh)
    = StaleCallbackDemo.log s
      ++ ["Fresh: count = " +:+ pretty (StaleCallbackDemo.count s)].
Proof.
  intros s. destruct (callbacks_ok_run es) as [Hs Hf]. fold s in Hs, Hf.
  split_and!.
  - subst s. clear. induction es as [|e es IH] using rev_ind; [done|].
    unfold StaleCallbackDemo.run, StaleCallbackDemo.increments in *.
    rewrite fold_left_app, filter_app, length_app. cbn [fold_left].
    unfold StaleCallbackDemo.step at 1.
    change (StaleCallbackDemo.count (StaleCallbackDemo.render ?x))
      with (StaleCallbackDemo.count x).
    destruct e; cbn; rewrite ?IH; cbn.
    + rewrite decide_True by done. cbn. lia.
    + rewrite decide_False by done. unfold StaleCallbackDemo.click.
      destruct (StaleCallbackDemo.handleClickStale _) as [[? ?]|]; cbn;
        rewrite IH; lia.
    + rewrite decide_False by done. unfold StaleCallbackDemo.click.
      destruct (StaleCallbackDemo.handleClickFresh _) as [[? ?]|]; cbn;
        rewrite IH; lia.
    + rewrite decide_False by done. cbn. lia.
  - cbn. unfold StaleCallbackDemo.click. by rewrite Hs.
  - cbn. unfold StaleCallbackDemo.click. by rewrite Hf.
Qed.

(** [StaleRefDemo]: the function stored in [useRef] at the first render
    logs the empty first value whatever was typed; the function stored by
    the effect logs the current value. *)
Theorem stale_ref_logs_first_value (es : list StaleRefDemo.event) :
  let s := StaleRefDemo.run es in
  StaleRefDemo.log (StaleRefDemo.step s StaleRefDemo.CallStale)
  = StaleRefDemo.log s ++ [StaleRefDemo.message "Stale" ""]
  ∧ StaleRefDemo.log (StaleRefDemo.step s StaleRefDemo.CallFresh)
    = StaleRefDemo.log s ++ [StaleRefDemo.message "Fresh" (StaleRefDemo.value s)].
Proof.
  intros s. destruct (refs_ok_run es) as (Hs & Hf & _). fold s in Hs, Hf.
  split; cbn; by rewrite ?Hs, ?Hf.
Qed.

(** [StaleMemoDemo]: the comparison passed to [memo] looks at the title
    only, so the heavy component renders once and keeps the [onClick] of
    the first render: whatever was typed, a click on its button submits the
    empty string. *)
Theorem stale_memo_submits_first_value (es : list StaleMemoDemo.event) :
  let s := StaleMemoDemo.run es in
  (render_count <$> StaleMemoDemo.heavy s) = Some 1
  ∧ StaleMemoDemo.submittedValue (StaleMemoDemo.step s StaleMemoDemo.Submit) = Some ""
  ∧ StaleMemoDemo.formValue (StaleMemoDemo.step s StaleMemoDemo.Submit)
    = StaleMemoDemo.formValue s.
Proof.
  intros s. pose proof (heavy_stale_run es) as H. fold s in H. unfold heavy_stale in H.
  split_and!; cbn; by rewrite H.
Qed.

(** [FormWithHook]: the function returned by [useEventCallback] is the same
    object at every render, so the heavy component with the default [memo]
    renders once whatever is typed; and a click on its button submits the
    name and the message as they are at the click. *)
Theorem form_with_hook_submits_current_fields (es : list FormWithHook.event) :
  let s := FormWithHook.run es in
  (render_count <$> FormWithHook.heavy s) = Some 1
  ∧ FormWithHook.submitted
      (FormWithHook.fields (FormWithHook.step s FormWithHook.Submit))
    = Some ("Name: " +:+ FormWithHook.name (FormWithHook.fields s)
            +:+ ", Message: " +:+ FormWithHook.message (FormWithHook.fields s)).
Proof.
  intros s. destruct (form_ok_run es) as [(h & Hh & Hm & Hr) Hv].
  fold s in Hh, Hr, Hv. split; [by rewrite Hv|].
  unfold FormWithHook.step, FormWithHook.render. cbn. rewrite Hh, Hv. cbn.
  unfold Chapter10.call. by rewrite Hr.
Qed.

End Closures.

(** ** Chapter 11: the debounce demos that do not debounce
       (src/unnamed/part_012, first part) *)
Module DebounceDemos.
Import Timers Chapter11.

(** *** Timers that are set in the order in which they are due *)
Section Ordered.
Context {J : Type}.

(** Each timer is due no later than the ones after it, and no handle
    occurs twice. *)
Fixpoint ordered (ts : list (timer J)) : Prop :=
  match ts with
  | [] => True
  | t :: ts' =>
      Forall (λ t', (due t ≤ due t')%Z ∧ handle t' ≠ handle t) ts' ∧ ordered ts'
  end.

Definition due_by (T : Z) (ts : list (timer J)) : list (timer J) :=
  filter (λ t, (due t ≤ T)%Z) ts.

Definition due_after (T : Z) (ts : list (timer J)) : list (timer J) :=
  filter (λ t, (T < due t)%Z) ts.

Lemma earliest_elem (ts : list (timer J)) t : earliest ts = Some t → t ∈ ts.
Proof.
  revert t. induction ts as [|t0 ts IH]; intros t; [done|]. cbn.
  destruct (earliest ts) as [t'|].
  - destruct (decide _); intros [= <-]; [|by left]. right. by apply IH.
  - intros [= <-]. by left.
Qed.

Lemma earliest_ordered t (ts : list (timer J)) :
  ordered (t :: ts) → earliest (t :: ts) = Some t.
Proof.
  intros [Hall _]. cbn. destruct (earliest ts) as [t'|] eqn:E; [|done].
  apply earliest_elem in E. rewrite Forall_forall in Hall.
  destruct (Hall t' E) as [Hd _]. by rewrite decide_False by lia.
Qed.

Lemma ordered_filter (P : timer J → Prop) `{∀ t, Decision (P t)} ts :
  ordered ts → ordered (filter P ts).
Proof.
  induction ts as [|t ts IH]; [done|]. intros [Hall Ho].
  rewrite filter_cons. destruct (decide (P t)); [|by apply IH].
  split; [|by apply IH]. rewrite Forall_forall in *.
  intros t' Ht'. apply Hall. by apply list_elem_of_filter in Ht' as [_ ?].
Qed.

Lemma ordered_snoc ts (t : timer J) :
  ordered ts → Forall (λ t', (due t' ≤ due t)%Z ∧ handle t ≠ handle t') ts →
  ordered (ts ++ [t]).
Proof.
  induction ts as [|t0 ts IH]; [by repeat constructor|].
  intros [Hall Ho] Hle. apply Forall_cons in Hle as [[Hd Hh] Hle].
  split; [|by apply IH]. apply Forall_app. split; [done|].
  by repeat constructor.
Qed.

Lemma filter_all (P : timer J → Prop) `{∀ t, Decision (P t)} ts :
  Forall P ts → filter P ts = ts.
Proof.
  induction 1 as [|t ts Ht _ IH]; [done|].
  rewrite filter_cons, decide_True by done. by rewrite IH.
Qed.

Lemma filter_none (P : timer J → Prop) `{∀ t, Decision (P t)} ts :
  Forall (λ t, ¬ P t) ts → filter P ts = [].
Proof.
  induction 1 as [|t ts Ht _ IH]; [done|].
  by rewrite filter_cons, decide_False by done.
Qed.

Lemma ordered_split T ts : ordered ts → due_by T ts ++ due_after T ts = ts.
Proof.
  unfold due_by, due_after. induction ts as [|t ts IH]; [done|].
  intros [Hall Ho]. rewrite !filter_cons.
  destruct (decide (due t ≤ T)%Z).
  - rewrite decide_False by lia. cbn. by rewrite IH.
  - rewrite decide_True by lia.
    rewrite (filter_none (λ t, (due t ≤ T)%Z)), (filter_all (λ t, (T < due t)%Z));
      [done|..].
    + eapply Forall_impl; [done|]. cbn. intros t' [? _]. lia.
    + eapply Forall_impl; [done|]. cbn. intros t' [? _]. lia.
Qed.

Lemma due_by_later T (ts : list (timer J)) :
  Forall (λ t, (due t ≤ T)%Z) ts → due_by T ts = ts ∧ due_after T ts = [].
Proof.
  intros H. unfold due_by, due_after. split.
  - by apply filter_all.
  - apply filter_none. eapply Forall_impl; [done|]. cbn. intros. lia.
Qed.
End Ordered.

(** Time passing over ordered timers: the timers due fire in the order in
    which they were set.  [out] is what the program has sent so far. *)
Section Fires.
Context {J S : Type}.
Context (get : S → facility J) (set : facility J → S → S) (fire : J → S → S).
Context (out : S → list J).
Hypothesis get_set : ∀ f s, get (set f s) = f.
Hypothesis get_fire : ∀ j s, get (fire j s) = get s.
Hypothesis out_set : ∀ f s, out (set f s) = out s.
Hypothesis out_fire : ∀ j s, out (fire j s) = out s ++ [j].

Lemma run_timers_ordered T : ∀ ts n s,
  pending (get s) = ts → ordered ts → (length ts ≤ n)%nat →
  let s' := run_timers get set fire n T s in
  pending (get s') = due_after T ts
  ∧ out s' = out s ++ map job (due_by T ts)
  ∧ next_handle (get s') = next_handle (get s).
Proof.
  induction ts as [|t ts IH]; intros n s Hp Ho Hn.
  - assert (run_timers get set fire n T s = s) as ->.
    { destruct n; [done|]. cbn. unfold next_due. by rewrite Hp. }
    cbn. by rewrite Hp, app_nil_r.
  - destruct n as [|n]; [cbn in Hn; lia|]. cbn [run_timers].
    unfold next_due. rewrite Hp, (earliest_ordered t ts Ho).
    destruct Ho as [Hall Ho]. unfold due_by, due_after. rewrite !filter_cons.
    destruct (decide (due t ≤ T)%Z) as [Hd|Hd].
    + rewrite decide_False by lia.
      set (s1 := fire (job t) (set (fired t (get s)) s)).
      assert (pending (get s1) = ts) as Hp1.
      { subst s1. rewrite get_fire, get_set. unfold fired. cbn. rewrite Hp.
        rewrite filter_cons, decide_False by (intros H; by apply H).
        apply filter_all. eapply Forall_impl; [done|]. by intros t' [_ ?]. }
      destruct (IH n s1 Hp1 Ho ltac:(cbn in Hn; lia)) as (Hq & Hout & Hnh).
      cbn zeta. split_and!; [done| |].
      * rewrite Hout. subst s1. rewrite out_fire, out_set. cbn.
        by rewrite <- app_assoc.
      * rewrite Hnh. subst s1. by rewrite get_fire, get_set.
    + rewrite decide_True by lia. cbn zeta.
      rewrite (filter_none (λ t, (due t ≤ T)%Z)), (filter_all (λ t, (T < due t)%Z)).
      * cbn. by rewrite Hp, app_nil_r.
      * eapply Forall_impl; [done|]. cbn. intros t' [? _]. lia.
      * eapply Forall_impl; [done|]. cbn. intros t' [? _]. lia.
Qed.

Lemma advance_ordered T s :
  (now (get s) ≤ T)%Z → ordered (pending (get s)) →
  let s' := Timers.advance get set fire T s in
  pending (get s') = due_after T (pending (get s))
  ∧ out s' = out s ++ map job (due_by T (pending (get s)))
  ∧ next_handle (get s') = next_handle (get s)
  ∧ now (get s') = T.
Proof.
  intros Hn Ho. unfold Timers.advance. rewrite decide_True by done.
  destruct (run_timers_ordered T (pending (get s)) (length (pending (get s))) s
              eq_refl Ho ltac:(lia)) as (Hp & Hout & Hh).
  cbn zeta. rewrite get_set, out_set. unfold at_time. cbn. done.
Qed.

(** A property of the state that each firing keeps holds after time has
    passed. *)
Lemma advance_keeps (Q : S → Prop) T s :
  (∀ f s, Q s → Q (set f s)) → (∀ j s, Q s → Q (fire j s)) →
  Q s → Q (Timers.advance get set fire T s).
Proof.
  intros Hset Hfire Hs. unfold Timers.advance.
  destruct (decide _) as [_|]; [|done].
  apply Hset. generalize (length (pending (get s))). intros n.
  revert s Hs. induction n as [|n IH]; intros s Hs; [done|]. cbn.
  destruct (next_due T (get s)); [|done]. apply IH. by apply Hfire, Hset.
Qed.
End Fires.

(** The values typed, as [(time, value)]: times do not decrease, and each
    value differs from the one before it (an input reports changes). *)
Fixpoint typing (tp : Z) (prev : string) (evs : list (Z * string)) : Prop :=
  match evs with
  | [] => True
  | (t, v) :: evs' => (tp ≤ t)%Z ∧ v ≠ prev ∧ typing t v evs'
  end.

Fixpoint end_time (t0 : Z) (evs : list (Z * string)) : Z :=
  match evs with
  | [] => t0
  | (t, _) :: evs' => end_time t evs'
  end.

(** The value of the input before each of the keystrokes. *)
Fixpoint before (prev : string) (evs : list (Z * string)) : list string :=
  match evs with
  | [] => []
  | (_, v) :: evs' => prev :: before v evs'
  end.

(** *** NaiveDebounceDemo *)
Module NaiveDebounceDemo.

Record demo := {
  value : string;
  requests : list string
}.

Definition setValue (v : string) (w : demo) : demo :=
  {| value := v; requests := requests w |}.

Definition setRequests (f : list string → list string) (w : demo) : demo :=
  {| value := value w; requests := f (requests w) |}.

Definition sendRequest : Z → string → demo → demo :=
  λ _ val w, setRequests (λ prev, prev ++ [val]) w.

(** The state of the demo, the closure variable of the
    [debounce(sendRequest, 500)] of the last render, and the timers. *)
Abbreviation state := (Debounce.debounced string demo).

(** Every render calls [debounce] again: a new closure, [timeoutId] null. *)
Definition render (d : state) : state :=
  Debounce.create (Debounce.timers d) (Debounce.world d).

Definition mount (hs : host) : state :=
  render (Debounce.create (fresh hs 0) {| value := ""; requests := [] |}).

(** A timer fires: [sendRequest(val)], and the state update renders. *)
Definition fire (val : string) (d : state) : state :=
  render (Debounce.fire sendRequest val d).

Definition advance : Z → state → state :=
  Timers.advance Debounce.timers Debounce.with_timers fire.

(** [handleChange]; a [setValue] with the value the state has already does
    not render. *)
Definition handleChange (val : string) (d : state) : state :=
  let changed := bool_decide (val ≠ value (Debounce.world d)) in
  let d := Debounce.with_world (setValue val (Debounce.world d)) d in
  let d := Debounce.debouncedFn 500 val d in
  if changed then render d else d.

Fixpoint run (evs : list (Z * string)) (d : state) : state :=
  match evs with
  | [] => d
  | (t, val) :: evs' => run evs' (handleChange val (advance t d))
  end.

End NaiveDebounceDemo.

(** *** MemoWithStateDepsDemo *)
Module MemoWithStateDepsDemo.
Import Closures.

(** One [debounce(sendRequest, 500)]: the callback it was given, and its
    closure variable. *)
Record instance := {
  callback : closure string;       (* sendRequest closes over [value] *)
  timeoutId : option nat
}.

Record state := {
  value : string;
  requests : list string;
  sendRequest : option (closure string * list string);   (* useCallback(..., [value]) *)
  debouncedSendRequest : option (instance * list nat);   (* useMemo(..., [sendRequest]) *)
  created : nat;                   (* function objects created so far *)
  timers : facility string         (* a timer holds what its callback closes over *)
}.

Definition render (s : state) : state :=
  let sendRequest :=
    useCallback {| fn := created s; env := value s |} [value s] (sendRequest s) in
  let debounced :=
    useCallback {| callback := sendRequest.1; timeoutId := None |}
      [fn sendRequest.1] (debouncedSendRequest s) in
  {| value := value s; requests := requests s;
     sendRequest := Some sendRequest; debouncedSendRequest := Some debounced;
     created := S (created s); timers := timers s |}.

Definition mount (hs : host) : state :=
  render {| value := ""; requests := []; sendRequest := None;
            debouncedSendRequest := None; created := 0; timers := fresh hs 0 |}.

Definition with_timers (f : facility string) (s : state) : state :=
  {| value := value s; requests := requests s; sendRequest := sendRequest s;
     debouncedSendRequest := debouncedSendRequest s; created := created s;
     timers := f |}.

Definition setValue (v : string) (s : state) : state :=
  {| value := v; requests := requests s; sendRequest := sendRequest s;
     debouncedSendRequest := debouncedSendRequest s; created := created s;
     timers := timers s |}.

Definition setRequests (f : list string → list string) (s : state) : state :=
  {| value := value s; requests := f (requests s); sendRequest := sendRequest s;
     debouncedSendRequest := debouncedSendRequest s; created := created s;
     timers := timers s |}.

(** [debouncedSendRequest()]: the debounced function of the last render. *)
Definition debouncedFn (s : state) : state :=
  match debouncedSendRequest s with
  | Some (i, deps) =>
      let cleared :=
        match timeoutId i with
        | Some h => if truthy (timeoutId i) then clearTimeout h (timers s) else timers s
        | None => timers s
        end in
      let '(h, f) := setTimeout (env (callback i)) 500 cleared in
      {| value := value s; requests := requests s; sendRequest := sendRequest s;
         debouncedSendRequest :=
           Some ({| callback := callback i; timeoutId := Some h |}, deps);
         created := created s; timers := f |}
  | None => s
  end.

(** A timer fires: the [sendRequest] it holds appends the value it closed
    over, and the state update renders. *)
Definition fire (captured : string) (s : state) : state :=
  render (setRequests (λ prev, prev ++ [captured]) s).

Definition advance : Z → state → state := Timers.advance timers with_timers fire.

Definition handleChange (val : string) (s : state) : state :=
  render (debouncedFn (setValue val s)).

Fixpoint run (evs : list (Z * string)) (s : state) : state :=
  match evs with
  | [] => s
  | (t, val) :: evs' => run evs' (handleChange val (advance t s))
  end.

End MemoWithStateDepsDemo.

(** *** NaiveRefDemo *)
Module NaiveRefDemo.

Record demo := {
  value : string;
  requests : list string
}.

Definition setValue (v : string) (w : demo) : demo :=
  {| value := v; requests := requests w |}.

(** The arrow given to [debounce] by a render in state [w0]. *)
Definition sendRequest (w0 : demo) : Z → unit → demo → demo :=
  λ _ _ w, {| value := value w; requests := requests w ++ [value w0] |}.

Definition initial : demo := {| value := ""; requests := [] |}.

(** [useRef(debounce(...))] keeps the debounced function of the first
    render, whose callback is the arrow of the first render. *)
Definition debouncedRef : Z → unit → demo → demo := sendRequest initial.

Definition mount (hs : host) : Debounce.debounced unit demo :=
  Debounce.create (fresh hs 0) initial.

(** [handleChange]: [setValue(val)], then [debouncedRef.current()]. *)
Definition handleChange (t : Z) (val : string) : list (Z * action unit demo) :=
  [(t, Other (setValue val)); (t, Call ())].

Definition run (hs : host) (evs : list (Z * string)) : Debounce.debounced unit demo :=
  Debounce.run debouncedRef 500 (flat_map (λ e, handleChange e.1 e.2) evs) (mount hs).

End NaiveRefDemo.

(** ** Lemmas *)

(** The timers set so far are due within 500 ms and have handles already
    given out. *)
Definition recent {J} (f : facility J) : Prop :=
  ordered (pending f)
  ∧ Forall (λ t, (due t ≤ now f + 500)%Z ∧ (handle t < next_handle f)%nat) (pending f).

Lemma recent_later {J} (f f' : facility J) T :
  recent f → (now f ≤ T)%Z →
  pending f' = due_after T (pending f) → now f' = T → next_handle f' = next_handle f →
  recent f'.
Proof.
  intros [Ho Hall] HT Hp Hn Hh. unfold recent. rewrite Hp, Hn, Hh. split.
  - by apply ordered_filter.
  - rewrite Forall_forall in *. intros t Ht.
    apply list_elem_of_filter in Ht as [_ Ht]. destruct (Hall t Ht). split; lia.
Qed.

Lemma recent_setTimeout {J} (f : facility J) (j : J) :
  recent f → recent (setTimeout j 500 f).2
  ∧ pending (setTimeout j 500 f).2
    = pending f ++ [{| handle := next_handle f; due := (now f + 500)%Z; job := j |}]
  ∧ now (setTimeout j 500 f).2 = now f.
Proof.
  intros [Ho Hall]. unfold setTimeout, recent. cbn.
  rewrite (delay_kept_in_range (keeper f) 500) by (unfold TIMEOUT_MAX; lia).
  split_and!; try done.
  - apply ordered_snoc; [done|]. cbn. eapply Forall_impl; [done|].
    cbn. intros t [? ?]. split; lia.
  - apply Forall_app. split.
    + eapply Forall_impl; [done|]. cbn. intros t [? ?]. split; lia.
    + repeat constructor; cbn; lia.
Qed.

Lemma recent_all_due {J} (f : facility J) T :
  recent f → (now f + 500 ≤ T)%Z →
  due_by T (pending f) = pending f.
Proof.
  intros [_ Hall] HT. apply due_by_later.
  eapply Forall_impl; [done|]. cbn. intros t [? _]. lia.
Qed.

(** **** NaiveDebounceDemo *)

Definition naive_inv (typed : list string) (d : NaiveDebounceDemo.state) : Prop :=
  Debounce.timeoutId d = None
  ∧ recent (Debounce.timers d)
  ∧ NaiveDebounceDemo.requests (Debounce.world d)
    ++ map job (pending (Debounce.timers d)) = typed.

Lemma naive_advance typed d T :
  naive_inv typed d → (now (Debounce.timers d) ≤ T)%Z →
  let d' := NaiveDebounceDemo.advance T d in
  naive_inv typed d'
  ∧ now (Debounce.timers d') = T
  ∧ NaiveDebounceDemo.value (Debounce.world d') = NaiveDebounceDemo.value (Debounce.world d)
  ∧ NaiveDebounceDemo.requests (Debounce.world d')
    = NaiveDebounceDemo.requests (Debounce.world d)
      ++ map job (due_by T (pending (Debounce.timers d))).
Proof.
  intros (Hid & Hr & Hsent) HT d'.
  destruct (advance_ordered Debounce.timers Debounce.with_timers NaiveDebounceDemo.fire
              (λ d, NaiveDebounceDemo.requests (Debounce.world d))
              ltac:(done) ltac:(done) ltac:(done) ltac:(done) T d HT (proj1 Hr))
    as (Hp & Hout & Hh & Hn).
  fold NaiveDebounceDemo.advance in Hp, Hout, Hh, Hn. fold d' in Hp, Hout, Hh, Hn.
  split_and!; [split_and!|done| |done].
  - apply (advance_keeps Debounce.timers Debounce.with_timers NaiveDebounceDemo.fire
             (λ d, Debounce.timeoutId d = None)); done.
  - by apply (recent_later (Debounce.timers d) _ T).
  - rewrite Hout, Hp, <- app_assoc, <- map_app, ordered_split; [done|apply Hr].
  - apply (advance_keeps Debounce.timers Debounce.with_timers NaiveDebounceDemo.fire
             (λ d0, NaiveDebounceDemo.value (Debounce.world d0)
                    = NaiveDebounceDemo.value (Debounce.world d))); done.
Qed.

Lemma naive_handleChange typed d val :
  naive_inv typed d → val ≠ NaiveDebounceDemo.value (Debounce.world d) →
  let d' := NaiveDebounceDemo.handleChange val d in
  naive_inv (typed ++ [val]) d'
  ∧ now (Debounce.timers d') = now (Debounce.timers d)
  ∧ NaiveDebounceDemo.value (Debounce.world d') = val.
Proof.
  intros (Hid & Hr & Hsent) Hval d'. subst d'.
  unfold NaiveDebounceDemo.handleChange. rewrite bool_decide_true by done.
  unfold Debounce.debouncedFn, Debounce.clear, Debounce.with_world.
  cbn [Debounce.timeoutId Debounce.timers Debounce.world]. rewrite Hid.
  destruct (recent_setTimeout (Debounce.timers d) val Hr) as (Hr' & Hp' & Hn').
  destruct (setTimeout val 500 (Debounce.timers d)) as [h f] eqn:E. cbn in Hr', Hp', Hn'.
  cbn. split_and!; [split_and!|done|done]; [done|done|].
  cbn. rewrite Hp', map_app, app_assoc, Hsent. done.
Qed.

Lemma naive_run evs : ∀ d typed,
  naive_inv typed d →
  typing (now (Debounce.timers d)) (NaiveDebounceDemo.value (Debounce.world d)) evs →
  let d' := NaiveDebounceDemo.run evs d in
  naive_inv (typed ++ map snd evs) d'
  ∧ now (Debounce.timers d') = end_time (now (Debounce.timers d)) evs.
Proof.
  induction evs as [|[t v] evs IH]; intros d typed Hinv Hty.
  - cbn. by rewrite app_nil_r.
  - destruct Hty as (Ht & Hv & Hty). cbn [NaiveDebounceDemo.run].
    destruct (naive_advance typed d t Hinv Ht) as (Hinv1 & Hn1 & Hv1 & _).
    rewrite <- Hv1 in Hv.
    destruct (naive_handleChange typed _ v Hinv1 Hv) as (Hinv2 & Hn2 & Hv2).
    rewrite Hn1 in Hn2.
    specialize (IH _ _ Hinv2). rewrite Hn2, Hv2 in IH. specialize (IH Hty).
    cbn zeta in IH. destruct IH as [IH1 IH2]. cbn [map end_time snd].
    split; [|done]. rewrite <- app_assoc in IH1. exact IH1.
Qed.

(** **** MemoWithStateDepsDemo *)

Definition memo_cells (s : MemoWithStateDepsDemo.state) : Prop :=
  ∃ k, (k < MemoWithStateDepsDemo.created s)%nat
    ∧ MemoWithStateDepsDemo.sendRequest s
      = Some ({| Closures.fn := k; Closures.env := MemoWithStateDepsDemo.value s |},
              [MemoWithStateDepsDemo.value s])
    ∧ MemoWithStateDepsDemo.debouncedSendRequest s
      = Some ({| MemoWithStateDepsDemo.callback :=
                   {| Closures.fn := k; Closures.env := MemoWithStateDepsDemo.value s |};
                 MemoWithStateDepsDemo.timeoutId := None |}, [k]).

Definition memo_inv (sent : list string) (s : MemoWithStateDepsDemo.state) : Prop :=
  memo_cells s
  ∧ recent (MemoWithStateDepsDemo.timers s)
  ∧ MemoWithStateDepsDemo.requests s
    ++ map job (pending (MemoWithStateDepsDemo.timers s)) = sent.

Lemma memo_cells_fire j s :
  memo_cells s → memo_cells (MemoWithStateDepsDemo.fire j s).
Proof.
  intros (k & Hk & Hs & Hd). exists k.
  unfold MemoWithStateDepsDemo.fire, MemoWithStateDepsDemo.render. cbn.
  rewrite Hs, Hd. cbn. rewrite decide_True by done. cbn.
  rewrite decide_True by done. split_and!; [lia|done|done].
Qed.

Lemma memo_advance sent s T :
  memo_inv sent s → (now (MemoWithStateDepsDemo.timers s) ≤ T)%Z →
  let s' := MemoWithStateDepsDemo.advance T s in
  memo_inv sent s'
  ∧ now (MemoWithStateDepsDemo.timers s') = T
  ∧ MemoWithStateDepsDemo.value s' = MemoWithStateDepsDemo.value s
  ∧ MemoWithStateDepsDemo.requests s'
    = MemoWithStateDepsDemo.requests s
      ++ map job (due_by T (pending (MemoWithStateDepsDemo.timers s))).
Proof.
  intros (Hc & Hr & Hsent) HT s'.
  destruct (advance_ordered MemoWithStateDepsDemo.timers
              MemoWithStateDepsDemo.with_timers MemoWithStateDepsDemo.fire
              MemoWithStateDepsDemo.requests
              ltac:(done) ltac:(done) ltac:(done) ltac:(done) T s HT (proj1 Hr))
    as (Hp & Hout & Hh & Hn).
  fold MemoWithStateDepsDemo.advance in Hp, Hout, Hh, Hn. fold s' in Hp, Hout, Hh, Hn.
  split_and!; [split_and!|done| |done].
  - apply (advance_keeps MemoWithStateDepsDemo.timers
             MemoWithStateDepsDemo.with_timers MemoWithStateDepsDemo.fire memo_cells);
      [done| |done].
    intros. by apply memo_cells_fire.
  - by apply (recent_later (MemoWithStateDepsDemo.timers s) _ T).
  - rewrite Hout, Hp, <- app_assoc, <- map_app, ordered_split; [done|apply Hr].
  - apply (advance_keeps MemoWithStateDepsDemo.timers
             MemoWithStateDepsDemo.with_timers MemoWithStateDepsDemo.fire
             (λ s0, MemoWithStateDepsDemo.value s0 = MemoWithStateDepsDemo.value s)); done.
Qed.

Lemma memo_handleChange sent s val :
  memo_inv sent s → val ≠ MemoWithStateDepsDemo.value s →
  let s' := MemoWithStateDepsDemo.handleChange val s in
  memo_inv (sent ++ [MemoWithStateDepsDemo.value s]) s'
  ∧ now (MemoWithStateDepsDemo.timers s') = now (MemoWithStateDepsDemo.timers s)
  ∧ MemoWithStateDepsDemo.value s' = val.
Proof.
  intros ((k & Hk & Hs & Hd) & Hr & Hsent) Hval s'. subst s'.
  unfold MemoWithStateDepsDemo.handleChange, MemoWithStateDepsDemo.debouncedFn.
  cbn [MemoWithStateDepsDemo.setValue MemoWithStateDepsDemo.debouncedSendRequest
       MemoWithStateDepsDemo.timers].
  rewrite Hd. cbn [MemoWithStateDepsDemo.timeoutId MemoWithStateDepsDemo.callback
                   Closures.env].
  destruct (recent_setTimeout (MemoWithStateDepsDemo.timers s)
              (MemoWithStateDepsDemo.value s) Hr) as (Hr' & Hp' & Hn').
  destruct (setTimeout (MemoWithStateDepsDemo.value s) 500
              (MemoWithStateDepsDemo.timers s)) as [h f] eqn:E.
  cbn in Hr', Hp', Hn'.
  unfold MemoWithStateDepsDemo.render. cbn. rewrite Hs. cbn.
  rewrite decide_False by (intros [=]; congruence). cbn.
  rewrite decide_False by (intros [=]; lia).
  split_and!; [split_and!|done|done]; [|done|].
  - exists (MemoWithStateDepsDemo.created s). cbn. split_and!; [lia|done|done].
  - cbn. rewrite Hp', map_app, app_assoc, Hsent. done.
Qed.

Lemma memo_run evs : ∀ s sent,
  memo_inv sent s →
  typing (now (MemoWithStateDepsDemo.timers s)) (MemoWithStateDepsDemo.value s) evs →
  let s' := MemoWithStateDepsDemo.run evs s in
  memo_inv (sent ++ before (MemoWithStateDepsDemo.value s) evs) s'
  ∧ now (MemoWithStateDepsDemo.timers s')
    = end_time (now (MemoWithStateDepsDemo.timers s)) evs.
Proof.
  induction evs as [|[t v] evs IH]; intros s sent Hinv Hty.
  - cbn. by rewrite app_nil_r.
  - destruct Hty as (Ht & Hv & Hty). cbn [MemoWithStateDepsDemo.run].
    destruct (memo_advance sent s t Hinv Ht) as (Hinv1 & Hn1 & Hv1 & _).
    rewrite <- Hv1 in Hv.
    destruct (memo_handleChange sent _ v Hinv1 Hv) as (Hinv2 & Hn2 & Hv2).
    rewrite Hn1 in Hn2. rewrite Hv1 in Hinv2.
    specialize (IH _ _ Hinv2). rewrite Hn2, Hv2 in IH. specialize (IH Hty).
    cbn zeta in IH. destruct IH as [IH1 IH2]. cbn [before end_time].
    split; [|done]. rewrite <- app_assoc in IH1. exact IH1.
Qed.

(** **** NaiveRefDemo *)

Lemma debounce_run_keeps {Args World} (callback : Z → Args → World → World) wait
    (Q : World → Prop) evs : ∀ d,
  (∀ t a w, Q w → Q (callback t a w)) →
  Forall (λ e, match e.2 with Other g => ∀ w, Q w → Q (g w) | Call _ => True end) evs →
  Q (Debounce.world d) →
  Q (Debounce.world (Debounce.run callback wait evs d)).
Proof.
  intros d Hcb Hevs. revert d.
  induction Hevs as [|[t a] evs Ha _ IH]; intros d Hd; [done|].
  cbn [Debounce.run]. apply IH.
  assert (Q (Debounce.world (Debounce.advance callback t d))) as Hadv.
  { apply (advance_keeps Debounce.timers Debounce.with_timers
             (Debounce.fire callback) (λ d, Q (Debounce.world d))); [done| |done].
    intros j s Hs. by apply Hcb. }
  destruct a as [args|g]; cbn in *.
  - done.
  - by apply Ha.
Qed.

Lemma debounce_run_app {Args World} (callback : Z → Args → World → World) wait
    evs1 evs2 : ∀ d,
  Debounce.run callback wait (evs1 ++ evs2) d
  = Debounce.run callback wait evs2 (Debounce.run callback wait evs1 d).
Proof.
  induction evs1 as [|[t a] evs1 IH]; intros d; [done|]. cbn. by rewrite IH.
Qed.

Lemma debouncedFn_world {Args World} wait (args : Args) (d : Debounce.debounced Args World) :
  Debounce.world (Debounce.debouncedFn wait args d) = Debounce.world d.
Proof.
  unfold Debounce.debouncedFn. by destruct (setTimeout args wait (Debounce.clear d)).
Qed.

Lemma naive_ref_advance_keeps (Q : NaiveRefDemo.demo → Prop) T d :
  (∀ t a w, Q w → Q (NaiveRefDemo.debouncedRef t a w)) →
  Q (Debounce.world d) →
  Q (Debounce.world (Debounce.advance NaiveRefDemo.debouncedRef T d)).
Proof.
  intros Hcb Hd.
  apply (advance_keeps Debounce.timers Debounce.with_timers
           (Debounce.fire NaiveRefDemo.debouncedRef) (λ d, Q (Debounce.world d)));
    [done| |done].
  intros j s Hs. by apply Hcb.
Qed.


(** ** Theorems *)

(** [NaiveDebounceDemo] only delays: [debounce] is called at every render,
    so each keystroke finds a function that has no timer yet, sets a timer
    of its own, and no timer is ever cleared.  Nothing typed is dropped:
    at any time the requests sent and the values still waiting make up all
    the values typed, in order; and 500 ms after the last keystroke every
    value typed has been sent. *)
Theorem naive_debounce_sends_every_value (hs : host) (evs : list (Z * string)) (T : Z) :
  typing 0 "" evs → (end_time 0 evs + 500 ≤ T)%Z →
  let d := NaiveDebounceDemo.run evs (NaiveDebounceDemo.mount hs) in
  NaiveDebounceDemo.requests (Debounce.world d)
    ++ map job (pending (Debounce.timers d)) = map snd evs
  ∧ NaiveDebounceDemo.requests (Debounce.world (NaiveDebounceDemo.advance T d))
    = map snd evs.
Proof.
  intros Hty HT d.
  assert (naive_inv [] (NaiveDebounceDemo.mount hs)) as H0.
  { split_and!; try done. all: split; [done|constructor]. }
  destruct (naive_run evs _ [] H0 Hty) as [(Hid & Hr & Hsent) Hn].
  fold d in Hid, Hr, Hsent, Hn. cbn in Hn, Hsent. split; [done|].
  destruct (naive_advance (map snd evs) d T) as (_ & _ & _ & Hreq).
  - done.
  - lia.
  - rewrite Hreq, recent_all_due; [done|done|lia].
Qed.

(** Three letters typed 100 ms apart: three requests. *)
Lemma naive_debounce_sends_every_value_witness :
  NaiveDebounceDemo.requests
    (Debounce.world
       (NaiveDebounceDemo.advance 1000
          (NaiveDebounceDemo.run [(100, "a"); (200, "ab"); (300, "abc")]%Z
             (NaiveDebounceDemo.mount Browser))))
  = ["a"; "ab"; "abc"].
Proof.
  apply (naive_debounce_sends_every_value Browser
           [(100, "a"); (200, "ab"); (300, "abc")]%Z 1000).
  - cbn. repeat split; first [lia | discriminate].
  - cbn. lia.
Defined.

(** [MemoWithStateDepsDemo] is broken in two ways.  [sendRequest] depends
    on [value], so each keystroke that changes the value makes a new
    debounced function and nothing is debounced; and the call in
    [handleChange] goes to the function of the render before the keystroke,
    whose [sendRequest] closes over the value before it.  So 500 ms after
    the last keystroke there is one request for each keystroke, and it
    holds the value the input had before that keystroke: the value typed
    last is never sent. *)
Theorem memo_state_deps_sends_previous_values (hs : host) (evs : list (Z * string))
    (T : Z) :
  typing 0 "" evs → (end_time 0 evs + 500 ≤ T)%Z →
  let s := MemoWithStateDepsDemo.run evs (MemoWithStateDepsDemo.mount hs) in
  MemoWithStateDepsDemo.requests (MemoWithStateDepsDemo.advance T s) = before "" evs.
Proof.
  intros Hty HT s.
  assert (memo_inv [] (MemoWithStateDepsDemo.mount hs)) as H0.
  { split_and!; try done.
    all: try (split; [done|constructor]).
    all: exists 0%nat; cbn; split_and!; [lia|done|done]. }
  destruct (memo_run evs _ [] H0 Hty) as [(Hc & Hr & Hsent) Hn].
  fold s in Hc, Hr, Hsent, Hn. cbn in Hn, Hsent.
  destruct (memo_advance (before "" evs) s T) as (_ & _ & _ & Hreq).
  - done.
  - lia.
  - rewrite Hreq, recent_all_due; [done|done|lia].
Qed.

(** Three letters typed 100 ms apart: the requests are the three values
    before the keystrokes. *)
Lemma memo_state_deps_sends_previous_values_witness :
  MemoWithStateDepsDemo.requests
    (MemoWithStateDepsDemo.advance 1000
       (MemoWithStateDepsDemo.run [(100, "a"); (200, "ab"); (300, "abc")]%Z
          (MemoWithStateDepsDemo.mount Browser)))
  = [""; "a"; "ab"].
Proof.
  apply (memo_state_deps_sends_previous_values Browser
           [(100, "a"); (200, "ab"); (300, "abc")]%Z 1000).
  - cbn. repeat split; first [lia | discriminate].
  - cbn. lia.
Defined.

(** [NaiveRefDemo]: the debounced function kept in the ref calls the arrow
    of the first render, which closes over the first value.  Whatever is
    typed and whenever, every request sent is the empty string, while the
    input holds the value typed last. *)
Theorem naive_ref_sends_empty_values (hs : host) (evs : list (Z * string)) (T : Z) :
  let d := Debounce.advance NaiveRefDemo.debouncedRef T (NaiveRefDemo.run hs evs) in
  Forall (λ r, r = "") (NaiveRefDemo.requests (Debounce.world d))
  ∧ NaiveRefDemo.value (Debounce.world d) = default "" (last (map snd evs)).
Proof.
  intros d. split.
  - apply (naive_ref_advance_keeps
             (λ w, Forall (λ r, r = "") (NaiveRefDemo.requests w))).
    { intros t a w Hw. cbn. apply Forall_app. split; [done|by repeat constructor]. }
    unfold NaiveRefDemo.run. apply debounce_run_keeps.
    + intros t a w Hw. cbn. apply Forall_app. split; [done|by repeat constructor].
    + clear d. induction evs as [|[t v] evs IH]; [constructor|].
      cbn. constructor; [by intros w Hw|]. by constructor.
    + constructor.
  - apply (naive_ref_advance_keeps
             (λ w, NaiveRefDemo.value w = default "" (last (map snd evs)))); [done|].
    unfold NaiveRefDemo.run. clear.
    induction evs as [|[t v] evs IH] using rev_ind; [done|].
    rewrite flat_map_app, debounce_run_app, map_app.
    change (map snd [(t, v)]) with [v]. rewrite last_snoc.
    cbn [flat_map NaiveRefDemo.handleChange app Debounce.run Debounce.act fst snd default].
    rewrite debouncedFn_world.
    by apply (naive_ref_advance_keeps (λ w, NaiveRefDemo.value w = v)).
Qed.

End DebounceDemos.

(** ** Chapter 10: the form with the ref written by hand
       (src/components/chapter-10/optimised.tsx, [FormWithRefEscape]) *)
Module RefEscape.
Import Closures.

Record state := {
  formValue : string;
  email : string;
  submittedData : option (string * string);
  submitRef : option (option (string * string));
    (* useRef(() => {}): the empty function, or one that closes over the fields *)
  handleSubmit : option (nat * list nat);     (* useCallback(..., []) *)
  created : nat;                              (* function objects created so far *)
  heavy : option (instance (HeavyProps unit))
}.

(** The render, and the effect without dependencies, which stores a new
    function in the ref after every render. *)
Definition render (s : state) : state :=
  let handleSubmit := useCallback (created s) [] (handleSubmit s) in
  {| formValue := formValue s; email := email s; submittedData := submittedData s;
     submitRef := Some (Some (formValue s, email s));
     handleSubmit := Some handleSubmit;
     created := S (created s);
     heavy := Some (memo shallowEqual
                      {| title := "Heavy Form Component";
                         onClick := {| fn := handleSubmit.1; env := tt |} |}
                      (heavy s)) |}.

Definition mount : state :=
  render {| formValue := ""; email := ""; submittedData := None;
            submitRef := None; handleSubmit := None; created := 0; heavy := None |}.

Inductive event := SetFormValue (v : string) | SetEmail (v : string) | Submit.

(** [Submit] is a click on the button of the heavy component:
    [handleSubmit] calls [submitRef.current()]. *)
Definition handle (s : state) (e : event) : state :=
  match e with
  | SetFormValue v =>
      {| formValue := v; email := email s; submittedData := submittedData s;
         submitRef := submitRef s; handleSubmit := handleSubmit s;
         created := created s; heavy := heavy s |}
  | SetEmail v =>
      {| formValue := formValue s; email := v; submittedData := submittedData s;
         submitRef := submitRef s; handleSubmit := handleSubmit s;
         created := created s; heavy := heavy s |}
  | Submit =>
      match heavy s, submitRef s with
      | Some _, Some (Some data) =>
          {| formValue := formValue s; email := email s; submittedData := Some data;
             submitRef := submitRef s; handleSubmit := handleSubmit s;
             created := created s; heavy := heavy s |}
      | _, _ => s
      end
  end.

Definition step (s : state) (e : event) : state := render (handle s e).

Definition run (es : list event) : state := fold_left step es mount.

Definition escape_ok (s : state) : Prop :=
  submitRef s = Some (Some (formValue s, email s))
  ∧ handleSubmit s = Some (0, [])
  ∧ heavy s = Some {| props := {| title := "Heavy Form Component";
                                  onClick := {| fn := 0; env := tt |} |};
                      render_count := 1 |}.

Lemma escape_ok_step s e : escape_ok s → escape_ok (step s e).
Proof.
  intros (Hr & Hs & Hv). unfold step, escape_ok.
  destruct e as [v|v|]; cbn; rewrite ?Hr, ?Hs, ?Hv; cbn; by rewrite ?Hs, ?Hv.
Qed.

Lemma escape_ok_run es : escape_ok (run es).
Proof.
  unfold run. apply fold_left_inv; [done|]. intros. by apply escape_ok_step.
Qed.

(** [FormWithRefEscape]: [handleSubmit] is the same function at every
    render, so the heavy component renders once whatever is typed; and a
    click on its button submits the two fields as they are at the click. *)
Theorem form_with_ref_submits_current_fields (es : list event) :
  let s := run es in
  (render_count <$> heavy s) = Some 1
  ∧ submittedData (step s Submit) = Some (formValue s, email s).
Proof.
  intros s. destruct (escape_ok_run es) as (Hr & Hs & Hv). fold s in Hr, Hs, Hv.
  split; [by rewrite Hv|]. cbn. by rewrite Hv, Hr.
Qed.

End RefEscape.

(** ** Chapter 5: props that are new at every render, and memoised props
       (src/unnamed/part_012, last two parts)

    An object, a function or an element is known by the order of its
    creation; [Object.is] on two of them compares these numbers. *)
Module ChapterFive.
Import Closures.

(** The props of [VerySlowComponent]: the object [data] with its [value],
    and the function [onChange]. *)
Record SlowProps := {
  data : nat * Z;
  onChange : nat
}.

(** [React.memo] without a comparison: [Object.is] on each prop. *)
Definition slowEqual (before after : SlowProps) : bool :=
  bool_decide ((data before).1 = (data after).1)
  && bool_decide (onChange before = onChange after).

(** The only prop of [SlowComponentWithChildren] is the element given as
    [children]. *)
Definition childrenEqual (before after : nat) : bool :=
  bool_decide (before = after).

Record state := {
  count : nat;
  created : nat;                              (* objects created so far *)
  data_memo : option (nat * list nat);        (* useMemo(() => ({ value: 1 }), []) *)
  handleChange : option (nat * list nat);     (* useCallback(..., []) *)
  childContent : option (nat * list nat);     (* useMemo(() => <div>...</div>, []) *)
  slow : option (instance SlowProps);
  withChildren : option (instance nat)
}.

Definition initial : state :=
  {| count := 0; created := 0; data_memo := None; handleChange := None;
     childContent := None; slow := None; withChildren := None |}.

(** [ChapterFive]: the object, the arrow and the element are written in
    the JSX, so each render creates three new ones. *)
Definition ChapterFive (s : state) : state :=
  {| count := count s; created := created s + 3;
     data_memo := None; handleChange := None; childContent := None;
     slow := Some (memo slowEqual
                     {| data := (created s, 1%Z); onChange := created s + 1 |}
                     (slow s));
     withChildren := Some (memo childrenEqual (created s + 2) (withChildren s)) |}.

(** [ChapterFiveOptimised]: the three are kept in cells with no
    dependencies (three numbers are set aside at each render, used or
    not). *)
Definition ChapterFiveOptimised (s : state) : state :=
  let data := useCallback (created s) [] (data_memo s) in
  let handleChange := useCallback (created s + 1) [] (handleChange s) in
  let childContent := useCallback (created s + 2) [] (childContent s) in
  {| count := count s; created := created s + 3;
     data_memo := Some data; handleChange := Some handleChange;
     childContent := Some childContent;
     slow := Some (memo slowEqual
                     {| data := (data.1, 1%Z); onChange := handleChange.1 |}
                     (slow s));
     withChildren := Some (memo childrenEqual childContent.1 (withChildren s)) |}.

(** A click on the count button: [setCount(c => c + 1)]. *)
Definition setCount (f : nat → nat) (s : state) : state :=
  {| count := f (count s); created := created s; data_memo := data_memo s;
     handleChange := handleChange s; childContent := childContent s;
     slow := slow s; withChildren := withChildren s |}.

(** The component after its first render and [n] clicks. *)
Fixpoint clicks (render : state → state) (n : nat) : state :=
  match n with
  | O => render initial
  | S n' => render (setCount (λ c, c + 1) (clicks render n'))
  end.

Definition rerendered (n : nat) (s : state) : Prop :=
  count s = n
  ∧ (∃ i, slow s = Some i ∧ render_count i = S n ∧ ((data (props i)).1 < created s)%nat)
  ∧ (∃ i, withChildren s = Some i ∧ render_count i = S n ∧ (props i < created s)%nat).

Lemma ChapterFive_rerendered n : rerendered n (clicks ChapterFive n).
Proof.
  induction n as [|n (Hc & (i & Hi & Hn & Hlt) & (j & Hj & Hm & Hlt'))].
  - split_and!; [done|eexists|eexists]; (split_and!; [done|done|cbn; lia]).
  - cbn [clicks]. set (s := clicks ChapterFive n) in *.
    unfold ChapterFive, rerendered. cbn. rewrite Hi, Hj. cbn.
    unfold slowEqual, childrenEqual. cbn.
    rewrite (bool_decide_false ((data (props i)).1 = _)) by lia.
    rewrite (bool_decide_false (props j = _)) by lia. cbn.
    split_and!; [lia|eexists|eexists]; (split_and!; [done|cbn; lia|cbn; lia]).
Qed.

Definition kept (n : nat) (s : state) : Prop :=
  count s = n
  ∧ data_memo s = Some (0, []) ∧ handleChange s = Some (1, [])
  ∧ childContent s = Some (2, [])
  ∧ slow s = Some {| props := {| data := (0, 1%Z); onChange := 1 |};
                     render_count := 1 |}
  ∧ withChildren s = Some {| props := 2; render_count := 1 |}.

Lemma ChapterFiveOptimised_kept n : kept n (clicks ChapterFiveOptimised n).
Proof.
  induction n as [|n (Hc & Hd & Hh & Hcc & Hs & Hw)]; [done|].
  cbn [clicks]. set (s := clicks ChapterFiveOptimised n) in *.
  unfold ChapterFiveOptimised, kept. cbn.
  rewrite Hd, Hh, Hcc, Hs, Hw. cbn. split_and!; try done. lia.
Qed.

(** [ChapterFive]: [React.memo] does not help.  Every click on the count
    button renders both slow components again: after [n] clicks each has
    rendered [n + 1] times. *)
Theorem inline_props_render_every_time (n : nat) :
  let s := clicks ChapterFive n in
  count s = n
  ∧ (render_count <$> slow s) = Some (S n)
  ∧ (render_count <$> withChildren s) = Some (S n).
Proof.
  intros s. destruct (ChapterFive_rerendered n)
    as (Hc & (i & Hi & Hn & _) & (j & Hj & Hm & _)).
  fold s in Hc, Hi, Hj. rewrite Hi, Hj. cbn. by rewrite Hn, Hm.
Qed.

(** [ChapterFiveOptimised]: with the object, the function and the element
    memoised, both slow components render once, however often the count
    button is clicked. *)
Theorem memoised_props_render_once (n : nat) :
  let s := clicks ChapterFiveOptimised n in
  count s = n
  ∧ (render_count <$> slow s) = Some 1
  ∧ (render_count <$> withChildren s) = Some 1.
Proof.
  intros s. destruct (ChapterFiveOptimised_kept n) as (Hc & _ & _ & _ & Hs & Hw).
  fold s in Hc, Hs, Hw. by rewrite Hs, Hw.
Qed.

End ChapterFive.
